(** * KTechlab item-document snapshots: a shallow embedding of
    [itemdocumentdata.cpp] and the properties its specification states.

    The development follows the source file top to bottom: the bit-array
    text codec, the snapshot records, the XML reader and writer, the
    identifier remapper, the geometry translation, the merge / restore
    algorithms against a live document, and the sub-circuit extractor.

    Conventions.
    - [QString] is [string]; a null [QString] and an empty one compare
      equal in Qt, so both are [""], except where the source tests
      [isNull()], which is modelled with [option].
    - [QMap<QString, V>] is [gmap string V]; the source iterates a [QMap]
      in ascending key order, which [qmap_entries] reproduces.
    - [int] fields are [Z]; the places where Qt range-checks a 32-bit value
      ([QString::toInt]) carry the check explicitly.
    - A call that leaves defined behaviour (the route loop of
      [elementToConnectorData] stepping past the end of its list) has no
      result: the reader returns an [option]. *)

From Stdlib Require Import ZArith Ascii String DecimalString DecimalZ DecimalPos.
From stdpp Require Import gmap strings list fin_maps sorting.

Local Open Scope Z_scope.
#[local] Set Warnings "-clear-no-such-hyp".

(** ** Qt primitives used by the source *)

Module Qt.

  (** [QMap<QString, V>::begin() .. end()]: entries in ascending key order. *)
Definition key_le {V : Type} (a b : string * V) : Prop := String.le a.1 b.1.

#[global] Instance key_le_dec {V : Type} : RelDecision (@key_le V).
Proof. intros a b. unfold key_le. apply _. Defined.

Definition qmap_entries {V : Type} (m : gmap string V) : list (string * V) :=
    merge_sort key_le (map_to_list m).

Definition qmap_keys {V : Type} (m : gmap string V) : list string :=
    (qmap_entries m).*1.

  (** [QMap::operator[]] on a non-const map: a missing key is inserted with a
      default-constructed value, which is then returned. *)
Definition qmap_index {V : Type} (dflt : V) (m : gmap string V) (k : string)
    : V * gmap string V :=
    match m !! k with
    | Some v => (v, m)
    | None => (dflt, <[k := dflt]> m)
    end.

  (** [QString::number(int)] and [QString::number(bool)]: decimal text. *)
Definition number (z : Z) : string := NilZero.string_of_int (Z.to_int z).

Definition INT_MIN : Z := - 2 ^ 31.
Definition INT_MAX : Z := 2 ^ 31 - 1.
Definition in_int (z : Z) : Prop := INT_MIN <= z <= INT_MAX.

  (** [QChar::isSpace] for a character below 256: tab, line feed, vertical
      tab, form feed, carriage return, space, next line (0x85) and no-break
      space (0xA0). *)
Definition isSpace (c : ascii) : bool :=
    let n := N_of_ascii c in
    bool_decide (9 <= n <= 13)%N || bool_decide (n = 32)%N
    || bool_decide (n = 133)%N || bool_decide (n = 160)%N.

  (** [QString::trimmed()]: without the white space at either end. *)
Fixpoint trim_left (s : string) : string :=
    match s with
    | EmptyString => EmptyString
    | String c s' => if isSpace c then trim_left s' else s
    end.

Fixpoint trim_right (s : string) : string :=
    match s with
    | EmptyString => EmptyString
    | String c s' =>
        match trim_right s' with
        | EmptyString => if isSpace c then EmptyString else String c EmptyString
        | r => String c r
        end
    end.

Definition trimmed (s : string) : string := trim_right (trim_left s).

  (** [QString::toInt()]: white space at either end is skipped; what is left
      must be an optional sign, ["+"] or ["-"], followed by at least one
      decimal digit and nothing else.  The result is the value, or 0 when the
      text has another form or the value does not fit a 32-bit [int]. *)
Definition toInt (s : string) : Z :=
    let text := trimmed s in
    let parsed :=
      match text with
      | EmptyString => None
      | String c digits =>
          if Ascii.eqb c "+" then Decimal.Pos <$> NilZero.uint_of_string digits
          else NilZero.int_of_string text
      end in
    match parsed with
    | Some d =>
        let z := Z.of_int d in
        if bool_decide (INT_MIN <= z <= INT_MAX) then z else 0
    | None => 0
    end.

  (** [QString::number(val, 16)] for one nibble: lowercase hex digit. *)
Definition hex_digit (val : Z) : ascii :=
    match val with
    | 0 => "0" | 1 => "1" | 2 => "2" | 3 => "3" | 4 => "4" | 5 => "5"
    | 6 => "6" | 7 => "7" | 8 => "8" | 9 => "9" | 10 => "a" | 11 => "b"
    | 12 => "c" | 13 => "d" | 14 => "e" | 15 => "f" | _ => "?"
    end%char.

  (** [QString(c).toInt(nullptr, 16)] for a one-character string: the digit's
      value for 0-9, a-f, A-F and 0 (conversion failure) otherwise. *)
Definition hex_value (c : ascii) : Z :=
    let n := Z.of_N (N_of_ascii c) in
    if bool_decide (48 <= n <= 57) then n - 48
    else if bool_decide (97 <= n <= 102) then n - 87
    else if bool_decide (65 <= n <= 70) then n - 55
    else 0.

  (** [QStringList::join(sep)]. *)
Fixpoint join (sep : string) (l : list string) : string :=
    match l with
    | [] => ""
    | [s] => s
    | s :: l' => s +:+ sep +:+ join sep l'
    end.

  (** [QString::split(sep, Qt::SkipEmptyParts)] for a one-character
      separator; [cur] is the part read so far. *)
Definition emit (cur : string) : list string :=
    if bool_decide (cur = "") then [] else [cur].

Fixpoint split_go (sep : ascii) (cur : string) (s : string) : list string :=
    match s with
    | EmptyString => emit cur
    | String c s' =>
        if Ascii.eqb c sep
        then emit cur ++ split_go sep "" s'
        else split_go sep (cur +:+ String c "") s'
    end.

Definition split (sep : ascii) (s : string) : list string :=
    split_go sep "" s.

End Qt.

(** ** Bit arrays and their hexadecimal text form *)

(** [QBitArray]: a sequence of bits; reading or [resize] past the end gives
    [false]. *)
Abbreviation QBitArray := (list bool).

Definition testBit (data : QBitArray) (i : nat) : bool := data !!! i.

Definition resize (data : QBitArray) (n : nat) : QBitArray :=
  take n data ++ replicate (n - length data) false.

(** One iteration of the outer loop of [toAsciiHex]:
    [val += (data[4 * i + j] ? 1 : 0) << j] for [j] in 0..3. *)
Definition nibble_at (data : QBitArray) (i : nat) : Z :=
  foldl (fun val j => val + Z.shiftl (if testBit data (4 * i + j) then 1 else 0)
                                     (Z.of_nat j))
        0 (seq 0 4).

Definition toAsciiHex (_data : QBitArray) : string :=
  let data :=
    if bool_decide ((length _data mod 4)%nat <> 0%nat)
    then resize _data (length _data + 4 - length _data mod 4)
    else _data in
  foldl (fun text i => text +:+ String (Qt.hex_digit (nibble_at data i)) "")
        "" (seq 0 (length data / 4)).

(** [toQBitArray]: [data[4 * i + j] = val & (1 << j)] for every character. *)
Definition toQBitArray (text : string) : QBitArray :=
  let size := String.length text in
  foldl (fun data i =>
           let val := from_option Qt.hex_value 0 (String.get i text) in
           foldl (fun data j =>
                    <[(4 * i + j)%nat :=
                        bool_decide (Z.land val (Z.shiftl 1 (Z.of_nat j)) <> 0)]>
                      data)
                 data (seq 0 4))
        (replicate (size * 4) false) (seq 0 size).


(** ** Value kinds whose text form is Qt's own

    [double] and [QColor] property values reach the file only through
    [QString::number(double)] / [QString::toDouble] and [QColor::name()] /
    [QColor(QString)]; the snapshot code never inspects them, so they are
    an interface here. *)
Class QtValue := {
  QReal : Type;
  QColor : Type;
  number_double : QReal -> string;
  toDouble : string -> QReal;
  color_name : QColor -> string;
  color_named : string -> QColor
}.

(** [Document::DocumentType], as far as the source names its members. *)
Inductive DocumentType :=
| dt_none | dt_flowcode | dt_circuit | dt_mechanics | dt_text | dt_pinMapEditor.

#[global] Instance DocumentType_eq_dec : EqDecision DocumentType.
Proof. solve_decision. Defined.

Record QPoint := mkQPoint { px : Z; py : Z }.
Record QRect := mkQRect { rect_x : Z; rect_y : Z; rect_width : Z; rect_height : Z }.

(** [QPoint::operator+=]. *)
Definition QPoint_add (p q : QPoint) : QPoint :=
  mkQPoint (px p + px q) (py p + py q).

#[global] Instance QPoint_eq_dec : EqDecision QPoint.
Proof. solve_decision. Defined.
#[global] Instance QRect_eq_dec : EqDecision QRect.
Proof. solve_decision. Defined.

(** ** Entity records *)

Module ItemData.
Section with_values.
Context `{QtValue}.

Record t := mk {
      type : string;
      x : Z;
      y : Z;
      z : Z;
      size : QRect;
      setSize : bool;
      orientation : Z;
      angleDegrees : Z;
      flipped : bool;
      buttonMap : gmap string bool;
      sliderMap : gmap string Z;
      parentId : string;
      dataBool : gmap string bool;
      dataNumber : gmap string QReal;
      dataColor : gmap string QColor;
      dataString : gmap string string;
      dataRaw : gmap string QBitArray
    }.

    (** [ItemData::ItemData()]. *)
Definition init : t :=
      {| type := ""; x := 0; y := 0; z := -1; size := mkQRect 0 0 0 0;
         setSize := false; orientation := -1; angleDegrees := 0;
         flipped := false; buttonMap := ∅; sliderMap := ∅; parentId := "";
         dataBool := ∅; dataNumber := ∅; dataColor := ∅; dataString := ∅;
         dataRaw := ∅ |}.

Definition set_pos (nx ny : Z) (d : t) : t :=
      mk (type d) nx ny (z d) (size d) (setSize d) (orientation d)
         (angleDegrees d) (flipped d) (buttonMap d) (sliderMap d) (parentId d)
         (dataBool d) (dataNumber d) (dataColor d) (dataString d) (dataRaw d).

Definition set_parentId (p : string) (d : t) : t :=
      mk (type d) (x d) (y d) (z d) (size d) (setSize d) (orientation d)
         (angleDegrees d) (flipped d) (buttonMap d) (sliderMap d) p
         (dataBool d) (dataNumber d) (dataColor d) (dataString d) (dataRaw d).

Definition set_buttonMap (m : gmap string bool) (d : t) : t :=
      mk (type d) (x d) (y d) (z d) (size d) (setSize d) (orientation d)
         (angleDegrees d) (flipped d) m (sliderMap d) (parentId d)
         (dataBool d) (dataNumber d) (dataColor d) (dataString d) (dataRaw d).

Definition set_sliderMap (m : gmap string Z) (d : t) : t :=
      mk (type d) (x d) (y d) (z d) (size d) (setSize d) (orientation d)
         (angleDegrees d) (flipped d) (buttonMap d) m (parentId d)
         (dataBool d) (dataNumber d) (dataColor d) (dataString d) (dataRaw d).

Definition set_dataBool (m : gmap string bool) (d : t) : t :=
      mk (type d) (x d) (y d) (z d) (size d) (setSize d) (orientation d)
         (angleDegrees d) (flipped d) (buttonMap d) (sliderMap d) (parentId d)
         m (dataNumber d) (dataColor d) (dataString d) (dataRaw d).

Definition set_dataNumber (m : gmap string QReal) (d : t) : t :=
      mk (type d) (x d) (y d) (z d) (size d) (setSize d) (orientation d)
         (angleDegrees d) (flipped d) (buttonMap d) (sliderMap d) (parentId d)
         (dataBool d) m (dataColor d) (dataString d) (dataRaw d).

Definition set_dataColor (m : gmap string QColor) (d : t) : t :=
      mk (type d) (x d) (y d) (z d) (size d) (setSize d) (orientation d)
         (angleDegrees d) (flipped d) (buttonMap d) (sliderMap d) (parentId d)
         (dataBool d) (dataNumber d) m (dataString d) (dataRaw d).

Definition set_dataString (m : gmap string string) (d : t) : t :=
      mk (type d) (x d) (y d) (z d) (size d) (setSize d) (orientation d)
         (angleDegrees d) (flipped d) (buttonMap d) (sliderMap d) (parentId d)
         (dataBool d) (dataNumber d) (dataColor d) m (dataRaw d).

Definition set_dataRaw (m : gmap string QBitArray) (d : t) : t :=
      mk (type d) (x d) (y d) (z d) (size d) (setSize d) (orientation d)
         (angleDegrees d) (flipped d) (buttonMap d) (sliderMap d) (parentId d)
         (dataBool d) (dataNumber d) (dataColor d) (dataString d) m.
End with_values.
Arguments t {_}.
End ItemData.

Module ConnectorData.
Record t := mk {
    manualRoute : bool;
    route : list QPoint;
    startNodeIsChild : bool;
    endNodeIsChild : bool;
    startNodeCId : string;
    endNodeCId : string;
    startNodeParent : string;
    endNodeParent : string;
    startNodeId : string;
    endNodeId : string
  }.

  (** [ConnectorData::ConnectorData()]. *)
Definition init : t :=
    {| manualRoute := false; route := []; startNodeIsChild := false;
       endNodeIsChild := false; startNodeCId := ""; endNodeCId := "";
       startNodeParent := ""; endNodeParent := ""; startNodeId := "";
       endNodeId := "" |}.

Definition set_route (r : list QPoint) (c : t) : t :=
    mk (manualRoute c) r (startNodeIsChild c) (endNodeIsChild c)
       (startNodeCId c) (endNodeCId c) (startNodeParent c) (endNodeParent c)
       (startNodeId c) (endNodeId c).

Definition set_startNodeParent (s : string) (c : t) : t :=
    mk (manualRoute c) (route c) (startNodeIsChild c) (endNodeIsChild c)
       (startNodeCId c) (endNodeCId c) s (endNodeParent c)
       (startNodeId c) (endNodeId c).

Definition set_endNodeParent (s : string) (c : t) : t :=
    mk (manualRoute c) (route c) (startNodeIsChild c) (endNodeIsChild c)
       (startNodeCId c) (endNodeCId c) (startNodeParent c) s
       (startNodeId c) (endNodeId c).

Definition set_startNodeId (s : string) (c : t) : t :=
    mk (manualRoute c) (route c) (startNodeIsChild c) (endNodeIsChild c)
       (startNodeCId c) (endNodeCId c) (startNodeParent c) (endNodeParent c)
       s (endNodeId c).

Definition set_endNodeId (s : string) (c : t) : t :=
    mk (manualRoute c) (route c) (startNodeIsChild c) (endNodeIsChild c)
       (startNodeCId c) (endNodeCId c) (startNodeParent c) (endNodeParent c)
       (startNodeId c) s.

Definition set_startNodeCId (s : string) (c : t) : t :=
    mk (manualRoute c) (route c) (startNodeIsChild c) (endNodeIsChild c)
       s (endNodeCId c) (startNodeParent c) (endNodeParent c)
       (startNodeId c) (endNodeId c).

Definition set_endNodeCId (s : string) (c : t) : t :=
    mk (manualRoute c) (route c) (startNodeIsChild c) (endNodeIsChild c)
       (startNodeCId c) s (startNodeParent c) (endNodeParent c)
       (startNodeId c) (endNodeId c).
End ConnectorData.

Module NodeData.
Record t := mk { x : Z; y : Z }.
  (** [NodeData::NodeData()]. *)
Definition init : t := mk 0 0.
End NodeData.

Module PinSettings.
Inductive pin_type := pt_input | pt_output.
Inductive pin_state := ps_on | ps_off.
End PinSettings.

Module PinData.
Record t := mk { type : PinSettings.pin_type; state : PinSettings.pin_state }.
  (** [PinData::PinData()]. *)
Definition init : t := mk PinSettings.pt_input PinSettings.ps_off.
Definition set_type (ty : PinSettings.pin_type) (p : t) : t := mk ty (state p).
Definition set_state (st : PinSettings.pin_state) (p : t) : t := mk (type p) st.
End PinData.

Module PinMapping.
Inductive Type_ := SevenSegment | Keypad_4x3 | Keypad_4x4 | Invalid.
  (** [PinMapping]: the kind of device and the ordered pin names
      ([type()], [pins()], [setPins()] of the class). *)
Record t := mk { type : Type_; pins : list string }.
Definition setPins (l : list string) (m : t) : t := mk (type m) l.
End PinMapping.

Module MicroData.
Record t := mk {
    id : string;
    pinMap : gmap string PinData.t;
    variableMap : gmap string string;
    pinMappings : gmap string PinMapping.t
  }.

  (** [MicroData::MicroData()]: every member default-constructed. *)
Definition init : t := mk "" ∅ ∅ ∅.

  (** [MicroData::reset()]: [id = QString(); pinMap.clear();]. *)
Definition reset (m : t) : t := mk "" ∅ (variableMap m) (pinMappings m).

Definition set_id (s : string) (m : t) : t :=
    mk s (pinMap m) (variableMap m) (pinMappings m).
Definition set_pinMap (p : gmap string PinData.t) (m : t) : t :=
    mk (id m) p (variableMap m) (pinMappings m).
Definition set_variableMap (v : gmap string string) (m : t) : t :=
    mk (id m) (pinMap m) v (pinMappings m).
Definition set_pinMappings (p : gmap string PinMapping.t) (m : t) : t :=
    mk (id m) (pinMap m) (variableMap m) p.
End MicroData.

(** ** The document snapshot *)

Section snapshot.
Context `{QtValue}.

Record ItemDocumentData := mkItemDocumentData {
    m_itemDataMap : gmap string ItemData.t;
    m_connectorDataMap : gmap string ConnectorData.t;
    m_nodeDataMap : gmap string NodeData.t;
    m_microData : MicroData.t;
    m_documentType : DocumentType
  }.

  (** [ItemDocumentData::reset()]. *)
Definition reset (d : ItemDocumentData) : ItemDocumentData :=
    {| m_itemDataMap := ∅;
       m_connectorDataMap := ∅;
       m_nodeDataMap := ∅;
       m_microData := MicroData.reset (m_microData d);
       m_documentType := dt_none |}.

  (** [ItemDocumentData::ItemDocumentData(uint documentType)]: the members
      are default-constructed, then [reset()], then the type is stored. *)
Definition newItemDocumentData (documentType : DocumentType) : ItemDocumentData :=
    let d := reset (mkItemDocumentData ∅ ∅ ∅ MicroData.init dt_none) in
    mkItemDocumentData (m_itemDataMap d) (m_connectorDataMap d)
      (m_nodeDataMap d) (m_microData d) documentType.

Definition set_itemDataMap m (d : ItemDocumentData) :=
    mkItemDocumentData m (m_connectorDataMap d) (m_nodeDataMap d)
      (m_microData d) (m_documentType d).
Definition set_connectorDataMap m (d : ItemDocumentData) :=
    mkItemDocumentData (m_itemDataMap d) m (m_nodeDataMap d)
      (m_microData d) (m_documentType d).
Definition set_nodeDataMap m (d : ItemDocumentData) :=
    mkItemDocumentData (m_itemDataMap d) (m_connectorDataMap d) m
      (m_microData d) (m_documentType d).
Definition set_microData m (d : ItemDocumentData) :=
    mkItemDocumentData (m_itemDataMap d) (m_connectorDataMap d)
      (m_nodeDataMap d) m (m_documentType d).
Definition set_documentType ty (d : ItemDocumentData) :=
    mkItemDocumentData (m_itemDataMap d) (m_connectorDataMap d)
      (m_nodeDataMap d) (m_microData d) ty.

  (** [ItemDocumentData::documentTypeString()]. *)
Definition documentTypeString (d : ItemDocumentData) : string :=
    match m_documentType d with
    | dt_circuit => "circuit"
    | dt_flowcode => "flowcode"
    | dt_mechanics => "mechanics"
    | _ => "none"
    end.

  (** [ItemDocumentData::translateContents(int dx, int dy)].  Each loop
      updates every value of one map in place; [dx / 8] is C++ integer
      division, which truncates towards zero.  The additions are the exact
      ones: a call in which an [int] sum leaves the 32-bit range (signed
      overflow in [QPoint::operator+=]) is not described by this definition,
      and the properties of sequences of calls are stated for calls that
      stay within the range. *)
Definition translateContents (dx dy : Z) (d : ItemDocumentData) : ItemDocumentData :=
    let items :=
      (fun it => ItemData.set_pos (ItemData.x it + dx) (ItemData.y it + dx) it)
        <$> m_itemDataMap d in
    let nodes :=
      (fun it => NodeData.mk (NodeData.x it + dx) (NodeData.y it + dy))
        <$> m_nodeDataMap d in
    let connectors :=
      (fun it =>
         ConnectorData.set_route
           ((fun routeIt => QPoint_add routeIt (mkQPoint (dx ÷ 8) (dy ÷ 8)))
              <$> ConnectorData.route it) it)
        <$> m_connectorDataMap d in
    mkItemDocumentData items connectors nodes (m_microData d) (m_documentType d).

End snapshot.

(** ** The live document

    [ItemDocument], [ICNDocument], [Item], [Node] and [Connector] are
    collaborators of this file; only their interface is used. *)

Inductive LogEntry :=
| Debug (msg : string)
| Warning (msg : string)
| Critical (msg : string)
| MessageBox (msg : string).

#[global] Instance LogEntry_eq_dec : EqDecision LogEntry.
Proof. solve_decision. Defined.

Definition is_Critical (e : LogEntry) : bool :=
  match e with Critical _ => true | _ => false end.

Module Item.
Section with_values.
Context `{QtValue}.
    (** Modelled from the spec: the item interface ([type()], [canvas()],
        [move], [itemData()], [finishedCreation()], [show()],
        [setParentItem], [setVisible], [setCanvas]); [cnChildNodes] is
        present for a [CNItem] and maps a child-slot id to a node id. *)
Record t := mk {
      type : string;
      canvas : bool;
      x : Z;
      y : Z;
      cnChildNodes : option (gmap string string);
      itemData : ItemData.t;
      finished : bool;
      visible : bool;
      parentItem : string
    }.

Definition move (nx ny : Z) (i : t) : t :=
      mk (type i) (canvas i) nx ny (cnChildNodes i) (itemData i)
         (finished i) (visible i) (parentItem i).
Definition finishedCreation (i : t) : t :=
      mk (type i) (canvas i) (x i) (y i) (cnChildNodes i) (itemData i)
         true (visible i) (parentItem i).
Definition setVisible (b : bool) (i : t) : t :=
      mk (type i) (canvas i) (x i) (y i) (cnChildNodes i) (itemData i)
         (finished i) b (parentItem i).
Definition show (i : t) : t := setVisible true i.
Definition setParentItem (p : string) (i : t) : t :=
      mk (type i) (canvas i) (x i) (y i) (cnChildNodes i) (itemData i)
         (finished i) (visible i) p.
Definition setCanvas (b : bool) (i : t) : t :=
      mk (type i) b (x i) (y i) (cnChildNodes i) (itemData i)
         (finished i) (visible i) (parentItem i).
    (** [CNItem::childNode(cid)]. *)
Definition childNode (cid : string) (i : t) : option string :=
      m ← cnChildNodes i; m !! cid.
End with_values.
Arguments t {_}.
End Item.

Module Node.
Inductive Role := Plain | Input | Output.
Inductive Kind := ECNode | FPNode.
  (** Modelled from the spec: the node interface ([canvas()],
      [isChildNode()], [move], [nodeData()], [addConnector],
      [addInputConnector], [addOutputConnector]). *)
Record t := mk {
    kind : Kind;
    canvas : bool;
    isChildNode : bool;
    x : Z;
    y : Z;
    visible : bool;
    connectors : list (Role * string)
  }.
Definition move (nx ny : Z) (n : t) : t :=
    mk (kind n) (canvas n) (isChildNode n) nx ny (visible n) (connectors n).
Definition attach (r : Role) (c : string) (n : t) : t :=
    mk (kind n) (canvas n) (isChildNode n) (x n) (y n) (visible n)
       (connectors n ++ [(r, c)]).
Definition hide (n : t) : t :=
    mk (kind n) false (isChildNode n) (x n) (y n) false (connectors n).
Definition nodeData (n : t) : NodeData.t := NodeData.mk (x n) (y n).
End Node.

Module Connector.
Inductive Kind := Electronic | Flow.
  (** Modelled from the spec: the connector interface ([canvas()],
      [startNode()], [endNode()], [connectorData()],
      [restoreFromConnectorData]). *)
Record t := mk {
    kind : Kind;
    canvas : bool;
    startNode : option string;
    endNode : option string;
    connectorData : ConnectorData.t;
    visible : bool
  }.
Definition restoreFromConnectorData (d : ConnectorData.t) (c : t) : t :=
    mk (kind c) (canvas c) (startNode c) (endNode c) d (visible c).
Definition hide (c : t) : t :=
    mk (kind c) false (startNode c) (endNode c) (connectorData c) false.
End Connector.

Inductive Selected := SelItem (id : string) | SelConnector (id : string).

Section live_document.
Context `{QtValue}.

  (** Modelled from the spec: the live document, i.e. the identifier-keyed
      items, nodes and connectors it can list, look up, create and remove,
      its selection, its registered identifiers and, for a flow-code
      document, its microcontroller settings. *)
Record ItemDocument := mkItemDocument {
    doc_type : DocumentType;
    doc_items : gmap string Item.t;
    doc_nodes : gmap string Node.t;
    doc_connectors : gmap string Connector.t;
    doc_selection : list Selected;
    doc_uids : gset string;
    doc_microSettings : option MicroData.t
  }.

Definition set_doc_items m (doc : ItemDocument) :=
    mkItemDocument (doc_type doc) m (doc_nodes doc) (doc_connectors doc)
      (doc_selection doc) (doc_uids doc) (doc_microSettings doc).
Definition set_doc_nodes m (doc : ItemDocument) :=
    mkItemDocument (doc_type doc) (doc_items doc) m (doc_connectors doc)
      (doc_selection doc) (doc_uids doc) (doc_microSettings doc).
Definition set_doc_connectors m (doc : ItemDocument) :=
    mkItemDocument (doc_type doc) (doc_items doc) (doc_nodes doc) m
      (doc_selection doc) (doc_uids doc) (doc_microSettings doc).
Definition set_doc_uids u (doc : ItemDocument) :=
    mkItemDocument (doc_type doc) (doc_items doc) (doc_nodes doc)
      (doc_connectors doc) (doc_selection doc) u (doc_microSettings doc).
Definition set_doc_microSettings m (doc : ItemDocument) :=
    mkItemDocument (doc_type doc) (doc_items doc) (doc_nodes doc)
      (doc_connectors doc) (doc_selection doc) (doc_uids doc) m.
Definition select (s : Selected) (doc : ItemDocument) :=
    mkItemDocument (doc_type doc) (doc_items doc) (doc_nodes doc)
      (doc_connectors doc) (doc_selection doc ++ [s]) (doc_uids doc)
      (doc_microSettings doc).

  (** [dynamic_cast<ICNDocument *>] and [dynamic_cast<FlowCodeDocument *>]. *)
Definition isICNDocument (doc : ItemDocument) : bool :=
    match doc_type doc with
    | dt_circuit | dt_flowcode | dt_pinMapEditor => true
    | _ => false
    end.
Definition isFlowCodeDocument (doc : ItemDocument) : bool :=
    bool_decide (doc_type doc = dt_flowcode).

Definition itemWithID (id : string) (doc : ItemDocument) := doc_items doc !! id.
Definition nodeWithID (id : string) (doc : ItemDocument) := doc_nodes doc !! id.
Definition connectorWithID (id : string) (doc : ItemDocument) :=
    doc_connectors doc !! id.
  (** [ICNDocument::cnItemWithID]: the item, provided it is a [CNItem]. *)
Definition cnItemWithID (id : string) (doc : ItemDocument) : option Item.t :=
    i ← doc_items doc !! id;
    match Item.cnChildNodes i with Some _ => Some i | None => None end.

Definition unregisterUID (id : string) (doc : ItemDocument) :=
    set_doc_uids (doc_uids doc ∖ {[id]}) doc.
Definition registerUID (id : string) (doc : ItemDocument) :=
    set_doc_uids ({[id]} ∪ doc_uids doc) doc.

  (** Removal takes the entity off the document's lists. *)
Definition removeItem (id : string) (doc : ItemDocument) :=
    set_doc_items (delete id (doc_items doc)) doc.
Definition removeNode (id : string) (doc : ItemDocument) :=
    set_doc_nodes (delete id (doc_nodes doc)) doc.
Definition removeConnectorNoArg (id : string) (doc : ItemDocument) :=
    set_doc_connectors (delete id (doc_connectors doc)) doc.

End live_document.

(** Modelled from the spec: [ItemDocument::generateUID(seed)] returns a
    document-unique identifier seeded from [seed], i.e. one that is not yet
    registered with the document (and is a real, non-empty identifier), and
    registers it. *)
Class UIDSource := {
  mint : string -> gset string -> string;
  mint_fresh : forall seed used, mint seed used ∉ used;
  mint_nonempty : forall seed used, mint seed used <> ""
}.

(** The item library ([itemLibrary()->createItem]), the document's validity
    test and the per-item restore callback: interfaces of collaborators. *)
Class ItemLibrary `{QtValue} := {
  createItem : string -> ItemDocument -> string -> option Item.t;
  isValidItem : ItemDocument -> Item.t -> bool;
  restoreFromItemData : ItemData.t -> Item.t -> Item.t
}.

Section remap.
Context `{QtValue} `{UIDSource}.

Definition generateUID (seed : string) (doc : ItemDocument) : string * ItemDocument :=
    let uid := mint seed (doc_uids doc) in (uid, registerUID uid doc).

  (** [if (!replaced.contains(key)) replaced[key] = itemDocument->generateUID(key);
       newMap[replaced[key]] = value;] *)
Definition rekey {V : Type}
      (st : gmap string string * ItemDocument * gmap string V)
      (it : string * V) : gmap string string * ItemDocument * gmap string V :=
    let '(replaced, doc, newMap) := st in
    let '(replaced, doc) :=
      if bool_decide (is_Some (replaced !! it.1)) then (replaced, doc)
      else let '(uid, doc) := generateUID it.1 doc in (<[it.1 := uid]> replaced, doc) in
    let '(newKey, replaced) := Qt.qmap_index "" replaced it.1 in
    (replaced, doc, <[newKey := it.2]> newMap).

  (** [it.value().parentId = replaced[it.value().parentId];] *)
Definition relink_item
      (st : gmap string string * gmap string ItemData.t)
      (it : string * ItemData.t) : gmap string string * gmap string ItemData.t :=
    let '(replaced, newItemDataMap) := st in
    let '(p, replaced) := Qt.qmap_index "" replaced (ItemData.parentId it.2) in
    (replaced, <[it.1 := ItemData.set_parentId p it.2]> newItemDataMap).

Definition relink_connector
      (st : gmap string string * gmap string ConnectorData.t)
      (it : string * ConnectorData.t)
      : gmap string string * gmap string ConnectorData.t :=
    let '(replaced, newConnectorDataMap) := st in
    let v := it.2 in
    let '(sp, replaced) := Qt.qmap_index "" replaced (ConnectorData.startNodeParent v) in
    let v := ConnectorData.set_startNodeParent sp v in
    let '(ep, replaced) := Qt.qmap_index "" replaced (ConnectorData.endNodeParent v) in
    let v := ConnectorData.set_endNodeParent ep v in
    let '(si, replaced) := Qt.qmap_index "" replaced (ConnectorData.startNodeId v) in
    let v := ConnectorData.set_startNodeId si v in
    let '(ei, replaced) := Qt.qmap_index "" replaced (ConnectorData.endNodeId v) in
    let v := ConnectorData.set_endNodeId ei v in
    (replaced, <[it.1 := v]> newConnectorDataMap).

  (** The first half of [generateUniqueIDs]: the substitution table and the
      three re-keyed maps. *)
Definition replace_ids (doc : ItemDocument) (d : ItemDocumentData) :=
    let replaced : gmap string string := <["" := ""]> (<["" := ""]> ∅) in
    let '(replaced, doc, newItemDataMap) :=
      foldl rekey (replaced, doc, ∅) (Qt.qmap_entries (m_itemDataMap d)) in
    let '(replaced, doc, newNodeDataMap) :=
      foldl rekey (replaced, doc, ∅) (Qt.qmap_entries (m_nodeDataMap d)) in
    let '(replaced, doc, newConnectorDataMap) :=
      foldl rekey (replaced, doc, ∅) (Qt.qmap_entries (m_connectorDataMap d)) in
    (replaced, doc, newItemDataMap, newNodeDataMap, newConnectorDataMap).

  (** [ItemDocumentData::generateUniqueIDs(ItemDocument *itemDocument)];
      a null document pointer is [None]. *)
Definition generateUniqueIDs (itemDocument : option ItemDocument) (d : ItemDocumentData)
    : ItemDocumentData * option ItemDocument :=
    match itemDocument with
    | None => (d, None)
    | Some doc =>
        let '(replaced, doc, newItemDataMap, newNodeDataMap, newConnectorDataMap) :=
          replace_ids doc d in
        let '(replaced, newItemDataMap) :=
          foldl relink_item (replaced, newItemDataMap)
                (Qt.qmap_entries newItemDataMap) in
        let '(replaced, newConnectorDataMap) :=
          foldl relink_connector (replaced, newConnectorDataMap)
                (Qt.qmap_entries newConnectorDataMap) in
        (mkItemDocumentData newItemDataMap newConnectorDataMap newNodeDataMap
           (m_microData d) (m_documentType d),
         Some doc)
    end.

  (** The substitution table as it stands when the re-keying loops are done;
      a lookup of an identifier that is not in it yields the empty string. *)
Definition replaced_table (doc : ItemDocument) (d : ItemDocumentData)
    : gmap string string := (replace_ids doc d).1.1.1.1.

Definition replaced_at (doc : ItemDocument) (d : ItemDocumentData) (k : string) : string :=
    default "" (replaced_table doc d !! k).

End remap.

(** ** Logging

    [qCDebug], [qCWarning], [qCCritical] and [KMessageBox::error] append to
    a log; an operation returns its result together with what it logged. *)
Definition Logged (A : Type) : Type := A * list LogEntry.

Definition foldl_logged {A B : Type} (f : A -> B -> Logged A) (a : A) (l : list B)
  : Logged A :=
  foldl (fun acc b => let '(a', lg) := f acc.1 b in (a', acc.2 ++ lg)) (a, []) l.

Definition then_logged {A B : Type} (x : Logged A) (f : A -> Logged B) : Logged B :=
  let '(b, lg) := f x.1 in (b, x.2 ++ lg).

Notation "'let*' x := c 'in' k" := (then_logged c (fun x => k))
  (at level 10, x name, c at level 100, k at level 200).

(** A call that may leave defined behaviour (an iterator stepped past the
    end of its list): [None] when it does, the result and the log otherwise. *)
Definition Partial (A : Type) : Type := option (Logged A).

(** A loop whose body is such a call: the first step without a result ends
    the run. *)
Definition foldl_partial {A B : Type} (f : A -> B -> Partial A) (a : A) (l : list B)
  : Partial A :=
  foldl (fun acc b =>
           match acc with
           | Some (a, lg) =>
               match f a b with
               | Some (a', lg') => Some (a', lg ++ lg')
               | None => None
               end
           | None => None
           end)
        (Some (a, [])) l.

(** ** Capture, merge and restore *)

Section merge.
Context `{QtValue} `{ItemLibrary}.

  (** [PicItem::typeString()] is declared in [picitem.h]. *)
Variable PicItem_typeString : string.

  (** *** [saveDocumentState] and the [add...] helpers *)

Definition addItemData (itemData : ItemData.t) (id : string) (d : ItemDocumentData)
    : Logged ItemDocumentData :=
    (set_itemDataMap (<[id := itemData]> (m_itemDataMap d)) d,
     if bool_decide (is_Some (m_itemDataMap d !! id))
     then [Warning ("Overwriting item: " +:+ id)] else []).

Definition addConnectorData (connectorData : ConnectorData.t) (id : string)
      (d : ItemDocumentData) : Logged ItemDocumentData :=
    (set_connectorDataMap (<[id := connectorData]> (m_connectorDataMap d)) d,
     if bool_decide (is_Some (m_connectorDataMap d !! id))
     then [Warning ("Overwriting connector: " +:+ id)] else []).

Definition addNodeData (nodeData : NodeData.t) (id : string) (d : ItemDocumentData)
    : Logged ItemDocumentData :=
    (set_nodeDataMap (<[id := nodeData]> (m_nodeDataMap d)) d,
     if bool_decide (is_Some (m_nodeDataMap d !! id))
     then [Warning ("Overwriting node: " +:+ id)] else []).

Definition addItems (itemList : list (string * Item.t)) (d : ItemDocumentData)
    : Logged ItemDocumentData :=
    foldl_logged
      (fun d it =>
         if Item.canvas it.2 && bool_decide (Item.type it.2 <> PicItem_typeString)
         then addItemData (Item.itemData it.2) it.1 d
         else (d, []))
      d itemList.

Definition addConnectors (connectorList : list (string * Connector.t))
      (d : ItemDocumentData) : Logged ItemDocumentData :=
    foldl_logged
      (fun d it =>
         if Connector.canvas it.2 then
           match Connector.startNode it.2, Connector.endNode it.2 with
           | Some _, Some _ => addConnectorData (Connector.connectorData it.2) it.1 d
           | _, _ => (d, [Debug ("unresolved connector: " +:+ it.1)])
           end
         else (d, []))
      d connectorList.

Definition addNodes (nodeList : list (string * Node.t)) (d : ItemDocumentData)
    : Logged ItemDocumentData :=
    foldl_logged
      (fun d it =>
         if Node.canvas it.2 && negb (Node.isChildNode it.2)
         then addNodeData (Node.nodeData it.2) it.1 d
         else (d, []))
      d nodeList.

Definition setMicroData (data : MicroData.t) (d : ItemDocumentData) : ItemDocumentData :=
    set_microData data d.

  (** [ItemDocumentData::saveDocumentState(ItemDocument *itemDocument)]. *)
Definition saveDocumentState (itemDocument : option ItemDocument)
      (d : ItemDocumentData) : Logged ItemDocumentData :=
    match itemDocument with
    | None => (d, [])
    | Some doc =>
        let* d := (reset d, []) in
        let* d := addItems (Qt.qmap_entries (doc_items doc)) d in
        let* d := (if isICNDocument doc then
               let* d := addConnectors (Qt.qmap_entries (doc_connectors doc)) d in
               let* d := addNodes (Qt.qmap_entries (doc_nodes doc)) d in
               (if isFlowCodeDocument doc then
                  match doc_microSettings doc with
                  | Some micro => (setMicroData micro d, [])
                  | None => (d, [])
                  end
                else (d, []))
             else (d, [])) in
        (set_documentType (doc_type doc) d, [])
    end.

  (** *** [mergeWithDocument] *)

  (** First node loop: create the junctions the document lacks. *)
Definition merge_create_node (doc : ItemDocument) (it : string * NodeData.t)
    : ItemDocument :=
    match nodeWithID it.1 doc with
    | Some _ => doc
    | None =>
        let junction k :=
          registerUID it.1
            (set_doc_nodes
               (<[it.1 := Node.mk k true false (NodeData.x it.2) (NodeData.y it.2)
                            true []]> (doc_nodes doc)) doc) in
        match doc_type doc with
        | dt_circuit => junction Node.ECNode
        | dt_flowcode => junction Node.FPNode
        | _ => doc
        end
    end.

  (** Second node loop: [node->move(x, y)]. *)
Definition merge_move_node (doc : ItemDocument) (it : string * NodeData.t)
    : ItemDocument :=
    match nodeWithID it.1 doc with
    | Some node =>
        set_doc_nodes
          (<[it.1 := Node.move (NodeData.x it.2) (NodeData.y it.2) node]> (doc_nodes doc))
          doc
    | None => doc
    end.

  (** First item loop: construct the items the document lacks. *)
Definition merge_create_item (doc : ItemDocument) (it : string * ItemData.t)
    : Logged ItemDocument :=
    if bool_decide (ItemData.type it.2 <> "")
       && bool_decide (itemWithID it.1 doc = None)
    then
      match createItem (ItemData.type it.2) doc it.1 with
      | None => (doc, [])
      | Some item =>
          let doc := registerUID it.1 (set_doc_items (<[it.1 := item]> (doc_items doc)) doc) in
          if negb (isValidItem doc item) then
            (removeItem it.1 doc,
             [Warning ("Attempted to create invalid item with id: " +:+ it.1)])
          else
            (set_doc_items
               (<[it.1 := Item.move (ItemData.x it.2) (ItemData.y it.2) item]>
                  (doc_items doc)) doc, [])
      end
    else (doc, []).

  (** Second item loop: restore, finish, select, show. *)
Definition merge_restore_item (selectNew : bool) (doc : ItemDocument)
      (it : string * ItemData.t) : ItemDocument :=
    match itemWithID it.1 doc with
    | None => doc
    | Some item =>
        let item := Item.finishedCreation (restoreFromItemData it.2 item) in
        let doc := set_doc_items (<[it.1 := item]> (doc_items doc)) doc in
        let doc := if selectNew then select (SelItem it.1) doc else doc in
        match itemWithID it.1 doc with
        | Some item => set_doc_items (<[it.1 := Item.show item]> (doc_items doc)) doc
        | None => doc
        end
    end.

  (** Endpoint resolution: a child reference asks the parent item for its
      child node, a plain reference asks the document. *)
Definition resolve_endpoint (doc : ItemDocument) (isChild : bool)
      (parent cid id : string) : Logged (option string) :=
    if isChild then
      match cnItemWithID parent doc with
      | None => (None, [Critical ("Unable to find node parent with id: " +:+ parent)])
      | Some item => (Item.childNode cid item, [])
      end
    else (_ ← nodeWithID id doc; Some id, []).

  (** First connector loop. *)
Definition merge_create_connector (doc : ItemDocument)
      (it : string * ConnectorData.t) : Logged ItemDocument :=
    match connectorWithID it.1 doc with
    | Some _ => (doc, [])
    | None =>
        let id := it.1 in
        let* startNode :=
          resolve_endpoint doc (ConnectorData.startNodeIsChild it.2)
            (ConnectorData.startNodeParent it.2) (ConnectorData.startNodeCId it.2)
            (ConnectorData.startNodeId it.2) in
        let* endNode := resolve_endpoint doc (ConnectorData.endNodeIsChild it.2)
            (ConnectorData.endNodeParent it.2) (ConnectorData.endNodeCId it.2)
            (ConnectorData.endNodeId it.2) in
        match startNode, endNode with
        | Some s, Some e =>
            let lg :=
              match connectorWithID id doc with
              | Some _ => [Warning ("Unregistering connector with ID: " +:+ id)]
              | None => []
              end in
            let doc := unregisterUID id doc in
            let electronic :=
              bool_decide (doc_type doc = dt_circuit)
              || bool_decide (doc_type doc = dt_pinMapEditor) in
            let connector :=
              Connector.mk (if electronic then Connector.Electronic else Connector.Flow)
                true (Some s) (Some e) ConnectorData.init true in
            let doc :=
              registerUID id
                (set_doc_connectors (<[id := connector]> (doc_connectors doc)) doc) in
            let sRole := if electronic then Node.Plain else Node.Output in
            let eRole := if electronic then Node.Plain else Node.Input in
            let doc := set_doc_nodes (alter (Node.attach sRole id) s (doc_nodes doc)) doc in
            let doc := set_doc_nodes (alter (Node.attach eRole id) e (doc_nodes doc)) doc in
            (doc, lg)
        | _, _ =>
            (doc, [Critical "End and start nodes for the connector do not both exist"])
        end
    end.

  (** Second connector loop. *)
Definition merge_restore_connector (selectNew : bool) (doc : ItemDocument)
      (it : string * ConnectorData.t) : ItemDocument :=
    match connectorWithID it.1 doc with
    | Some connector =>
        let doc :=
          set_doc_connectors
            (<[it.1 := Connector.restoreFromConnectorData it.2 connector]>
               (doc_connectors doc)) doc in
        if selectNew then select (SelConnector it.1) doc else doc
    | None => doc
    end.

Definition merge_nodes (d : ItemDocumentData) (doc : ItemDocument) : ItemDocument :=
    if isICNDocument doc then
      let doc := foldl merge_create_node doc (Qt.qmap_entries (m_nodeDataMap d)) in
      foldl merge_move_node doc (Qt.qmap_entries (m_nodeDataMap d))
    else doc.

Definition merge_items (selectNew : bool) (d : ItemDocumentData) (doc : ItemDocument)
    : Logged ItemDocument :=
    let* doc := foldl_logged merge_create_item doc (Qt.qmap_entries (m_itemDataMap d)) in
    (foldl (merge_restore_item selectNew) doc (Qt.qmap_entries (m_itemDataMap d)), []).

Definition merge_connectors (selectNew : bool) (d : ItemDocumentData)
      (doc : ItemDocument) : Logged ItemDocument :=
    if isICNDocument doc then
      let* doc := foldl_logged merge_create_connector doc
              (Qt.qmap_entries (m_connectorDataMap d)) in
      (foldl (merge_restore_connector selectNew) doc
         (Qt.qmap_entries (m_connectorDataMap d)), [])
    else (doc, []).

  (** [ItemDocumentData::mergeWithDocument(ItemDocument *, bool selectNew)].
      The closing [updateContainedVisibility()] pass over flow containers
      only redraws and leaves the modelled state alone. *)
Definition mergeWithDocument (itemDocument : option ItemDocument) (selectNew : bool)
      (d : ItemDocumentData) : Logged (option ItemDocument) :=
    match itemDocument with
    | None => (None, [])
    | Some doc =>
        let* doc := (merge_nodes d doc, []) in
        let* doc := merge_items selectNew d doc in
        let* doc := merge_connectors selectNew d doc in
        (Some doc, [])
    end.

  (** *** [restoreDocument] *)

  (** [list.removeAll(lookup(key))] for every key of a snapshot map, where
      [present] says whether the lookup finds something. *)
Definition remove_known {V : Type} (present : string -> bool)
      (l : list string) (keys : list (string * V)) : list string :=
    foldl (fun l it =>
             if present it.1 then filter (fun id => id <> it.1) l else l)
          l keys.

Definition prune_items (d : ItemDocumentData) (doc : ItemDocument) : ItemDocument :=
    let removeItems :=
      remove_known (fun k => bool_decide (is_Some (itemWithID k doc)))
        (Qt.qmap_keys (doc_items doc)) (Qt.qmap_entries (m_itemDataMap d)) in
    foldl (fun doc id =>
             match doc_items doc !! id with
             | Some item =>
                 if Item.canvas item && bool_decide (Item.type item <> PicItem_typeString)
                 then removeItem id doc else doc
             | None => doc
             end)
          doc removeItems.

Definition prune_nodes (d : ItemDocumentData) (doc : ItemDocument) : ItemDocument :=
    let removeNodes :=
      remove_known (fun k => bool_decide (is_Some (nodeWithID k doc)))
        (Qt.qmap_keys (doc_nodes doc)) (Qt.qmap_entries (m_nodeDataMap d)) in
    foldl (fun doc id =>
             match doc_nodes doc !! id with
             | Some node =>
                 if Node.canvas node && negb (Node.isChildNode node)
                 then removeNode id doc else doc
             | None => doc
             end)
          doc removeNodes.

Definition prune_connectors (d : ItemDocumentData) (doc : ItemDocument) : ItemDocument :=
    let removeConnectors :=
      remove_known (fun k => bool_decide (is_Some (connectorWithID k doc)))
        (Qt.qmap_keys (doc_connectors doc)) (Qt.qmap_entries (m_connectorDataMap d)) in
    foldl (fun doc id =>
             match doc_connectors doc !! id with
             | Some connector =>
                 if Connector.canvas connector then removeConnectorNoArg id doc else doc
             | None => doc
             end)
          doc removeConnectors.

  (** The opening of [restoreDocument]: a flow-code document takes over the
      snapshot's micro record when that names a microcontroller. *)
Definition restoreMicro (d : ItemDocumentData) (doc : ItemDocument) : ItemDocument :=
    if isFlowCodeDocument doc && bool_decide (MicroData.id (m_microData d) <> "")
    then set_doc_microSettings (Some (m_microData d)) doc
    else doc.

  (** [ItemDocumentData::restoreDocument(ItemDocument *itemDocument)]. *)
Definition restoreDocument (itemDocument : option ItemDocument) (d : ItemDocumentData)
      : Logged (option ItemDocument) :=
    match itemDocument with
    | None => (None, [])
    | Some doc =>
        let doc := restoreMicro d doc in
        let* merged := mergeWithDocument (Some doc) false d in
        match merged with
        | None => (None, [])
        | Some doc =>
            let doc := prune_items d doc in
            let doc :=
              if isICNDocument doc
              then prune_connectors d (prune_nodes d doc)
              else doc in
            (Some doc, [])
        end
    end.

End merge.

(** ** The XML tree

    [QDomNode] / [QDomElement] as the source uses them: an element has a tag
    name, attributes and child nodes; any other node (text, comment) is not
    an element, so [toElement()] on it is null. *)
#[local] Set Warnings "-register-all".
Inductive QDomNode :=
| Element (tagName : string) (attributes : gmap string string)
          (childNodes : list QDomNode)
| CharacterData (data : string).

Record QDomDocument := mkQDomDocument {
  doctype : string;
  documentElement : QDomNode
}.

(** [QDomDocument::toString()] and [QDomDocument::setContent(xml, &error)]
    belong to Qt; [setContent] yields the document or the error message. *)
Class QDomText := {
  toString : QDomDocument -> string;
  setContent : string -> QDomDocument + string
}.

Definition createElement (tagName : string) : QDomNode := Element tagName ∅ [].

Definition setAttribute (name value : string) (e : QDomNode) : QDomNode :=
  match e with
  | Element t a c => Element t (<[name := value]> a) c
  | CharacterData _ => e
  end.

Definition appendChild (child : QDomNode) (e : QDomNode) : QDomNode :=
  match e with
  | Element t a c => Element t a (c ++ [child])
  | CharacterData _ => e
  end.

(** [element.attribute(name, QString())] followed by an [isNull()] test. *)
Definition attribute_opt (name : string) (e : QDomNode) : option string :=
  match e with
  | Element _ a _ => a !! name
  | CharacterData _ => None
  end.

(** [element.attribute(name, defValue)]. *)
Definition attribute (name defValue : string) (e : QDomNode) : string :=
  default defValue (attribute_opt name e).

Definition hasAttribute (name : string) (e : QDomNode) : bool :=
  bool_decide (is_Some (attribute_opt name e)).

Definition children (e : QDomNode) : list QDomNode :=
  match e with
  | Element _ _ c => c
  | CharacterData _ => []
  end.

(** [m[k].field = ...]: [operator[]] default-constructs a missing entry. *)
Definition qmap_at {V : Type} (dflt : V) (f : V -> V) (k : string) (m : gmap string V)
  : gmap string V :=
  <[k := f (default dflt (m !! k))]> m.

Definition bool_number (b : bool) : string := Qt.number (if b then 1 else 0).
Definition int_to_bool (z : Z) : bool := bool_decide (z <> 0).

(** ** Writing the snapshot as XML *)

Section to_xml.
Context `{QtValue} `{QDomText}.

  (** A [<data>] child of an item element. *)
Definition dataElement (id type value : string) : QDomNode :=
    setAttribute "value" value
      (setAttribute "type" type (setAttribute "id" id (createElement "data"))).

Definition append_entries {V : Type} (mk_elem : string -> V -> QDomNode)
      (m : gmap string V) (node : QDomNode) : QDomNode :=
    foldl (fun node it => appendChild (mk_elem it.1 it.2) node) node (Qt.qmap_entries m).

  (** [ItemDocumentData::itemDataToElement]. *)
Definition itemDataToElement (itemData : ItemData.t) : QDomNode :=
    let node := createElement "item" in
    let node := setAttribute "type" (ItemData.type itemData) node in
    let node := setAttribute "x" (Qt.number (ItemData.x itemData)) node in
    let node := setAttribute "y" (Qt.number (ItemData.y itemData)) node in
    let node :=
      if bool_decide (ItemData.z itemData <> -1)
      then setAttribute "z" (Qt.number (ItemData.z itemData)) node else node in
    let node :=
      if ItemData.setSize itemData then
        let size := ItemData.size itemData in
        setAttribute "height" (Qt.number (rect_height size))
          (setAttribute "width" (Qt.number (rect_width size))
             (setAttribute "offset-y" (Qt.number (rect_y size))
                (setAttribute "offset-x" (Qt.number (rect_x size)) node)))
      else node in
    let node :=
      if bool_decide (0 <= ItemData.orientation itemData)
      then setAttribute "orientation" (Qt.number (ItemData.orientation itemData)) node
      else setAttribute "flip" (bool_number (ItemData.flipped itemData))
             (setAttribute "angle" (Qt.number (ItemData.angleDegrees itemData)) node) in
    let node :=
      if bool_decide (ItemData.parentId itemData <> "")
      then setAttribute "parent" (ItemData.parentId itemData) node else node in
    let node :=
      append_entries (fun k v => dataElement k "string" v)
        (ItemData.dataString itemData) node in
    let node :=
      append_entries (fun k v => dataElement k "number" (number_double v))
        (ItemData.dataNumber itemData) node in
    let node :=
      append_entries (fun k v => dataElement k "color" (color_name v))
        (ItemData.dataColor itemData) node in
    let node :=
      append_entries (fun k v => dataElement k "raw" (toAsciiHex v))
        (ItemData.dataRaw itemData) node in
    let node :=
      append_entries (fun k v => dataElement k "bool" (bool_number v))
        (ItemData.dataBool itemData) node in
    let node :=
      append_entries
        (fun k v => setAttribute "state" (bool_number v)
                      (setAttribute "id" k (createElement "button")))
        (ItemData.buttonMap itemData) node in
    let node :=
      append_entries
        (fun k v => setAttribute "value" (Qt.number v)
                      (setAttribute "id" k (createElement "slider")))
        (ItemData.sliderMap itemData) node in
    node.

  (** [ItemDocumentData::nodeDataToElement]. *)
Definition nodeDataToElement (nodeData : NodeData.t) : QDomNode :=
    setAttribute "y" (Qt.number (NodeData.y nodeData))
      (setAttribute "x" (Qt.number (NodeData.x nodeData)) (createElement "node")).

Definition routeString (route : list QPoint) : string :=
    foldl (fun route it =>
             (route +:+ (Qt.number (px it) +:+ ",")) +:+ (Qt.number (py it) +:+ ","))
          "" route.

  (** [ItemDocumentData::connectorDataToElement]. *)
Definition connectorDataToElement (connectorData : ConnectorData.t) : QDomNode :=
    let node := createElement "connector" in
    let node :=
      setAttribute "manual-route" (bool_number (ConnectorData.manualRoute connectorData))
        node in
    let node := setAttribute "route" (routeString (ConnectorData.route connectorData)) node in
    let node :=
      if ConnectorData.startNodeIsChild connectorData then
        setAttribute "start-node-parent" (ConnectorData.startNodeParent connectorData)
          (setAttribute "start-node-cid" (ConnectorData.startNodeCId connectorData)
             (setAttribute "start-node-is-child" (Qt.number 1) node))
      else
        setAttribute "start-node-id" (ConnectorData.startNodeId connectorData)
          (setAttribute "start-node-is-child" (Qt.number 0) node) in
    let node :=
      if ConnectorData.endNodeIsChild connectorData then
        setAttribute "end-node-parent" (ConnectorData.endNodeParent connectorData)
          (setAttribute "end-node-cid" (ConnectorData.endNodeCId connectorData)
             (setAttribute "end-node-is-child" (Qt.number 1) node))
      else
        setAttribute "end-node-id" (ConnectorData.endNodeId connectorData)
          (setAttribute "end-node-is-child" (Qt.number 0) node) in
    node.

Definition pinMappingTypeString (ty : PinMapping.Type_) : string :=
    match ty with
    | PinMapping.SevenSegment => "sevensegment"
    | PinMapping.Keypad_4x3 => "keypad_4x3"
    | PinMapping.Keypad_4x4 => "keypad_4x4"
    | PinMapping.Invalid => ""
    end.

  (** [ItemDocumentData::microDataToElement]. *)
Definition microDataToElement (d : ItemDocumentData) : QDomNode :=
    let micro := m_microData d in
    let node := setAttribute "id" (MicroData.id micro) (createElement "micro") in
    let node :=
      append_entries
        (fun k v =>
           setAttribute "map" (Qt.join " " (PinMapping.pins v))
             (setAttribute "type" (pinMappingTypeString (PinMapping.type v))
                (setAttribute "id" k (createElement "pinmap"))))
        (MicroData.pinMappings micro) node in
    let node :=
      append_entries
        (fun k v =>
           setAttribute "state"
             (match PinData.state v with PinSettings.ps_off => "off" | _ => "on" end)
             (setAttribute "type"
                (match PinData.type v with
                 | PinSettings.pt_input => "input" | _ => "output" end)
                (setAttribute "id" k (createElement "pin"))))
        (MicroData.pinMap micro) node in
    let node :=
      append_entries
        (fun k v =>
           setAttribute "value" v (setAttribute "name" k (createElement "variable")))
        (MicroData.variableMap micro) node in
    node.

  (** The tree [toXML] builds before it is turned into text. *)
Definition toDomDocument (d : ItemDocumentData) : QDomDocument :=
    let root := setAttribute "type" (documentTypeString d) (createElement "document") in
    let root :=
      append_entries (fun k v => setAttribute "id" k (itemDataToElement v))
        (m_itemDataMap d) root in
    let root :=
      append_entries (fun k v => setAttribute "id" k (connectorDataToElement v))
        (m_connectorDataMap d) root in
    let root :=
      append_entries (fun k v => setAttribute "id" k (nodeDataToElement v))
        (m_nodeDataMap d) root in
    let root :=
      if bool_decide (m_documentType d = dt_flowcode)
      then appendChild (microDataToElement d) root else root in
    mkQDomDocument "KTechlab" root.

  (** [ItemDocumentData::toXML()]. *)
Definition toXML (d : ItemDocumentData) : string := toString (toDomDocument d).

End to_xml.

(** ** Reading the snapshot back from XML *)

Section from_xml.
Context `{QtValue} `{QDomText}.

Definition tagName_of (e : QDomNode) : string :=
    match e with
    | Element t _ _ => t
    | CharacterData _ => ""
    end.

Definition isElement (e : QDomNode) : bool :=
    match e with
    | Element _ _ _ => true
    | CharacterData _ => false
    end.

  (** The attribute part of [elementToItemData]: the record built before the
      children are visited. *)
Definition itemDataOfAttributes (element : QDomNode) : ItemData.t :=
    let hasSize := hasAttribute "width" element && hasAttribute "height" element in
    {| ItemData.type := attribute "type" "" element;
       ItemData.x := Qt.toInt (attribute "x" "120" element);
       ItemData.y := Qt.toInt (attribute "y" "120" element);
       ItemData.z := Qt.toInt (attribute "z" "-1" element);
       ItemData.size :=
         if hasSize then
           mkQRect (Qt.toInt (attribute "offset-x" "0" element))
                   (Qt.toInt (attribute "offset-y" "0" element))
                   (Qt.toInt (attribute "width" "120" element))
                   (Qt.toInt (attribute "height" "120" element))
         else ItemData.size ItemData.init;
       ItemData.setSize := hasSize;
       ItemData.orientation := Qt.toInt (attribute "orientation" "-1" element);
       ItemData.angleDegrees := Qt.toInt (attribute "angle" "0" element);
       ItemData.flipped := int_to_bool (Qt.toInt (attribute "flip" "0" element));
       ItemData.buttonMap := ∅;
       ItemData.sliderMap := ∅;
       ItemData.parentId := attribute "parent" "" element;
       ItemData.dataBool := ∅;
       ItemData.dataNumber := ∅;
       ItemData.dataColor := ∅;
       ItemData.dataString := ∅;
       ItemData.dataRaw := ∅ |}.

  (** The [data] branch of the child loop of [elementToItemData]. *)
Definition readData (id : string) (childElement : QDomNode)
      (items : gmap string ItemData.t) : Logged (gmap string ItemData.t) :=
    match attribute_opt "id" childElement with
    | None => (items, [])
    | Some dataId =>
        let dataType := attribute "type" "" childElement in
        let value := attribute "value" "" childElement in
        let at_item f := qmap_at ItemData.init f id items in
        if bool_decide (dataType = "string") || bool_decide (dataType = "multiline") then
          (at_item (fun it =>
             ItemData.set_dataString (<[dataId := value]> (ItemData.dataString it)) it), [])
        else if bool_decide (dataType = "number") then
          (at_item (fun it =>
             ItemData.set_dataNumber (<[dataId := toDouble value]> (ItemData.dataNumber it)) it),
           [])
        else if bool_decide (dataType = "color") then
          (at_item (fun it =>
             ItemData.set_dataColor (<[dataId := color_named value]> (ItemData.dataColor it)) it),
           [])
        else if bool_decide (dataType = "raw") then
          (at_item (fun it =>
             ItemData.set_dataRaw (<[dataId := toQBitArray value]> (ItemData.dataRaw it)) it),
           [])
        else if bool_decide (dataType = "bool") then
          (at_item (fun it =>
             ItemData.set_dataBool
               (<[dataId := int_to_bool (Qt.toInt value)]> (ItemData.dataBool it)) it), [])
        else
          (items, [Critical ("Unknown data type of " +:+ dataType +:+ " with id " +:+ dataId)])
    end.

  (** The body of the child loop of [elementToItemData], for the item [id];
      [elementToItemData] is the function itself, called for a nested
      [item] element of the legacy format. *)
Definition itemChild
      (elementToItemData : QDomNode -> ItemDocumentData -> Logged ItemDocumentData)
      (id : string) (d : ItemDocumentData) (childElement : QDomNode)
    : Logged ItemDocumentData :=
    match childElement with
    | CharacterData _ => (d, [])
    | Element tagName cattrs _ =>
        if bool_decide (tagName = "item") then
          let* d := elementToItemData childElement d in
          (match cattrs !! "id" with
           | Some childId =>
               set_itemDataMap
                 (qmap_at ItemData.init (ItemData.set_parentId id) childId
                    (m_itemDataMap d)) d
           | None => d
           end, [])
        else if bool_decide (tagName = "data") then
          let* items := readData id childElement (m_itemDataMap d) in
          (set_itemDataMap items d, [])
        else if bool_decide (tagName = "button") then
          match cattrs !! "id" with
          | Some buttonId =>
              (set_itemDataMap
                 (qmap_at ItemData.init
                    (fun it =>
                       ItemData.set_buttonMap
                         (<[buttonId :=
                              int_to_bool (Qt.toInt (attribute "state" "0" childElement))]>
                            (ItemData.buttonMap it)) it)
                    id (m_itemDataMap d)) d, [])
          | None => (d, [])
          end
        else if bool_decide (tagName = "slider") then
          match cattrs !! "id" with
          | Some sliderId =>
              (set_itemDataMap
                 (qmap_at ItemData.init
                    (fun it =>
                       ItemData.set_sliderMap
                         (<[sliderId := Qt.toInt (attribute "value" "0" childElement)]>
                            (ItemData.sliderMap it)) it)
                    id (m_itemDataMap d)) d, [])
          | None => (d, [])
          end
        else if bool_decide (tagName = "child-node") then (d, [])
        else (d, [Critical ("Unrecognised element tag name: " +:+ tagName)])
    end.

  (** [ItemDocumentData::elementToItemData]; the recursion is the legacy
      format's nested [item] elements. *)
Fixpoint elementToItemData (element : QDomNode) (d : ItemDocumentData) {struct element}
    : Logged ItemDocumentData :=
    match element with
    | CharacterData _ => (d, [Critical "Could not find id in element"])
    | Element _ attrs nodes =>
        match attrs !! "id" with
        | None => (d, [Critical "Could not find id in element"])
        | Some id =>
            let d := set_itemDataMap (<[id := itemDataOfAttributes element]> (m_itemDataMap d)) d in
            foldl_logged (itemChild elementToItemData id) d nodes
        end
    end.

  (** [ItemDocumentData::elementToNodeData]. *)
Definition elementToNodeData (element : QDomNode) (d : ItemDocumentData)
    : Logged ItemDocumentData :=
    match attribute_opt "id" element with
    | None => (d, [Critical "Could not find id in element"])
    | Some id =>
        let nodeData :=
          NodeData.mk (Qt.toInt (attribute "x" "120" element))
                      (Qt.toInt (attribute "y" "120" element)) in
        (set_nodeDataMap (<[id := nodeData]> (m_nodeDataMap d)) d, [])
    end.

  (** The route loop of [elementToConnectorData],
      [for (it = points.begin(); it != end; ++it) { x; it++; if (it != end) { y; append } }]:
      the coordinates are taken two at a time.  When a single one is left,
      [it++] reaches [end], nothing is appended, and the [++it] of the loop
      header moves the iterator past [end]: the loop test [it != end] holds
      again and the next [*it] reads outside the list, which is undefined
      behaviour ([None]). *)
Fixpoint routeOfPoints (points : list string) : option (list QPoint) :=
    match points with
    | [] => Some []
    | [_] => None
    | sx :: sy :: rest =>
        cons (mkQPoint (Qt.toInt sx) (Qt.toInt sy)) <$> routeOfPoints rest
    end.

  (** [qCDebug(KTL_LOG) << "points=" << points]: the list as [QDebug] prints
      a [QStringList], every string between double quotes (characters that
      [QDebug] would escape are left as they are). *)
Definition pointsMessage (points : list string) : string :=
    let quote := String (ascii_of_nat 34) "" in
    "points= (" +:+ Qt.join ", " ((fun s => quote +:+ s +:+ quote) <$> points) +:+ ")".

  (** [ItemDocumentData::elementToConnectorData]. *)
Definition elementToConnectorData (element : QDomNode) (d : ItemDocumentData)
    : Partial ItemDocumentData :=
    match attribute_opt "id" element with
    | None => Some (d, [Critical "Could not find id in element"])
    | Some id =>
        let route := attribute "route" "" element in
        let points := if bool_decide (route = "") then [] else Qt.split "," route in
        match routeOfPoints points with
        | None => None
        | Some routePoints =>
            let startNodeIsChild :=
              int_to_bool (Qt.toInt (attribute "start-node-is-child" "0" element)) in
            let endNodeIsChild :=
              int_to_bool (Qt.toInt (attribute "end-node-is-child" "0" element)) in
            let connectorData :=
              {| ConnectorData.manualRoute :=
                   bool_decide (attribute "manual-route" "0" element = "1");
                 ConnectorData.route := routePoints;
                 ConnectorData.startNodeIsChild := startNodeIsChild;
                 ConnectorData.endNodeIsChild := endNodeIsChild;
                 ConnectorData.startNodeCId :=
                   if startNodeIsChild then attribute "start-node-cid" "" element else "";
                 ConnectorData.endNodeCId :=
                   if endNodeIsChild then attribute "end-node-cid" "" element else "";
                 ConnectorData.startNodeParent :=
                   if startNodeIsChild then attribute "start-node-parent" "" element
                   else "";
                 ConnectorData.endNodeParent :=
                   if endNodeIsChild then attribute "end-node-parent" "" element else "";
                 ConnectorData.startNodeId :=
                   if startNodeIsChild then "" else attribute "start-node-id" "" element;
                 ConnectorData.endNodeId :=
                   if endNodeIsChild then "" else attribute "end-node-id" "" element |} in
            Some (set_connectorDataMap (<[id := connectorData]> (m_connectorDataMap d)) d,
                  [Debug (pointsMessage points)])
        end
    end.

Definition pinMappingTypeOfString (typeString : string) : PinMapping.Type_ :=
    if bool_decide (typeString = "sevensegment") then PinMapping.SevenSegment
    else if bool_decide (typeString = "keypad_4x3") then PinMapping.Keypad_4x3
    else if bool_decide (typeString = "keypad_4x4") then PinMapping.Keypad_4x4
    else PinMapping.Invalid.

  (** One child of a [micro] element. *)
Definition readMicroChild (micro : MicroData.t) (childElement : QDomNode)
    : Logged MicroData.t :=
    match childElement with
    | CharacterData _ => (micro, [])
    | Element tagName _ _ =>
        if bool_decide (tagName = "pinmap") then
          let id := attribute "id" "" childElement in
          let typeString := attribute "type" "" childElement in
          if bool_decide (id <> "") && bool_decide (typeString <> "") then
            let pinMapping :=
              PinMapping.setPins (Qt.split " " (attribute "map" "" childElement))
                (PinMapping.mk (pinMappingTypeOfString typeString) []) in
            (MicroData.set_pinMappings (<[id := pinMapping]> (MicroData.pinMappings micro))
               micro, [])
          else (micro, [])
        else if bool_decide (tagName = "pin") then
          let pinID := attribute "id" "" childElement in
          if bool_decide (pinID <> "") then
            let ty :=
              if bool_decide (attribute "type" "input" childElement = "input")
              then PinSettings.pt_input else PinSettings.pt_output in
            let st :=
              if bool_decide (attribute "state" "off" childElement = "off")
              then PinSettings.ps_off else PinSettings.ps_on in
            let pinMap := qmap_at PinData.init (PinData.set_type ty) pinID
                            (MicroData.pinMap micro) in
            let pinMap := qmap_at PinData.init (PinData.set_state st) pinID pinMap in
            (MicroData.set_pinMap pinMap micro, [])
          else (micro, [])
        else if bool_decide (tagName = "variable") then
          let variableId := attribute "name" "" childElement in
          (MicroData.set_variableMap
             (<[variableId := attribute "value" "" childElement]>
                (MicroData.variableMap micro)) micro, [])
        else (micro, [Critical ("Unrecognised element tag name: " +:+ tagName)])
    end.

  (** [ItemDocumentData::elementToMicroData]. *)
Definition elementToMicroData (element : QDomNode) (d : ItemDocumentData)
    : Logged ItemDocumentData :=
    let id :=
      match attribute_opt "id" element with
      | Some id => Some id
      | None => attribute_opt "pic" element
      end in
    match id with
    | None => (d, [Critical "Could not find id in element"])
    | Some id =>
        let micro := MicroData.set_id id (MicroData.reset (m_microData d)) in
        let* micro := foldl_logged readMicroChild micro (children element) in
        (set_microData micro d, [])
    end.

  (** The body of the [while] loop of [fromXML], for one child of the root. *)
Definition readRootChild (d : ItemDocumentData) (node : QDomNode)
    : Partial ItemDocumentData :=
    match node with
    | CharacterData _ => Some (d, [])
    | Element tagName _ _ =>
        if bool_decide (tagName = "item") then Some (elementToItemData node d)
        else if bool_decide (tagName = "node") then Some (elementToNodeData node d)
        else if bool_decide (tagName = "connector") then elementToConnectorData node d
        else if bool_decide (tagName = "pic-settings") || bool_decide (tagName = "micro")
        then Some (elementToMicroData node d)
        else if bool_decide (tagName = "code") then Some (d, [])
        else Some (d, [Warning ("Unrecognised element tag name: " +:+ tagName)])
    end.

  (** [ItemDocumentData::fromXML(const QString &xml)]: the returned [bool],
      the snapshot the object is left with and the log, when the call
      returns. *)
Definition fromXML (xml : string) (d : ItemDocumentData)
    : Partial (bool * ItemDocumentData) :=
    let d := reset d in
    match setContent xml with
    | inr errorMessage =>
        Some ((false, d), [MessageBox ("Could not parse XML: " +:+ errorMessage)])
    | inl doc =>
        let root := documentElement doc in
        match foldl_partial readRootChild d (children root) with
        | Some (d, log) => Some ((true, d), log)
        | None => None
        end
    end.

End from_xml.

(** ** The sub-circuit extractor *)

Module ECSubcircuit.
  (** Modelled from the spec: the container's interface ([id()],
      [setNumExtCon], [setExtConName], [doneSCInit]). *)
Record t := mk {
    id : string;
    numExtCon : Z;
    extConName : gmap Z string;
    scInitDone : bool
  }.
Definition setNumExtCon (n : Z) (e : t) : t :=
    mk (id e) n (extConName e) (scInitDone e).
Definition setExtConName (i : Z) (name : string) (e : t) : t :=
    mk (id e) (numExtCon e) (<[i := name]> (extConName e)) (scInitDone e).
Definition doneSCInit (e : t) : t :=
    mk (id e) (numExtCon e) (extConName e) true.
End ECSubcircuit.

(** [std::multimap<double, QString>::insert]: the sequence stays ordered by
    key and an entry goes after the entries with an equal key. *)
Fixpoint multimap_insert {V : Type} (k : Z) (v : V) (l : list (Z * V)) : list (Z * V) :=
  match l with
  | [] => [(k, v)]
  | e :: l' =>
      if bool_decide (k < e.1) then (k, v) :: l else e :: multimap_insert k v l'
  end.

Section subcircuit.
Context `{QtValue} `{UIDSource} `{ItemLibrary}.

  (** The external connections, ordered by x coordinate. *)
Definition externalConnections (items : gmap string ItemData.t) : list (Z * string) :=
    foldl (fun extCon it =>
             if bool_decide (ItemData.type it.2 = "ec/external_connection")
             then multimap_insert (ItemData.x it.2) it.1 extCon
             else extCon)
          [] (Qt.qmap_entries items).

  (** The left / right split, each side ordered by y coordinate. *)
Definition sortPins (items : gmap string ItemData.t) (extCon : list (Z * string))
    : list (Z * string) * list (Z * string) * gmap string ItemData.t :=
    let size := (length extCon / 2 + length extCon mod 2)%nat in
    let '(_, leftPins, rightPins, items) :=
      foldl (fun st it =>
               let '(at_, leftPins, rightPins, items) := st in
               let '(item, items) := Qt.qmap_index ItemData.init items it.2 in
               if bool_decide (at_ < size)%nat
               then (S at_, multimap_insert (ItemData.y item) it.2 leftPins, rightPins, items)
               else (S at_, leftPins, multimap_insert (ItemData.y item) it.2 rightPins, items))
            (0%nat, [], [], items) extCon in
    (leftPins, rightPins, items).

  (** One pass of "record the pin, name it, drop the marker"; [delta] is
      [+1] for the left pins and [-1] for the right ones. *)
Definition numberPins (delta : Z) (pins : list (Z * string))
      (st : Z * gmap string Z * ECSubcircuit.t * gmap string ItemData.t)
    : Z * gmap string Z * ECSubcircuit.t * gmap string ItemData.t :=
    foldl (fun st it =>
             let '(nodeId, nodeMap, ec, items) := st in
             let nodeMap := <[it.2 := nodeId]> nodeMap in
             let '(item, items) := Qt.qmap_index ItemData.init items it.2 in
             let name := default "" (ItemData.dataString item !! "name") in
             let ec := ECSubcircuit.setExtConName nodeId name ec in
             (nodeId + delta, nodeMap, ec, delete it.2 items))
          st pins.

  (** Everything [initECSubcircuit] does with the markers: the pin number of
      each marker, the container with its pins named, and the item map
      without the markers. *)
Definition assignPins (ec : ECSubcircuit.t) (items : gmap string ItemData.t)
    : gmap string Z * ECSubcircuit.t * gmap string ItemData.t :=
    let extCon := externalConnections items in
    let ec := ECSubcircuit.setNumExtCon (Z.of_nat (length extCon)) ec in
    let '(leftPins, rightPins, items) := sortPins items extCon in
    let '(_, nodeMap, ec, items) := numberPins 1 leftPins (0, ∅, ec, items) in
    let '(_, nodeMap, ec, items) :=
      numberPins (-1) rightPins (Z.of_nat (length extCon) - 1, nodeMap, ec, items) in
    (nodeMap, ec, items).

  (** Connector references to a removed marker now name the container's pin. *)
Definition rewireConnector (nodeMap : gmap string Z) (ecId : string)
      (c : ConnectorData.t) : ConnectorData.t :=
    let c :=
      if ConnectorData.startNodeIsChild c
         && bool_decide (is_Some (nodeMap !! ConnectorData.startNodeParent c))
      then
        ConnectorData.set_startNodeParent ecId
          (ConnectorData.set_startNodeCId
             (Qt.number (default 0 (nodeMap !! ConnectorData.startNodeParent c))) c)
      else c in
    if ConnectorData.endNodeIsChild c
       && bool_decide (is_Some (nodeMap !! ConnectorData.endNodeParent c))
    then
      ConnectorData.set_endNodeParent ecId
        (ConnectorData.set_endNodeCId
           (Qt.number (default 0 (nodeMap !! ConnectorData.endNodeParent c))) c)
    else c.

  (** The closing loops: parent and hide what was created. *)
Definition adoptContents (ecId : string) (d : ItemDocumentData) (doc : ItemDocument)
    : ItemDocument :=
    let doc :=
      foldl (fun doc it =>
               match itemWithID it.1 doc with
               | Some component =>
                   set_doc_items
                     (<[it.1 := Item.setCanvas false
                                  (Item.setVisible false
                                     (Item.setParentItem ecId component))]>
                        (doc_items doc)) doc
               | None => doc
               end)
            doc (Qt.qmap_entries (m_itemDataMap d)) in
    let doc :=
      foldl (fun doc it =>
               match connectorWithID it.1 doc with
               | Some connector =>
                   set_doc_connectors
                     (<[it.1 := Connector.hide connector]> (doc_connectors doc)) doc
               | None => doc
               end)
            doc (Qt.qmap_entries (m_connectorDataMap d)) in
    foldl (fun doc it =>
             match nodeWithID it.1 doc with
             | Some node => set_doc_nodes (<[it.1 := Node.hide node]> (doc_nodes doc)) doc
             | None => doc
             end)
          doc (Qt.qmap_entries (m_nodeDataMap d)).

  (** [SubcircuitData::initECSubcircuit(ECSubcircuit *ecSubcircuit)], with
      [doc] the container's [itemDocument()]. *)
Definition initECSubcircuit (ecSubcircuit : option ECSubcircuit.t)
      (doc : ItemDocument) (d : ItemDocumentData)
    : Logged (ItemDocumentData * option ECSubcircuit.t * ItemDocument) :=
    match ecSubcircuit with
    | None => ((d, None, doc), [])
    | Some ec =>
        let '(d, odoc) := generateUniqueIDs (Some doc) d in
        let doc := default doc odoc in
        let '(nodeMap, ec, items) := assignPins ec (m_itemDataMap d) in
        let d := set_itemDataMap items d in
        let d :=
          set_connectorDataMap
            (rewireConnector nodeMap (ECSubcircuit.id ec) <$> m_connectorDataMap d) d in
        let* odoc := mergeWithDocument (Some doc) false d in
        let doc := default doc odoc in
        let doc := adoptContents (ECSubcircuit.id ec) d doc in
        ((d, Some (ECSubcircuit.doneSCInit ec), doc), [])
    end.

End subcircuit.

(** * Terms of the properties, and the examples *)

(** ** Bit vectors as text *)

Section codec_terms.

  (** The padded array [toAsciiHex] works on. *)
Definition padded (v : QBitArray) : QBitArray :=
    v ++ replicate ((4 - length v mod 4) mod 4) false.

  (** The four writes for one character. *)
Definition write_nibble (val : Z) (i : nat) (data : QBitArray) : QBitArray :=
    foldl (fun data j =>
             <[(4 * i + j)%nat := bool_decide (Z.land val (Z.shiftl 1 (Z.of_nat j)) <> 0)]> data)
          data (seq 0 4).

Definition write_nibbles (val : nat -> Z) (n : nat) (data : QBitArray) : QBitArray :=
    foldl (fun data i => write_nibble (val i) i data) data (seq 0 n).

End codec_terms.

(** ** Translation *)

Section translate_terms.
Context `{QtValue}.

  (** A snapshot with one item, one node and one one-point connector, all at
      the origin. *)
Definition origin_snapshot : ItemDocumentData :=
    mkItemDocumentData
      {["i" := ItemData.init]}
      {["c" := ConnectorData.set_route [mkQPoint 0 0] ConnectorData.init]}
      {["n" := NodeData.init]}
      MicroData.init dt_circuit.

End translate_terms.

(** ** Capture *)

Section capture_terms.
Context `{QtValue}.

  (** A snapshot that was used before for a flow-code document. *)
Definition used_snapshot : ItemDocumentData :=
    mkItemDocumentData ∅ ∅ ∅
      (MicroData.mk "P16F84" {["RA0" := PinData.init]} {["count" := "3"]}
         {["display" := PinMapping.mk PinMapping.SevenSegment ["RB0"; "RB1"]]})
      dt_flowcode.

Definition empty_circuit_document : ItemDocument :=
    mkItemDocument dt_circuit ∅ ∅ ∅ [] ∅ None.

End capture_terms.

(** ** Identifier remapping *)

Section remap_terms.
Context {QV : QtValue}.

  (** An identifier is used by a snapshot when it is a key of one of its
      three maps. *)
Definition used_id (d : ItemDocumentData) (k : string) : Prop :=
    is_Some (m_itemDataMap d !! k) \/ is_Some (m_nodeDataMap d !! k)
    \/ is_Some (m_connectorDataMap d !! k).

  (** A record after the substitution [s] was applied to its references. *)
Definition remap_item (s : string -> string) (it : ItemData.t) : ItemData.t :=
    ItemData.set_parentId (s (ItemData.parentId it)) it.

Definition remap_connector (s : string -> string) (c : ConnectorData.t)
    : ConnectorData.t :=
    ConnectorData.mk (ConnectorData.manualRoute c) (ConnectorData.route c)
      (ConnectorData.startNodeIsChild c) (ConnectorData.endNodeIsChild c)
      (ConnectorData.startNodeCId c) (ConnectorData.endNodeCId c)
      (s (ConnectorData.startNodeParent c)) (s (ConnectorData.endNodeParent c))
      (s (ConnectorData.startNodeId c)) (s (ConnectorData.endNodeId c)).

  (** A map re-keyed by [s]. *)
Definition rekeyed {V : Type} (s : string -> string) (m : gmap string V)
    : gmap string V :=
    foldl (fun nm it => <[s it.1 := it.2]> nm) ∅ (Qt.qmap_entries m).

  (** Every non-empty parent identifier is a key of the item map. *)
Definition parents_resolve (d : ItemDocumentData) : Prop :=
    forall k it, m_itemDataMap d !! k = Some it -> ItemData.parentId it <> "" ->
                 is_Some (m_itemDataMap d !! ItemData.parentId it).

Definition is_used (d : ItemDocumentData) (k : string) : bool :=
    bool_decide (is_Some (m_itemDataMap d !! k))
    || bool_decide (is_Some (m_nodeDataMap d !! k))
    || bool_decide (is_Some (m_connectorDataMap d !! k)).

  (** The parent identifier of [it] names an item, or nothing at all. *)
Definition parent_is_item_or_unused (d : ItemDocumentData) (it : ItemData.t) : bool :=
    bool_decide (is_Some (m_itemDataMap d !! ItemData.parentId it))
    || negb (is_used d (ItemData.parentId it)).

  (** What the table looks like while the re-keying loops run. *)
Record table_inv (doc0 : ItemDocument) (replaced : gmap string string)
      (doc : ItemDocument) : Prop := {
    inv_empty : replaced !! "" = Some "";
    inv_fresh : forall k u, replaced !! k = Some u -> k <> "" ->
                  u <> "" /\ u ∈ doc_uids doc /\ u ∉ doc_uids doc0;
    inv_inj : forall k1 k2 u, replaced !! k1 = Some u -> replaced !! k2 = Some u -> k1 = k2;
    inv_doc : doc = set_doc_uids (doc_uids doc) doc0;
    inv_mono : doc_uids doc0 ⊆ doc_uids doc;
    inv_minted : forall u, u ∈ doc_uids doc ->
                   u ∈ doc_uids doc0 \/ exists k, k <> "" /\ replaced !! k = Some u
  }.

  (** The reference-rewriting loops read the table through [operator[]],
      which may add empty entries but never changes what a lookup yields. *)
Definition view (replaced : gmap string string) (k : string) : string :=
    default "" (replaced !! k).

End remap_terms.

(** ** Example collaborators and snapshots *)

(** Numbers as integers in decimal text, colours as their names. *)
Definition example_values : QtValue :=
  {| QReal := Z; QColor := string;
     number_double := Qt.number; toDouble := Qt.toInt;
     color_name := fun c => c; color_named := fun s => s |}.

Fixpoint underscores (n : nat) : string :=
  match n with
  | O => ""
  | S n => String "_" (underscores n)
  end.

Definition longest (l : list string) : nat :=
  foldr (fun s n => Nat.max (String.length s) n) 0%nat l.

(** An identifier seeded from [seed] that is longer than every registered
    one. *)
Definition example_mint (seed : string) (used : gset string) : string :=
  seed +:+ underscores (S (longest (elements used))).

(** An item whose parent identifier is the key of a node. *)
Definition orphan_snapshot : @ItemDocumentData example_values :=
  mkItemDocumentData
    {["a" := ItemData.set_parentId "n" ItemData.init]} ∅ {["n" := NodeData.init]}
    MicroData.init dt_circuit.

Definition blank_circuit_document : @ItemDocument example_values :=
  mkItemDocument dt_circuit ∅ ∅ ∅ [] ∅ None.

Definition family_snapshot : @ItemDocumentData example_values :=
  mkItemDocumentData
    {["a" := ItemData.init; "b" := ItemData.set_parentId "a" ItemData.init;
      "c" := ItemData.set_parentId "gone" ItemData.init]}
    ∅ {["n" := NodeData.init]} MicroData.init dt_circuit.

(** ** Sub-circuit pins *)

(** Order of a [std::multimap] sequence: ascending keys. *)
Definition by_key {V : Type} (a b : Z * V) : Prop := a.1 <= b.1.

Section pins_terms.
Context {QV : QtValue}.

Definition is_marker (it : ItemData.t) : Prop :=
    ItemData.type it = "ec/external_connection".

#[global] Instance is_marker_dec it : Decision (is_marker it) :=
    decide (ItemData.type it = "ec/external_connection").

Definition split_step (size : nat)
      (st : nat * list (Z * string) * list (Z * string) * gmap string ItemData.t)
      (it : Z * string) :=
    let '(at_, leftPins, rightPins, items) := st in
    let '(item, items) := Qt.qmap_index ItemData.init items it.2 in
    if bool_decide (at_ < size)%nat
    then (S at_, multimap_insert (ItemData.y item) it.2 leftPins, rightPins, items)
    else (S at_, leftPins, multimap_insert (ItemData.y item) it.2 rightPins, items).

Definition number_step (delta : Z)
      (st : Z * gmap string Z * ECSubcircuit.t * gmap string ItemData.t)
      (it : Z * string) :=
    let '(nodeId, nodeMap, ec, items) := st in
    let nodeMap := <[it.2 := nodeId]> nodeMap in
    let '(item, items) := Qt.qmap_index ItemData.init items it.2 in
    let name := default "" (ItemData.dataString item !! "name") in
    let ec := ECSubcircuit.setExtConName nodeId name ec in
    (nodeId + delta, nodeMap, ec, delete it.2 items).

  (** Four markers at (0,5), (0,20), (10,5) and (10,20); the identifiers are
      chosen against the geometric order. *)
Definition marker (x y : Z) : ItemData.t :=
    ItemData.mk "ec/external_connection" x y (-1) (mkQRect 0 0 0 0) false (-1) 0 false
      ∅ ∅ "" ∅ ∅ ∅ ∅ ∅.

Definition four_markers : gmap string ItemData.t :=
    {["d" := marker 0 5; "c" := marker 0 20; "b" := marker 10 5; "a" := marker 10 20]}.

End pins_terms.

(** ** Tolerant parsing *)

(** A child of the root whose tag [fromXML] does not know. *)
Definition unrecognised (node : QDomNode) : Prop :=
  match node with
  | Element t _ _ =>
      t ∉ ["item"; "node"; "connector"; "pic-settings"; "micro"; "code"]
  | CharacterData _ => False
  end.

(** An item, node or connector element without an "id" attribute. *)
Definition lacks_id (node : QDomNode) : Prop :=
  match node with
  | Element t a _ => t ∈ ["item"; "node"; "connector"] /\ a !! "id" = None
  | CharacterData _ => False
  end.

(** What is logged for such a child. *)
Definition skip_entry (node : QDomNode) : LogEntry :=
  if bool_decide (tagName_of node ∈ ["item"; "node"; "connector"])
  then Critical "Could not find id in element"
  else Warning ("Unrecognised element tag name: " +:+ tagName_of node).

(** A connector element with an identifier whose route has an odd number
    of non-empty fields. *)
Definition unpaired_route (node : QDomNode) : bool :=
  match node with
  | Element t a _ =>
      bool_decide (t = "connector") && bool_decide (is_Some (a !! "id"))
      && Nat.odd (length (Qt.split "," (attribute "route" "" node)))
  | CharacterData _ => false
  end.

(** No connector element among the children of the root of the parsed text
    has such a route (a text that does not parse has no children). *)
Definition routes_paired `{QDomText} (xml : string) : bool :=
  match setContent xml with
  | inl doc =>
      forallb (fun node => negb (unpaired_route node)) (children (documentElement doc))
  | inr _ => true
  end.

(** ** Connector endpoints *)

Section unresolved_terms.
Context {QV : QtValue} {IL : ItemLibrary}.

Definition start_endpoint (doc : ItemDocument) (c : ConnectorData.t)
    : Logged (option string) :=
    resolve_endpoint doc (ConnectorData.startNodeIsChild c)
      (ConnectorData.startNodeParent c) (ConnectorData.startNodeCId c)
      (ConnectorData.startNodeId c).

Definition end_endpoint (doc : ItemDocument) (c : ConnectorData.t)
    : Logged (option string) :=
    resolve_endpoint doc (ConnectorData.endNodeIsChild c)
      (ConnectorData.endNodeParent c) (ConnectorData.endNodeCId c)
      (ConnectorData.endNodeId c).

  (** At least one endpoint of [c] does not resolve in [doc]. *)
Definition unresolved (doc : ItemDocument) (c : ConnectorData.t) : Prop :=
    (start_endpoint doc c).1 = None \/ (end_endpoint doc c).1 = None.

  (** What skipping [c] logs: one error for each child reference whose
      parent item is not found, then the error for the connector. *)
Definition skip_log (doc : ItemDocument) (c : ConnectorData.t) : list LogEntry :=
    (start_endpoint doc c).2 ++ (end_endpoint doc c).2
    ++ [Critical "End and start nodes for the connector do not both exist"].

  (** The live document when the connector loops of a merge begin. *)
Definition before_connectors (selectNew : bool) (d : ItemDocumentData)
      (doc : ItemDocument) : ItemDocument :=
    (merge_items selectNew d (merge_nodes d doc)).1.

Definition errors (lg : list LogEntry) : nat := length (filter is_Critical lg).

Definition without_connector (k : string) (d : ItemDocumentData) : ItemDocumentData :=
    set_connectorDataMap (delete k (m_connectorDataMap d)) d.

  (** Child references of [c] whose parent item is not found in [doc]. *)
Definition missing_parents (doc : ItemDocument) (c : ConnectorData.t) : nat :=
    ((if ConnectorData.startNodeIsChild c
         && bool_decide (cnItemWithID (ConnectorData.startNodeParent c) doc = None)
      then 1 else 0)
     + (if ConnectorData.endNodeIsChild c
           && bool_decide (cnItemWithID (ConnectorData.endNodeParent c) doc = None)
        then 1 else 0))%nat.

  (** Two live documents that offer the same endpoints. *)
Definition same_endpoints (doc doc' : ItemDocument) : Prop :=
    doc_type doc' = doc_type doc
    /\ doc_items doc' = doc_items doc
    /\ (forall id, is_Some (doc_nodes doc' !! id) <-> is_Some (doc_nodes doc !! id)).

End unresolved_terms.

(** Concrete item library for the examples: every type but "unknown" can be
    built, an item of type "invalid" is rejected by the document, and
    restoring stores the record in the item. *)
Definition example_library {QV : QtValue} : ItemLibrary :=
  {| createItem type doc id :=
       if bool_decide (type = "unknown") then None
       else Some (Item.mk type true 0 0 (Some {["p" := id +:+ "-p"]}) ItemData.init
                   false false "");
     isValidItem doc item := negb (bool_decide (Item.type item = "invalid"));
     restoreFromItemData data item :=
       Item.mk (Item.type item) (Item.canvas item) (ItemData.x data) (ItemData.y data)
         (Item.cnChildNodes item) data (Item.finished item) (Item.visible item)
         (ItemData.parentId data) |}.

(** ** Connector examples *)

(** A wire from the child slot "p" of an item that does not exist to the
    node "n". *)
Definition ghost_wire : ConnectorData.t :=
  ConnectorData.mk false [] true false "p" "" "ghost" "" "" "n".

Definition ghost_snapshot : @ItemDocumentData example_values :=
  mkItemDocumentData ∅ {["w" := ghost_wire]} {["n" := NodeData.init]}
    MicroData.init dt_circuit.

Definition wires_snapshot : @ItemDocumentData example_values :=
  mkItemDocumentData ∅
    {["good" := ConnectorData.mk false [] false false "" "" "" "" "n1" "n2";
      "w" := ghost_wire]}
    {["n" := NodeData.init; "n1" := NodeData.init; "n2" := NodeData.init]}
    MicroData.init dt_circuit.

(** ** Restore *)

Section restore_terms.
Context {QV : QtValue} {IL : ItemLibrary}.

  (** The live document between the merge and the pruning of
      [restoreDocument]. *)
Definition merged_document (d : ItemDocumentData) (doc : ItemDocument) : ItemDocument :=
    default doc (mergeWithDocument (Some (restoreMicro d doc)) false d).1.

Definition restored_document (PicItem_typeString : string) (d : ItemDocumentData)
      (doc : ItemDocument) : ItemDocument :=
    default doc (restoreDocument PicItem_typeString (Some doc) d).1.

  (** Convergence as the specification states it: the live identifier sets
      are the snapshot's key sets, microcontroller-placement items apart. *)
Definition live_matches_snapshot (PicItem_typeString : string)
      (d : ItemDocumentData) (doc : ItemDocument) : Prop :=
    (forall id, is_Some (doc_items doc !! id) <->
       is_Some (m_itemDataMap d !! id)
       \/ exists item, doc_items doc !! id = Some item
                       /\ Item.type item = PicItem_typeString)
    /\ (forall id, is_Some (doc_nodes doc !! id) <-> is_Some (m_nodeDataMap d !! id))
    /\ (forall id, is_Some (doc_connectors doc !! id)
                   <-> is_Some (m_connectorDataMap d !! id)).

  (** Deleting from a map the listed keys whose value is [removable]. *)
Definition prune_map {X : Type} (removable : X -> bool) (l : list string)
      (m : gmap string X) : gmap string X :=
    foldl (fun m id =>
             match m !! id with
             | Some x => if removable x then delete id m else m
             | None => m
             end) m l.

  (** What the pruning loops delete when the identifier is not a key of
      the snapshot. *)
Definition item_removable (PicItem_typeString : string) (item : Item.t) : bool :=
    Item.canvas item && bool_decide (Item.type item <> PicItem_typeString).

Definition node_removable (node : Node.t) : bool :=
    Node.canvas node && negb (Node.isChildNode node).

End restore_terms.

(** An item record without a type: the merge never instantiates it. *)
Definition untyped_snapshot : @ItemDocumentData example_values :=
  mkItemDocumentData {["x" := ItemData.init]} ∅ ∅ MicroData.init dt_circuit.

(** ** Text of numbers, words and routes *)

(** Every character of [s] satisfies [P]. *)
Fixpoint string_forall (P : ascii -> bool) (s : string) : bool :=
  match s with
  | EmptyString => true
  | String c s' => P c && string_forall P s'
  end.

Definition is_not (sep : ascii) (c : ascii) : bool := negb (Ascii.eqb c sep).

(** A pin name survives [join(" ")] / [split(" ")]. *)
Definition plain_word (s : string) : bool :=
  negb (bool_decide (s = "")) && string_forall (is_not " ") s.

Section strings_terms.

Definition is_digit_or_minus (c : ascii) : bool :=
    let n := N_of_ascii c in
    bool_decide (48 <= n <= 57)%N || bool_decide (n = 45)%N.

Definition point_in_int (p : QPoint) : Prop := Qt.in_int (px p) /\ Qt.in_int (py p).

  (** The fields of the route text: both coordinates of every waypoint. *)
Definition routeFields (route : list QPoint) : list string :=
    flat_map (fun p => [Qt.number (px p); Qt.number (py p)]) route.

  (** The route text, written front to back. *)
Fixpoint routeText (route : list QPoint) : string :=
    match route with
    | [] => ""
    | p :: rest =>
        Qt.number (px p) +:+ String "," (Qt.number (py p) +:+ String "," (routeText rest))
    end.

End strings_terms.

(** ** Round-trip normal forms *)

Section normal_forms_terms.
Context {QV : QtValue}.

  (** An item record as it comes back: the size only when it was set,
      the angle and flip only when no orientation is given, raw data padded
      to whole nibbles. *)
Definition norm_item (it : ItemData.t) : ItemData.t :=
    {| ItemData.type := ItemData.type it;
       ItemData.x := ItemData.x it;
       ItemData.y := ItemData.y it;
       ItemData.z := ItemData.z it;
       ItemData.size :=
         if ItemData.setSize it then ItemData.size it else mkQRect 0 0 0 0;
       ItemData.setSize := ItemData.setSize it;
       ItemData.orientation :=
         if bool_decide (0 <= ItemData.orientation it) then ItemData.orientation it else -1;
       ItemData.angleDegrees :=
         if bool_decide (0 <= ItemData.orientation it) then 0 else ItemData.angleDegrees it;
       ItemData.flipped :=
         if bool_decide (0 <= ItemData.orientation it) then false else ItemData.flipped it;
       ItemData.buttonMap := ItemData.buttonMap it;
       ItemData.sliderMap := ItemData.sliderMap it;
       ItemData.parentId := ItemData.parentId it;
       ItemData.dataBool := ItemData.dataBool it;
       ItemData.dataNumber := ItemData.dataNumber it;
       ItemData.dataColor := ItemData.dataColor it;
       ItemData.dataString := ItemData.dataString it;
       ItemData.dataRaw := padded <$> ItemData.dataRaw it |}.

  (** A connector record as it comes back: of each endpoint only the
      variant in use. *)
Definition norm_connector (c : ConnectorData.t) : ConnectorData.t :=
    {| ConnectorData.manualRoute := ConnectorData.manualRoute c;
       ConnectorData.route := ConnectorData.route c;
       ConnectorData.startNodeIsChild := ConnectorData.startNodeIsChild c;
       ConnectorData.endNodeIsChild := ConnectorData.endNodeIsChild c;
       ConnectorData.startNodeCId :=
         if ConnectorData.startNodeIsChild c then ConnectorData.startNodeCId c else "";
       ConnectorData.endNodeCId :=
         if ConnectorData.endNodeIsChild c then ConnectorData.endNodeCId c else "";
       ConnectorData.startNodeParent :=
         if ConnectorData.startNodeIsChild c then ConnectorData.startNodeParent c else "";
       ConnectorData.endNodeParent :=
         if ConnectorData.endNodeIsChild c then ConnectorData.endNodeParent c else "";
       ConnectorData.startNodeId :=
         if ConnectorData.startNodeIsChild c then "" else ConnectorData.startNodeId c;
       ConnectorData.endNodeId :=
         if ConnectorData.endNodeIsChild c then "" else ConnectorData.endNodeId c |}.

  (** Records whose values have a faithful text form. *)
Definition rect_in_int (r : QRect) : Prop :=
    Qt.in_int (rect_x r) /\ Qt.in_int (rect_y r)
    /\ Qt.in_int (rect_width r) /\ Qt.in_int (rect_height r).

Record valid_item (it : ItemData.t) : Prop := {
    valid_x : Qt.in_int (ItemData.x it);
    valid_y : Qt.in_int (ItemData.y it);
    valid_z : Qt.in_int (ItemData.z it);
    valid_size : rect_in_int (ItemData.size it);
    valid_orientation : Qt.in_int (ItemData.orientation it);
    valid_angle : Qt.in_int (ItemData.angleDegrees it);
    valid_sliders : map_Forall (fun _ v => Qt.in_int v) (ItemData.sliderMap it);
    valid_numbers :
      map_Forall (fun _ v => toDouble (number_double v) = v) (ItemData.dataNumber it);
    valid_colors :
      map_Forall (fun _ v => color_named (color_name v) = v) (ItemData.dataColor it)
  }.

Definition valid_connector (c : ConnectorData.t) : Prop :=
    Forall point_in_int (ConnectorData.route c).

Definition valid_node (n : NodeData.t) : Prop :=
    Qt.in_int (NodeData.x n) /\ Qt.in_int (NodeData.y n).

Record valid_micro (m : MicroData.t) : Prop := {
    valid_pin_ids : map_Forall (fun k _ => k <> "") (MicroData.pinMap m);
    valid_mappings :
      map_Forall (fun k pm => k <> "" /\ PinMapping.type pm <> PinMapping.Invalid
                              /\ forallb plain_word (PinMapping.pins pm) = true)
                 (MicroData.pinMappings m)
  }.

Record valid_snapshot (d : ItemDocumentData) : Prop := {
    valid_items : map_Forall (fun _ it => valid_item it) (m_itemDataMap d);
    valid_connectors : map_Forall (fun _ c => valid_connector c) (m_connectorDataMap d);
    valid_nodes : map_Forall (fun _ n => valid_node n) (m_nodeDataMap d);
    valid_microData : m_documentType d = dt_flowcode -> valid_micro (m_microData d)
  }.

  (** The snapshot a fresh object holds after reading [toXML d]. *)
Definition round_trip (d : ItemDocumentData) : ItemDocumentData :=
    {| m_itemDataMap := norm_item <$> m_itemDataMap d;
       m_connectorDataMap := norm_connector <$> m_connectorDataMap d;
       m_nodeDataMap := m_nodeDataMap d;
       m_microData :=
         if bool_decide (m_documentType d = dt_flowcode)
         then m_microData d else MicroData.init;
       m_documentType := dt_none |}.

End normal_forms_terms.

(** ** The item element *)

(** Looking an attribute up in a chain of [setAttribute]s. *)
Ltac attr_lookup :=
  repeat first
    [ rewrite lookup_insert_eq
    | rewrite lookup_insert_ne by (intros ?; discriminate)
    | rewrite lookup_empty ].

(** Deciding the tag and type tests of the readers on literal strings. *)
Ltac tag_dispatch :=
  repeat first
    [ rewrite bool_decide_eq_true_2 by reflexivity
    | rewrite bool_decide_eq_false_2 by (intros ?; discriminate) ].

Section item_element_terms.
Context {QV : QtValue}.

  (** The attributes [itemDataToElement] sets. *)
Definition item_attrs (itemData : ItemData.t) : gmap string string :=
    let a : gmap string string :=
      <["y" := Qt.number (ItemData.y itemData)]>
        (<["x" := Qt.number (ItemData.x itemData)]>
           (<["type" := ItemData.type itemData]> ∅)) in
    let a :=
      if bool_decide (ItemData.z itemData <> -1)
      then <["z" := Qt.number (ItemData.z itemData)]> a else a in
    let a :=
      if ItemData.setSize itemData then
        let size := ItemData.size itemData in
        <["height" := Qt.number (rect_height size)]>
          (<["width" := Qt.number (rect_width size)]>
             (<["offset-y" := Qt.number (rect_y size)]>
                (<["offset-x" := Qt.number (rect_x size)]> a)))
      else a in
    let a :=
      if bool_decide (0 <= ItemData.orientation itemData)
      then <["orientation" := Qt.number (ItemData.orientation itemData)]> a
      else <["flip" := bool_number (ItemData.flipped itemData)]>
             (<["angle" := Qt.number (ItemData.angleDegrees itemData)]> a) in
    if bool_decide (ItemData.parentId itemData <> "")
    then <["parent" := ItemData.parentId itemData]> a else a.

  (** The children [itemDataToElement] appends, in order. *)
Definition item_children (itemData : ItemData.t) : list QDomNode :=
    ((fun it => dataElement it.1 "string" it.2)
       <$> Qt.qmap_entries (ItemData.dataString itemData))
    ++ ((fun it => dataElement it.1 "number" (number_double it.2))
          <$> Qt.qmap_entries (ItemData.dataNumber itemData))
    ++ ((fun it => dataElement it.1 "color" (color_name it.2))
          <$> Qt.qmap_entries (ItemData.dataColor itemData))
    ++ ((fun it => dataElement it.1 "raw" (toAsciiHex it.2))
          <$> Qt.qmap_entries (ItemData.dataRaw itemData))
    ++ ((fun it => dataElement it.1 "bool" (bool_number it.2))
          <$> Qt.qmap_entries (ItemData.dataBool itemData))
    ++ ((fun it => setAttribute "state" (bool_number it.2)
                     (setAttribute "id" it.1 (createElement "button")))
          <$> Qt.qmap_entries (ItemData.buttonMap itemData))
    ++ ((fun it => setAttribute "value" (Qt.number it.2)
                     (setAttribute "id" it.1 (createElement "slider")))
          <$> Qt.qmap_entries (ItemData.sliderMap itemData)).

  (** A record with its seven maps emptied: what the attributes alone give. *)
Definition bare (it : ItemData.t) : ItemData.t :=
    ItemData.mk (ItemData.type it) (ItemData.x it) (ItemData.y it) (ItemData.z it)
      (ItemData.size it) (ItemData.setSize it) (ItemData.orientation it)
      (ItemData.angleDegrees it) (ItemData.flipped it) ∅ ∅ (ItemData.parentId it)
      ∅ ∅ ∅ ∅ ∅.

End item_element_terms.

(** ** The children of the micro element *)

Section other_elements_terms.
Context {QV : QtValue}.

Definition pinmapElement (k : string) (v : PinMapping.t) : QDomNode :=
    setAttribute "map" (Qt.join " " (PinMapping.pins v))
      (setAttribute "type" (pinMappingTypeString (PinMapping.type v))
         (setAttribute "id" k (createElement "pinmap"))).

Definition pinElement (k : string) (v : PinData.t) : QDomNode :=
    setAttribute "state"
      (match PinData.state v with PinSettings.ps_off => "off" | _ => "on" end)
      (setAttribute "type"
         (match PinData.type v with PinSettings.pt_input => "input" | _ => "output" end)
         (setAttribute "id" k (createElement "pin"))).

Definition variableElement (k v : string) : QDomNode :=
    setAttribute "value" v (setAttribute "name" k (createElement "variable")).

End other_elements_terms.

(** ** The log of a round trip *)

Section whole_document_terms.
Context {QV : QtValue} {QD : QDomText}.

  (** What reading a written snapshot logs: the debug entry of every
      connector, in key order. *)
Definition pointsLog (d : ItemDocumentData) : list LogEntry :=
    (fun it => Debug (pointsMessage (routeFields (ConnectorData.route it.2))))
      <$> Qt.qmap_entries (m_connectorDataMap d).

End whole_document_terms.

(** ** An example text form of the tree *)

(** A small writer and reader of angle-bracket text standing in for Qt's:
    [<tag key="value" ...>children</tag>], no escaping. *)
Module ExampleXml.

Definition quote : ascii := ascii_of_nat 34.

Definition attributeText (it : string * string) : string :=
    " " +:+ it.1 +:+ "=" +:+ String quote (it.2 +:+ String quote "").

Fixpoint nodeText (n : QDomNode) : string :=
    match n with
    | CharacterData s => s
    | Element t a c =>
        "<" +:+ t
        +:+ foldr (fun it acc => attributeText it +:+ acc) "" (Qt.qmap_entries a)
        +:+ ">" +:+ foldr (fun n acc => nodeText n +:+ acc) "" c
        +:+ "</" +:+ t +:+ ">"
    end.

Definition documentText (doc : QDomDocument) : string :=
    "<!DOCTYPE " +:+ doctype doc +:+ ">" +:+ nodeText (documentElement doc).

  (** The text up to the first character satisfying [stop], and the rest. *)
Fixpoint until (stop : ascii -> bool) (s : string) : string * string :=
    match s with
    | EmptyString => ("", "")
    | String c s' =>
        if stop c then ("", s)
        else let '(a, r) := until stop s' in (String c a, r)
    end.

  (** [s] without its prefix [p]. *)
Fixpoint strip (p s : string) : option string :=
    match p, s with
    | EmptyString, _ => Some s
    | String a p', String b s' => if Ascii.eqb a b then strip p' s' else None
    | String _ _, EmptyString => None
    end.

Fixpoint parseAttributes (fuel : nat) (s : string)
    : option (gmap string string * string) :=
    match fuel, s with
    | S fuel, String c r =>
        if Ascii.eqb c ">" then Some (∅, r)
        else if Ascii.eqb c " " then
          let '(k, r) := until (Ascii.eqb "=") r in
          r ← strip (String "=" (String quote "")) r;
          let '(v, r) := until (Ascii.eqb quote) r in
          r ← strip (String quote "") r;
          '(a, r) ← parseAttributes fuel r;
          Some (<[k := v]> a, r)
        else None
    | _, _ => None
    end.

  (** The nodes up to the next closing tag or the end of the text. *)
Fixpoint parseNodes (fuel : nat) (s : string) : option (list QDomNode * string) :=
    match fuel, s with
    | O, _ => None
    | S _, EmptyString => Some ([], "")
    | S fuel, String c r =>
        if negb (Ascii.eqb c "<") then
          let '(text, r) := until (Ascii.eqb "<") s in
          '(nodes, r) ← parseNodes fuel r;
          Some (CharacterData text :: nodes, r)
        else if bool_decide (is_Some (strip "/" r)) then Some ([], s)
        else
          let '(t, r) := until (fun c => Ascii.eqb c " " || Ascii.eqb c ">") r in
          '(a, r) ← parseAttributes (S (String.length r)) r;
          '(children, r) ← parseNodes fuel r;
          r ← strip ("</" +:+ t +:+ ">") r;
          '(nodes, r) ← parseNodes fuel r;
          Some (Element t a children :: nodes, r)
    end.

Definition parseDocument (s : string) : QDomDocument + string :=
    match strip "<!DOCTYPE " s with
    | None => inr "no document type"
    | Some r =>
        let '(name, r) := until (Ascii.eqb ">") r in
        match strip ">" r with
        | None => inr "unfinished document type"
        | Some r =>
            match parseNodes (S (String.length r)) r with
            | Some ([Element t a c], EmptyString) =>
                inl (mkQDomDocument name (Element t a c))
            | _ => inr "expected one root element"
            end
        end
    end.

End ExampleXml.

Definition example_dom : QDomText :=
  {| toString := ExampleXml.documentText; setContent := ExampleXml.parseDocument |}.

(** A flow-code snapshot with one record of every kind. *)
Definition sample_item : @ItemData.t example_values :=
  ItemData.mk "flow/output" 40 (-8) 2 (mkQRect (-16) (-24) 32 48) true (-1) 90 true
    (<["toggle" := true]> ∅) (<["level" := 7]> ∅) "start"
    (<["inverted" := false]> ∅) (<["delay" := 470]> ∅) (<["colour" := "#ff0000"]> ∅)
    (<["port" := "PORTA"]> ∅) (<["mask" := [true; false; true; true; false; true]]> ∅).

Definition sample_connector : ConnectorData.t :=
  ConnectorData.mk true [mkQPoint 5 6; mkQPoint 7 (-2)] true false "stdout" "" "out" ""
    "" "n1".

Definition sample_micro : MicroData.t :=
  MicroData.mk "P16F84"
    (<["RA0" := PinData.mk PinSettings.pt_output PinSettings.ps_on]> ∅)
    (<["count" := "3"]> ∅)
    (<["display" := PinMapping.mk PinMapping.SevenSegment ["RA0"; "RA1"]]> ∅).

Definition sample_snapshot : @ItemDocumentData example_values :=
  mkItemDocumentData (<["out" := sample_item]> ∅) (<["wire" := sample_connector]> ∅)
    (<["n1" := NodeData.mk 16 32]> ∅) sample_micro dt_flowcode.

(** A well-formed document whose only connector has a route of one field. *)
Definition odd_route_connector : QDomNode :=
  Element "connector" (<["route" := "7"]> (<["id" := "w"]> ∅)) [].

Definition odd_route_document : QDomDocument :=
  mkQDomDocument "KTechlab" (Element "document" ∅ [odd_route_connector]).

(** ** Hexadecimal text *)

(** [f] applied to every character. *)
Fixpoint string_map (f : ascii -> ascii) (s : string) : string :=
  match s with
  | EmptyString => EmptyString
  | String c s' => String (f c) (string_map f s')
  end.

(** What a character of the text becomes when it is decoded and encoded
    again: a hexadecimal digit in lower case, anything else "0". *)
Definition hex_lower (c : ascii) : ascii := Qt.hex_digit (Qt.hex_value c).

Definition is_lower_hex (c : ascii) : bool :=
  let n := N_of_ascii c in
  bool_decide (48 <= n <= 57)%N || bool_decide (97 <= n <= 102)%N.

(** ** Translations within the 32-bit range *)

Section translate_range_terms.
Context {QV : QtValue}.




End translate_range_terms.

(** ** Reading over a previous state *)

(** The second micro record has every variable name and every pin-mapping
    identifier of the first. *)
Definition micro_keeps (m m' : MicroData.t) : Prop :=
  (forall k, is_Some (MicroData.variableMap m !! k) ->
             is_Some (MicroData.variableMap m' !! k))
  /\ (forall k, is_Some (MicroData.pinMappings m !! k) ->
                is_Some (MicroData.pinMappings m' !! k)).

(** A legacy document: an item element with a nested item element that
    names another parent. *)
Definition nested_item_element : QDomNode :=
  Element "item" (<["id" := "outer"]> ∅)
    [Element "item" (<["parent" := "elsewhere"]> (<["id" := "inner"]> ∅)) []].

(** ** What a capture records *)

Definition is_Debug (e : LogEntry) : bool :=
  match e with Debug _ => true | _ => false end.

Section captured_terms.
Context {QV : QtValue}.

  (** The record [addItems], [addConnectors] and [addNodes] take from a live
      entity, if they take one. *)
Definition captured_item (PicItem_typeString : string) (item : Item.t)
    : option ItemData.t :=
    if Item.canvas item && bool_decide (Item.type item <> PicItem_typeString)
    then Some (Item.itemData item) else None.

Definition captured_connector (connector : Connector.t) : option ConnectorData.t :=
    if Connector.canvas connector then
      match Connector.startNode connector, Connector.endNode connector with
      | Some _, Some _ => Some (Connector.connectorData connector)
      | _, _ => None
      end
    else None.

Definition captured_node (node : Node.t) : option NodeData.t :=
    if Node.canvas node && negb (Node.isChildNode node)
    then Some (Node.nodeData node) else None.

End captured_terms.

(** ** Pin names *)

Section markers_terms.
Context {QV : QtValue}.

  (** The name a pin gets from the marker [id]:
      [m_itemDataMap[id].dataString["name"]]. *)
Definition marker_name (items : gmap string ItemData.t) (id : string) : string :=
    default "" (ItemData.dataString (default ItemData.init (items !! id)) !! "name").

  (** Two named markers and a resistor. *)
Definition named_markers : gmap string ItemData.t :=
    <["in" := ItemData.set_dataString (<["name" := "A"]> ∅) (marker 0 0)]>
      (<["out" := ItemData.set_dataString (<["name" := "B"]> ∅) (marker 10 0)]>
         (<["r" := ItemData.init]> ∅)).

End markers_terms.

(** ** Merging and pruning *)

Section kept_terms.
Context {QV : QtValue}.

  (** Everything that is live in [doc] is live in [doc'], which has the
      same type. *)
Definition live_kept (doc doc' : ItemDocument) : Prop :=
    doc_type doc' = doc_type doc
    /\ (forall id, is_Some (doc_items doc !! id) -> is_Some (doc_items doc' !! id))
    /\ (forall id, is_Some (doc_nodes doc !! id) -> is_Some (doc_nodes doc' !! id))
    /\ (forall id, is_Some (doc_connectors doc !! id) ->
                   is_Some (doc_connectors doc' !! id)).

End kept_terms.

Section capture_restore_terms.
Context {QV : QtValue}.

  (** A connector on the canvas that lacks a start or an end node. *)
Definition dangling (connector : Connector.t) : bool :=
    Connector.canvas connector
    && negb (bool_decide (is_Some (Connector.startNode connector))
             && bool_decide (is_Some (Connector.endNode connector))).

End capture_restore_terms.

(** ** Markers of a snapshot *)

Section extractor_terms.
Context {QV : QtValue}.

  (** The external-connection markers of an item map, in key order. *)
Definition markers_of (items : gmap string ItemData.t) : list (string * ItemData.t) :=
    filter (fun it => is_marker it.2) (Qt.qmap_entries items).

End extractor_terms.

(** ** Adding to a snapshot *)

Definition is_Warning (e : LogEntry) : bool :=
  match e with Warning _ => true | _ => false end.

Section added_terms.
Context {QV : QtValue}.

  (** The entries of an item list that [addItems] hands to [addItemData]. *)
Definition accepted_items (PicItem_typeString : string)
      (itemList : list (string * Item.t)) : list (string * Item.t) :=
    filter (fun it => is_Some (captured_item PicItem_typeString it.2)) itemList.

  (** The last entry of a list stored under an identifier. *)
Definition last_with_id (id : string) (l : list (string * Item.t)) : option Item.t :=
    snd <$> last (filter (fun it => it.1 = id) l).

End added_terms.

(** * Facts about the Qt primitives *)

Section qmap.
Context {V : Type}.
Implicit Types (m : gmap string V) (k : string) (v : V).

#[global] Instance key_le_trans : Transitive (@Qt.key_le V).
Proof. intros a b c. unfold Qt.key_le. apply transitivity. Qed.

#[global] Instance key_le_total : Total (@Qt.key_le V).
Proof. intros a b. unfold Qt.key_le. apply total, _. Qed.

Lemma qmap_entries_perm m : Qt.qmap_entries m ≡ₚ map_to_list m.
Proof. apply merge_sort_Permutation. Qed.

Lemma elem_of_qmap_entries m k v : (k, v) ∈ Qt.qmap_entries m <-> m !! k = Some v.
Proof. rewrite qmap_entries_perm. apply elem_of_map_to_list. Qed.

Lemma NoDup_fst_qmap_entries m : NoDup (Qt.qmap_entries m).*1.
Proof. rewrite qmap_entries_perm. apply NoDup_fst_map_to_list. Qed.

Lemma NoDup_qmap_entries m : NoDup (Qt.qmap_entries m).
Proof. eapply NoDup_fmap_1, NoDup_fst_qmap_entries. Qed.

Lemma qmap_entries_sorted m : StronglySorted Qt.key_le (Qt.qmap_entries m).
Proof. apply StronglySorted_merge_sort; apply _. Qed.

Lemma elem_of_qmap_keys m k : k ∈ Qt.qmap_keys m <-> is_Some (m !! k).
Proof.
    unfold Qt.qmap_keys. rewrite list_elem_of_fmap. split.
    - intros [[k' v] [-> Hin]]. apply elem_of_qmap_entries in Hin. eauto.
    - intros [v Hv]. exists (k, v). split; [done|]. by apply elem_of_qmap_entries.
Qed.

Lemma qmap_entries_empty : Qt.qmap_entries (∅ : gmap string V) = [].
Proof.
    apply Permutation_nil_r. rewrite qmap_entries_perm. by rewrite map_to_list_empty.
Qed.

Lemma NoDup_fst_functional (l : list (string * V)) k v1 v2 :
    NoDup l.*1 -> (k, v1) ∈ l -> (k, v2) ∈ l -> v1 = v2.
Proof.
    intros Hnd H1 H2.
    pose proof (elem_of_list_to_map_1 (M := gmap string) l k v1 Hnd H1) as E1.
    pose proof (elem_of_list_to_map_1 (M := gmap string) l k v2 Hnd H2) as E2.
    congruence.
Qed.

Lemma StronglySorted_filter (R : relation (string * V)) (P : string * V -> Prop)
      `{!forall x, Decision (P x)} l :
    StronglySorted R l -> StronglySorted R (filter P l).
Proof.
    induction 1 as [|x l Hs IH Hall]; [constructor|].
    rewrite filter_cons. case_decide; [|done].
    constructor; [done|]. apply Forall_forall. intros y [_ Hy]%list_elem_of_filter.
    by eapply Forall_forall in Hall.
Qed.

  (** Two key-sorted entry lists with the same entries are the same list. *)
Lemma sorted_entries_unique (l1 l2 : list (string * V)) :
    NoDup l1.*1 -> StronglySorted Qt.key_le l1 -> StronglySorted Qt.key_le l2 ->
    l1 ≡ₚ l2 -> l1 = l2.
Proof.
    intros Hnd Hs1 Hs2 Hp. apply (StronglySorted_unique_strong Qt.key_le); [|done..].
    intros [k1 v1] [k2 v2] Hin1 Hin2 Hle1 Hle2.
    rewrite <- Hp in Hin2.
    assert (k1 = k2) as ->.
    { unfold Qt.key_le in *; simpl in *. by apply (anti_symm String.le). }
    f_equal. by eapply NoDup_fst_functional.
Qed.

Lemma qmap_entries_delete m k :
    Qt.qmap_entries (delete k m) = filter (fun it => it.1 <> k) (Qt.qmap_entries m).
Proof.
    apply sorted_entries_unique.
    - apply NoDup_fst_qmap_entries.
    - apply qmap_entries_sorted.
    - apply StronglySorted_filter, qmap_entries_sorted.
    - apply NoDup_Permutation.
      + apply NoDup_qmap_entries.
      + apply NoDup_filter, NoDup_qmap_entries.
      + intros [k' v']. rewrite list_elem_of_filter, !elem_of_qmap_entries. simpl.
        rewrite lookup_delete_Some. naive_solver.
Qed.

  (** [operator[]] *)
Lemma qmap_index_value dflt m k : (Qt.qmap_index dflt m k).1 = default dflt (m !! k).
Proof. unfold Qt.qmap_index. by destruct (m !! k). Qed.

Lemma qmap_index_present dflt m k v :
    m !! k = Some v -> Qt.qmap_index dflt m k = (v, m).
Proof. unfold Qt.qmap_index. by intros ->. Qed.

Lemma qmap_index_view dflt m k k' :
    default dflt ((Qt.qmap_index dflt m k).2 !! k') = default dflt (m !! k').
Proof.
    unfold Qt.qmap_index. destruct (m !! k) eqn:E; [done|]. simpl.
    destruct (decide (k = k')) as [<-|Hne].
    - by rewrite lookup_insert_eq, E.
    - by rewrite lookup_insert_ne.
Qed.

Lemma qmap_index_lookup_Some dflt m k k' v :
    m !! k' = Some v -> (Qt.qmap_index dflt m k).2 !! k' = Some v.
Proof.
    intros Hv. unfold Qt.qmap_index. destruct (m !! k) eqn:E; [done|]. simpl.
    rewrite lookup_insert_ne; [done|]. intros ->. congruence.
Qed.

End qmap.

Lemma foldl_ext {A B : Type} (f g : A -> B -> A) (a : A) (l : list B) :
  (forall a b, f a b = g a b) -> foldl f a l = foldl g a l.
Proof.
  intros Hfg. revert a. induction l as [|b l IH]; intros a; simpl; [done|].
  by rewrite Hfg, IH.
Qed.

Lemma filter_Forall_id {A : Type} (P : A -> Prop) `{!forall x, Decision (P x)} (l : list A) :
  Forall P l -> filter P l = l.
Proof.
  induction 1 as [|x l Hx _ IH]; [done|].
  rewrite filter_cons, decide_True by done. by rewrite IH.
Qed.

Lemma foldl_preserves {A B : Type} (P : A -> Prop) (f : A -> B -> A) (a : A) (l : list B) :
  (forall a b, b ∈ l -> P a -> P (f a b)) -> P a -> P (foldl f a l).
Proof.
  revert a. induction l as [|b l IH]; intros a Hf Ha; simpl; [done|].
  apply IH; [intros; apply Hf; set_solver|]. apply Hf; [set_solver|done].
Qed.

Lemma foldl_ext_in {A B : Type} (f g : A -> B -> A) (a : A) (l : list B) :
  (forall a b, b ∈ l -> f a b = g a b) -> foldl f a l = foldl g a l.
Proof.
  revert a. induction l as [|b l IH]; intros a Hfg; simpl; [done|].
  rewrite Hfg by set_solver. apply IH. intros; apply Hfg; set_solver.
Qed.

Section logged.
Context {A B : Type}.
Implicit Types (f : A -> B -> Logged A).

Lemma foldl_logged_nil f a : foldl_logged f a [] = (a, []).
Proof. done. Qed.

Lemma foldl_logged_gen f (acc : Logged A) l :
    foldl (fun acc b => let '(a', lg) := f acc.1 b in (a', acc.2 ++ lg)) acc l
    = ((foldl_logged f acc.1 l).1, acc.2 ++ (foldl_logged f acc.1 l).2).
Proof.
    unfold foldl_logged. revert acc.
    induction l as [|b l IH]; intros [a lg]; simpl.
    - by rewrite app_nil_r.
    - destruct (f a b) as [a' lg'] eqn:E. simpl.
      rewrite (IH (a', lg ++ lg')), (IH (a', lg')). simpl.
      by rewrite app_assoc.
Qed.

Lemma foldl_logged_cons f a b l :
    foldl_logged f a (b :: l)
    = ((foldl_logged f (f a b).1 l).1, (f a b).2 ++ (foldl_logged f (f a b).1 l).2).
Proof.
    unfold foldl_logged at 1. simpl. destruct (f a b) as [a' lg'] eqn:E.
    by rewrite foldl_logged_gen.
Qed.

Lemma foldl_logged_app f a l1 l2 :
    foldl_logged f a (l1 ++ l2)
    = ((foldl_logged f (foldl_logged f a l1).1 l2).1,
       (foldl_logged f a l1).2 ++ (foldl_logged f (foldl_logged f a l1).1 l2).2).
Proof.
    revert a. induction l1 as [|b l1 IH]; intros a.
    - simpl. by destruct (foldl_logged f a l2).
    - simpl. rewrite !foldl_logged_cons, IH. simpl. by rewrite app_assoc.
Qed.

Lemma foldl_logged_fst f a l :
    (foldl_logged f a l).1 = foldl (fun a b => (f a b).1) a l.
Proof.
    revert a. induction l as [|b l IH]; intros a; [done|].
    rewrite foldl_logged_cons. simpl. apply IH.
Qed.

End logged.

Section partial.
Context {A B : Type}.
Implicit Types (f : A -> B -> Partial A).

Lemma foldl_partial_nil f a : foldl_partial f a [] = Some (a, []).
Proof. done. Qed.

Lemma foldl_partial_none f l :
    foldl (fun acc b =>
             match acc with
             | Some (a, lg) =>
                 match f a b with
                 | Some (a', lg') => Some (a', lg ++ lg')
                 | None => None
                 end
             | None => None
             end) None l = None.
Proof. induction l as [|b l IH]; [done|]. exact IH. Qed.

Lemma foldl_partial_gen f a lg l :
    foldl (fun acc b =>
             match acc with
             | Some (a, lg) =>
                 match f a b with
                 | Some (a', lg') => Some (a', lg ++ lg')
                 | None => None
                 end
             | None => None
             end) (Some (a, lg)) l
    = match foldl_partial f a l with
      | Some (a', lg') => Some (a', lg ++ lg')
      | None => None
      end.
Proof.
    unfold foldl_partial. revert a lg.
    induction l as [|b l IH]; intros a lg; cbn [foldl].
    - by rewrite app_nil_r.
    - destruct (f a b) as [[a' lg']|].
      + rewrite (IH a' (lg ++ lg')), (IH a' ([] ++ lg')). cbn [app].
        destruct (foldl _ _ l) as [[a'' lg'']|]; [|done]. by rewrite app_assoc.
      + by rewrite foldl_partial_none.
Qed.

Lemma foldl_partial_cons f a b l :
    foldl_partial f a (b :: l)
    = match f a b with
      | Some (a', lg) =>
          match foldl_partial f a' l with
          | Some (a'', lg') => Some (a'', lg ++ lg')
          | None => None
          end
      | None => None
      end.
Proof.
    unfold foldl_partial at 1. cbn [foldl].
    destruct (f a b) as [[a' lg]|].
    - apply foldl_partial_gen.
    - apply foldl_partial_none.
Qed.

Lemma foldl_partial_app f a l1 l2 :
    foldl_partial f a (l1 ++ l2)
    = match foldl_partial f a l1 with
      | Some (a', lg) =>
          match foldl_partial f a' l2 with
          | Some (a'', lg') => Some (a'', lg ++ lg')
          | None => None
          end
      | None => None
      end.
Proof.
    revert a. induction l1 as [|b l1 IH]; intros a.
    - cbn [app]. rewrite foldl_partial_nil.
      by destruct (foldl_partial f a l2) as [[a' lg]|].
    - cbn [app]. rewrite !foldl_partial_cons.
      destruct (f a b) as [[a' lg]|]; [|done]. rewrite IH.
      destruct (foldl_partial f a' l1) as [[a'' lg']|]; [|done].
      destruct (foldl_partial f a'' l2) as [[a3 lg3]|]; [|done].
      by rewrite app_assoc.
Qed.

  (** A run of total steps. *)
Lemma foldl_partial_total (g : A -> B -> Logged A) a l :
    foldl_partial (fun a b => Some (g a b)) a l = Some (foldl_logged g a l).
Proof.
    revert a. induction l as [|b l IH]; intros a; [done|].
    rewrite foldl_partial_cons, foldl_logged_cons.
    destruct (g a b) as [a' lg]. cbn [fst snd]. rewrite IH.
    by destruct (foldl_logged g a' l).
Qed.

  (** A run returns exactly when every step does. *)
Lemma foldl_partial_returns f a l :
    (forall a b, b ∈ l -> is_Some (f a b)) -> is_Some (foldl_partial f a l).
Proof.
    revert a. induction l as [|b l IH]; intros a Hf; [by eexists|].
    rewrite foldl_partial_cons.
    destruct (Hf a b) as [[a' lg] E]; [by left|]. rewrite E.
    destruct (IH a') as [[a'' lg'] E']; [intros; apply Hf; by right|].
    rewrite E'. by eexists.
Qed.

Lemma foldl_partial_stuck f a l b :
    b ∈ l -> (forall a, f a b = None) -> foldl_partial f a l = None.
Proof.
    revert a. induction l as [|b' l IH]; intros a Hb Hf; [by apply elem_of_nil in Hb|].
    rewrite foldl_partial_cons. apply elem_of_cons in Hb as [->|Hb].
    - by rewrite Hf.
    - destruct (f a b') as [[a' lg]|]; [|done]. by rewrite (IH a').
Qed.

Lemma foldl_partial_invariant (P : A -> Prop) f a l r :
    (forall a b r, b ∈ l -> P a -> f a b = Some r -> P r.1) ->
    P a -> foldl_partial f a l = Some r -> P r.1.
Proof.
    revert a r. induction l as [|b l IH]; intros a r Hf Ha.
    - by intros [= <-].
    - rewrite foldl_partial_cons.
      destruct (f a b) as [[a' lg]|] eqn:E; [|done].
      destruct (foldl_partial f a' l) as [[a'' lg']|] eqn:E'; [|done].
      intros [= <-]. cbn [fst].
      apply (IH a' (a'', lg')); [|by apply (Hf a b (a', lg)); [left| |]|done].
      intros a0 b0 r0 Hb0. apply Hf. by right.
Qed.

End partial.

(** * The bit-array codec *)

Section codec.

Lemma resize_length data n : length (resize data n) = n.
Proof.
    unfold resize. rewrite length_app, length_take, length_replicate. lia.
Qed.

Lemma resize_ge data n :
    (length data <= n)%nat ->
    resize data n = data ++ replicate (n - length data) false.
Proof. intros Hn. unfold resize. by rewrite take_ge. Qed.

Lemma padded_length v : length (padded v) = (4 * ((length v + 3) / 4))%nat.
Proof.
    unfold padded. rewrite length_app, length_replicate.
    pose proof (Nat.div_mod_eq (length v) 4) as E.
    pose proof (Nat.mod_upper_bound (length v) 4 ltac:(lia)) as B.
    set (q := (length v / 4)%nat) in *. set (r := (length v mod 4)%nat) in *.
    rewrite E.
    assert (Hr : (r = 0 \/ r = 1 \/ r = 2 \/ r = 3)%nat) by lia.
    destruct Hr as [-> | [-> | [-> | ->]]].
    - rewrite <- (Nat.div_unique (4 * q + 0 + 3) 4 q 3) by lia.
      change ((4 - 0) mod 4)%nat with 0%nat. lia.
    - rewrite <- (Nat.div_unique (4 * q + 1 + 3) 4 (q + 1) 0) by lia.
      change ((4 - 1) mod 4)%nat with 3%nat. lia.
    - rewrite <- (Nat.div_unique (4 * q + 2 + 3) 4 (q + 1) 1) by lia.
      change ((4 - 2) mod 4)%nat with 2%nat. lia.
    - rewrite <- (Nat.div_unique (4 * q + 3 + 3) 4 (q + 1) 2) by lia.
      change ((4 - 3) mod 4)%nat with 1%nat. lia.
Qed.

Lemma toAsciiHex_padded v :
    toAsciiHex v =
    foldl (fun text i => text +:+ String (Qt.hex_digit (nibble_at (padded v) i)) "")
          "" (seq 0 (length (padded v) / 4)).
Proof.
    unfold toAsciiHex, padded.
    pose proof (Nat.mod_upper_bound (length v) 4 ltac:(lia)) as B.
    case_bool_decide as Hm.
    - rewrite resize_ge by lia.
      replace (length v + 4 - length v mod 4 - length v)%nat
        with ((4 - length v mod 4) mod 4)%nat; [done|].
      rewrite (Nat.mod_small (4 - _)) by lia. lia.
    - assert (length v mod 4 = 0)%nat as -> by lia. simpl.
      by rewrite app_nil_r.
Qed.

  (** Decoding the digit written for a nibble gives its bits back. *)
Lemma nibble_bit data i j :
    (j < 4)%nat ->
    bool_decide (Z.land (Qt.hex_value (Qt.hex_digit (nibble_at data i)))
                        (Z.shiftl 1 (Z.of_nat j)) <> 0)
    = testBit data (4 * i + j).
Proof.
    intros Hj. unfold nibble_at. cbn [seq foldl].
    assert (Hc : (j = 0 \/ j = 1 \/ j = 2 \/ j = 3)%nat) by lia.
    destruct Hc as [-> | [-> | [-> | ->]]];
      destruct (testBit data (4 * i + 0)), (testBit data (4 * i + 1)),
               (testBit data (4 * i + 2)), (testBit data (4 * i + 3));
      reflexivity.
Qed.

  (** The text is one digit per nibble. *)
Lemma append_char_length s c : String.length (s +:+ String c "") = S (String.length s).
Proof. induction s; simpl; congruence. Qed.

Lemma append_char_get_lt s c i :
    (i < String.length s)%nat -> String.get i (s +:+ String c "") = String.get i s.
Proof.
    revert i. induction s as [|a s IH]; intros i Hi; simpl in *; [lia|].
    destruct i; [done|]. apply IH. lia.
Qed.

Lemma append_char_get_eq s c :
    String.get (String.length s) (s +:+ String c "") = Some c.
Proof. induction s; simpl; auto. Qed.

Lemma digits_length (f : nat -> ascii) n :
    String.length (foldl (fun text i => text +:+ String (f i) "") "" (seq 0 n)) = n.
Proof.
    induction n as [|n IH]; [done|].
    rewrite seq_S, foldl_app. simpl. by rewrite append_char_length, IH.
Qed.

Lemma digits_get (f : nat -> ascii) n i :
    (i < n)%nat ->
    String.get i (foldl (fun text i => text +:+ String (f i) "") "" (seq 0 n)) = Some (f i).
Proof.
    induction n as [|n IH]; [lia|]. intros Hi.
    rewrite seq_S, foldl_app. simpl.
    destruct (decide (i = n)) as [->|Hne].
    - rewrite <- (digits_length f n) at 1. apply append_char_get_eq.
    - rewrite append_char_get_lt by (rewrite digits_length; lia).
      apply IH. lia.
Qed.

Lemma write_nibble_length val i data : length (write_nibble val i data) = length data.
Proof. unfold write_nibble. cbn [seq foldl]. by rewrite !length_insert. Qed.

Lemma write_nibble_lookup_other val i data k :
    (k < 4 * i \/ 4 * i + 4 <= k)%nat -> write_nibble val i data !! k = data !! k.
Proof.
    intros Hk. unfold write_nibble. cbn [seq foldl].
    rewrite !list_lookup_insert_ne by lia. done.
Qed.

Lemma write_nibble_lookup val i data j :
    (j < 4)%nat -> (4 * i + 4 <= length data)%nat ->
    write_nibble val i data !! (4 * i + j)%nat
    = Some (bool_decide (Z.land val (Z.shiftl 1 (Z.of_nat j)) <> 0)).
Proof.
    intros Hj Hlen. unfold write_nibble. cbn [seq foldl].
    assert (Hc : (j = 0 \/ j = 1 \/ j = 2 \/ j = 3)%nat) by lia.
    destruct Hc as [-> | [-> | [-> | ->]]].
    - rewrite !list_lookup_insert_ne by lia.
      rewrite list_lookup_insert_eq by (rewrite ?length_insert; lia). done.
    - rewrite !list_lookup_insert_ne by lia.
      rewrite list_lookup_insert_eq by (rewrite ?length_insert; lia). done.
    - rewrite !list_lookup_insert_ne by lia.
      rewrite list_lookup_insert_eq by (rewrite ?length_insert; lia). done.
    - rewrite list_lookup_insert_eq by (rewrite ?length_insert; lia). done.
Qed.

Lemma write_nibbles_length val n data : length (write_nibbles val n data) = length data.
Proof.
    unfold write_nibbles. induction n as [|n IH]; [done|].
    rewrite seq_S, foldl_app. simpl. by rewrite write_nibble_length.
Qed.

Lemma write_nibbles_lookup val n data i j :
    (i < n)%nat -> (j < 4)%nat -> (4 * n <= length data)%nat ->
    write_nibbles val n data !! (4 * i + j)%nat
    = Some (bool_decide (Z.land (val i) (Z.shiftl 1 (Z.of_nat j)) <> 0)).
Proof.
    unfold write_nibbles. induction n as [|n IH]; [lia|]. intros Hi Hj Hlen.
    rewrite seq_S, foldl_app. simpl.
    destruct (decide (i = n)) as [->|Hne].
    - apply write_nibble_lookup; [done|].
      fold (write_nibbles val n data). rewrite write_nibbles_length. lia.
    - rewrite write_nibble_lookup_other by lia. apply IH; lia.
Qed.

Lemma toQBitArray_nibbles text :
    toQBitArray text =
    write_nibbles (fun i => from_option Qt.hex_value 0 (String.get i text))
                  (String.length text)
                  (replicate (String.length text * 4) false).
Proof. reflexivity. Qed.

  (** Decoding what was encoded gives the padded array. *)
Lemma toQBitArray_toAsciiHex_padded v : toQBitArray (toAsciiHex v) = padded v.
Proof.
    rewrite toQBitArray_nibbles, toAsciiHex_padded.
    set (data := padded v).
    set (f := fun i => Qt.hex_digit (nibble_at data i)).
    assert (Hlen : length data = (4 * (length data / 4))%nat).
    { subst data. rewrite padded_length.
      rewrite (Nat.mul_comm 4), Nat.div_mul by lia. lia. }
    set (n := (length data / 4)%nat) in *.
    change (foldl _ "" (seq 0 n))
      with (foldl (fun text i => text +:+ String (f i) "") "" (seq 0 n)).
    rewrite digits_length.
    apply list_eq. intros k.
    destruct (decide (k < 4 * n)%nat) as [Hk|Hk].
    - pose proof (Nat.div_mod_eq k 4) as E.
      pose proof (Nat.mod_upper_bound k 4 ltac:(lia)) as B.
      rewrite E.
      rewrite write_nibbles_lookup;
        [| apply Nat.Div0.div_lt_upper_bound; lia | lia
         | rewrite length_replicate; lia].
      rewrite digits_get by (apply Nat.Div0.div_lt_upper_bound; lia).
      cbn [from_option]. subst f. cbv beta. rewrite nibble_bit by lia.
      unfold testBit. symmetry. apply list_lookup_lookup_total_lt. lia.
    - rewrite !lookup_ge_None_2; [done | lia |].
      rewrite write_nibbles_length, length_replicate. lia.
Qed.

End codec.

(** C6. Decoding the encoding of a bit vector [v] of length [n] gives a
    vector of length [ceil(n/4)*4] that agrees with [v] on its first [n]
    bits and is zero on the padding bits; the all-false vector of length 4
    is encoded as "0"; the empty string decodes to the zero-length vector. *)
Theorem bit_vector_codec (v : QBitArray) :
  let r := toQBitArray (toAsciiHex v) in
  length r = (4 * ((length v + 3) / 4))%nat
  /\ (forall k, (k < length v)%nat -> r !! k = v !! k)
  /\ (forall k, (length v <= k < length r)%nat -> r !! k = Some false)
  /\ toAsciiHex [false; false; false; false] = "0"
  /\ toQBitArray "" = [].
Proof.
  cbv zeta. rewrite toQBitArray_toAsciiHex_padded.
  split; [apply padded_length|].
  split; [intros k Hk; unfold padded; by rewrite lookup_app_l|].
  split; [|split; reflexivity].
  intros k [Hk1 Hk2]. unfold padded in *.
  rewrite lookup_app_r by done.
  rewrite length_app, length_replicate in Hk2.
  apply lookup_replicate_2. lia.
Qed.

(** * Geometry translation *)

Section translate.
Context `{QtValue}.

Lemma translateContents_item dx dy d k :
    m_itemDataMap (translateContents dx dy d) !! k
    = (fun it => ItemData.set_pos (ItemData.x it + dx) (ItemData.y it + dx) it)
        <$> m_itemDataMap d !! k.
Proof. unfold translateContents. simpl. by rewrite lookup_fmap. Qed.


Lemma translateContents_route dx dy d k c i p :
    m_connectorDataMap d !! k = Some c ->
    ConnectorData.route c !! i = Some p ->
    exists c', m_connectorDataMap (translateContents dx dy d) !! k = Some c'
      /\ ConnectorData.route c' !! i = Some (mkQPoint (px p + dx ÷ 8) (py p + dy ÷ 8)).
Proof.
    intros Hc Hp. unfold translateContents. simpl.
    rewrite lookup_fmap, Hc. simpl. eexists; split; [done|].
    simpl. by rewrite list_lookup_fmap, Hp.
Qed.

  (** C2. Translating by (80, 160): the node moves by (80, 160) and the
      connector waypoint by (10, 20), but the item moves by (80, 80): its y
      coordinate receives [dx], not [dy]. *)
Theorem translateContents_item_y_gets_dx :
    let d := translateContents 80 160 origin_snapshot in
    (ItemData.x <$> m_itemDataMap d !! "i") = Some 80
    /\ (ItemData.y <$> m_itemDataMap d !! "i") = Some 80
    /\ m_nodeDataMap d !! "n" = Some (NodeData.mk 80 160)
    /\ (ConnectorData.route <$> m_connectorDataMap d !! "c") = Some [mkQPoint 10 20].
Proof. repeat split; reflexivity. Qed.

End translate.

(** * Capture *)

Section capture.
Context `{QtValue}.

Lemma reset_maps d :
    m_itemDataMap (reset d) = ∅ /\ m_connectorDataMap (reset d) = ∅
    /\ m_nodeDataMap (reset d) = ∅ /\ m_documentType (reset d) = dt_none
    /\ MicroData.pinMap (m_microData (reset d)) = ∅
    /\ MicroData.id (m_microData (reset d)) = "".
Proof. by repeat split. Qed.

Lemma reset_keeps_micro_maps d :
    MicroData.variableMap (m_microData (reset d)) = MicroData.variableMap (m_microData d)
    /\ MicroData.pinMappings (m_microData (reset d)) = MicroData.pinMappings (m_microData d).
Proof. by split. Qed.

  (** C10. Capturing an (empty) circuit document into a snapshot used before:
      the item, connector and node maps and the micro record's pin map are
      cleared, but its variable map and pin mappings survive the capture. *)
Theorem saveDocumentState_keeps_variables_and_pin_mappings (PicItem_typeString : string) :
    let d := (saveDocumentState PicItem_typeString (Some empty_circuit_document)
                used_snapshot).1 in
    m_itemDataMap d = ∅ /\ m_connectorDataMap d = ∅ /\ m_nodeDataMap d = ∅
    /\ m_documentType d = dt_circuit
    /\ MicroData.pinMap (m_microData d) = ∅
    /\ MicroData.variableMap (m_microData d) = {["count" := "3"]}
    /\ MicroData.pinMappings (m_microData d)
       = {["display" := PinMapping.mk PinMapping.SevenSegment ["RB0"; "RB1"]]}.
Proof. repeat split; reflexivity. Qed.

End capture.

(** * The identifier remapper *)


Section remap_proofs.
Context {QV : QtValue} {US : UIDSource}.

Lemma table_inv_init doc0 : table_inv doc0 (<["" := ""]> (<["" := ""]> ∅)) doc0.
Proof.
    rewrite insert_insert_eq. split.
    - by rewrite lookup_insert_eq.
    - intros k u Hk Hne. rewrite lookup_insert_ne in Hk by done. by rewrite lookup_empty in Hk.
    - intros k1 k2 u H1 H2.
      apply lookup_insert_Some in H1 as [[<- _]|[_ H1]]; [|by rewrite lookup_empty in H1].
      apply lookup_insert_Some in H2 as [[<- _]|[_ H2]]; [done|by rewrite lookup_empty in H2].
    - by destruct doc0.
    - done.
    - auto.
Qed.

  (** One [rekey] step. *)
Lemma rekey_step {V} doc0 replaced doc (newMap : gmap string V) k v :
    table_inv doc0 replaced doc ->
    exists replaced' doc',
      rekey (replaced, doc, newMap) (k, v)
      = (replaced', doc', <[default "" (replaced' !! k) := v]> newMap)
      /\ table_inv doc0 replaced' doc'
      /\ replaced ⊆ replaced'
      /\ is_Some (replaced' !! k)
      /\ (forall k', is_Some (replaced' !! k') -> k' = k \/ is_Some (replaced !! k')).
Proof.
    intros Hinv. unfold rekey. simpl.
    case_bool_decide as Hk.
    - destruct Hk as [u Hu].
      rewrite (qmap_index_present _ _ _ _ Hu).
      exists replaced, doc. rewrite Hu. simpl.
      split; [done|]. split; [done|]. split; [done|]. split; eauto.
    - apply eq_None_not_Some in Hk.
      set (u := mint k (doc_uids doc)).
      assert (Hfresh : u ∉ doc_uids doc) by apply mint_fresh.
      assert (Hne : u <> "") by apply mint_nonempty.
      assert (Hk0 : k <> "") by (intros ->; rewrite (inv_empty _ _ _ Hinv) in Hk; done).
      unfold generateUID. fold u.
      rewrite (qmap_index_present _ _ _ u) by apply lookup_insert_eq.
      exists (<[k := u]> replaced), (registerUID u doc).
      rewrite lookup_insert_eq. simpl.
      split; [done|]. split; [|split; [by apply insert_subseteq|split]].
      + split.
        * rewrite lookup_insert_ne by done. apply Hinv.
        * intros k' u' Hk' Hne'. simpl.
          apply lookup_insert_Some in Hk' as [[<- <-]|[Hkk Hk']].
          -- split; [done|]. split; [set_solver|].
             intros Hin. apply Hfresh. by apply (inv_mono _ _ _ Hinv).
          -- destruct (inv_fresh _ _ _ Hinv _ _ Hk' Hne') as (?&?&?).
             split; [done|]. split; [set_solver|done].
        * intros k1 k2 u' H1 H2.
          apply lookup_insert_Some in H1 as [[<- <-]|[Hk1 H1]];
            apply lookup_insert_Some in H2 as [[<- E2]|[Hk2 H2]]; try done.
          -- exfalso. destruct (decide (k2 = "")) as [->|Hk2e].
             ++ rewrite (inv_empty _ _ _ Hinv) in H2. congruence.
             ++ destruct (inv_fresh _ _ _ Hinv _ _ H2 Hk2e) as (_&Hin&_). done.
          -- exfalso. subst u'. destruct (decide (k1 = "")) as [->|Hk1e].
             ++ rewrite (inv_empty _ _ _ Hinv) in H1. congruence.
             ++ destruct (inv_fresh _ _ _ Hinv _ _ H1 Hk1e) as (_&Hin&_). done.
          -- by eapply (inv_inj _ _ _ Hinv).
        * unfold registerUID. rewrite (inv_doc _ _ _ Hinv). by destruct doc0.
        * simpl. pose proof (inv_mono _ _ _ Hinv). set_solver.
        * simpl. intros u' [->%elem_of_singleton|Hin]%elem_of_union.
          -- right. exists k. split; [done|]. apply lookup_insert_eq.
          -- destruct (inv_minted _ _ _ Hinv _ Hin) as [?|(k'&?&Hk')]; [by left|].
             right. exists k'. split; [done|].
             rewrite lookup_insert_ne; [done|]. intros ->. congruence.
      + eauto.
      + intros k' [u' Hk']. apply lookup_insert_Some in Hk' as [[<- _]|[_ Hk']]; eauto.
Qed.

  (** A whole re-keying loop. *)
Lemma rekey_fold {V} doc0 (l : list (string * V)) replaced doc (newMap : gmap string V) :
    table_inv doc0 replaced doc ->
    exists replaced' doc',
      foldl rekey (replaced, doc, newMap) l
      = (replaced', doc',
         foldl (fun nm it => <[default "" (replaced' !! it.1) := it.2]> nm) newMap l)
      /\ table_inv doc0 replaced' doc'
      /\ replaced ⊆ replaced'
      /\ (forall k, k ∈ l.*1 -> is_Some (replaced' !! k))
      /\ (forall k, is_Some (replaced' !! k) -> k ∈ l.*1 \/ is_Some (replaced !! k)).
Proof.
    revert replaced doc newMap.
    induction l as [|[k v] l IH]; intros replaced doc newMap Hinv.
    - exists replaced, doc. simpl.
      split; [done|]. split; [done|]. split; [done|]. split; [set_solver|eauto].
    - destruct (rekey_step doc0 replaced doc newMap k v Hinv)
        as (r1 & d1 & E1 & Hinv1 & Hsub1 & Hk1 & Hdom1).
      destruct (IH r1 d1 (<[default "" (r1 !! k) := v]> newMap) Hinv1)
        as (r2 & d2 & E2 & Hinv2 & Hsub2 & Hk2 & Hdom2).
      exists r2, d2. cbn [foldl]. rewrite E1, E2.
      split; [|split; [done|split; [by etrans|split]]].
      + simpl. destruct Hk1 as [u Hu].
        by rewrite Hu, (lookup_weaken _ _ _ _ Hu Hsub2).
      + intros k' [->|Hin]%elem_of_cons.
        * destruct Hk1 as [u Hu]. exists u. by eapply lookup_weaken.
        * by apply Hk2.
      + intros k' Hk'. simpl. destruct (Hdom2 _ Hk') as [?|Hr1]; [set_solver|].
        destruct (Hdom1 _ Hr1) as [->|?]; [set_solver|by right].
Qed.

  (** Re-keying with a substitution that is injective on the keys. *)
Lemma rekeyed_lookup {V} (s : string -> string) (l : list (string * V)) u v :
    NoDup l.*1 ->
    (forall k1 k2, k1 ∈ l.*1 -> k2 ∈ l.*1 -> s k1 = s k2 -> k1 = k2) ->
    foldl (fun nm it => <[s it.1 := it.2]> nm) (∅ : gmap string V) l !! u = Some v
    <-> exists k, (k, v) ∈ l /\ s k = u.
Proof.
    induction l as [|[k' v'] l IH] using rev_ind; intros Hnd Hinj.
    - simpl. rewrite lookup_empty. split; [done|]. intros (k&Hin&_). by apply elem_of_nil in Hin.
    - rewrite fmap_app in Hnd, Hinj. simpl in Hnd, Hinj.
      apply NoDup_app in Hnd as (Hnd & Hdisj & _).
      rewrite foldl_app. simpl.
      destruct (decide (s k' = u)) as [<-|Hne].
      + rewrite lookup_insert_eq. split.
        * intros [= ->]. exists k'. split; [|done]. set_solver.
        * intros (k & Hin & Hs). apply elem_of_app in Hin as [Hin|Hin].
          -- exfalso. assert (k = k') as ->.
             { apply Hinj; [|set_solver|done]. apply elem_of_app. left.
               apply list_elem_of_fmap. by exists (k, v). }
             apply (Hdisj k'); [|set_solver]. apply list_elem_of_fmap. by exists (k', v).
          -- apply list_elem_of_singleton in Hin. by simplify_eq.
      + rewrite lookup_insert_ne by done. rewrite IH; [|done|].
        * split; intros (k & Hin & Hs); exists k; (split; [|done]); [set_solver|].
          apply elem_of_app in Hin as [?|Hin]; [done|].
          apply list_elem_of_singleton in Hin. by simplify_eq.
        * intros k1 k2 Hk1 Hk2. apply Hinj; set_solver.
Qed.

Lemma rekeyed_dom {V} (s : string -> string) (l : list (string * V)) u :
    is_Some (foldl (fun nm it => <[s it.1 := it.2]> nm) (∅ : gmap string V) l !! u)
    <-> exists k, k ∈ l.*1 /\ s k = u.
Proof.
    induction l as [|[k' v'] l IH] using rev_ind.
    - simpl. rewrite lookup_empty. split; [by intros [? ?]|]. intros (k&Hin&_). set_solver.
    - rewrite foldl_app, fmap_app. simpl.
      destruct (decide (s k' = u)) as [<-|Hne].
      + rewrite lookup_insert_eq. split; [|eauto]. intros _. exists k'. set_solver.
      + rewrite lookup_insert_ne by done. rewrite IH.
        split; intros (k & Hin & Hs); exists k; (split; [|done]); [set_solver|].
        apply elem_of_app in Hin as [?|Hin]; [done|].
        apply list_elem_of_singleton in Hin. by simplify_eq.
Qed.

  (** In-place update of every value of a map, one entry at a time. *)
Lemma update_entries_fmap {V} (g : V -> V) (m : gmap string V) :
    foldl (fun nm it => <[it.1 := g it.2]> nm) m (Qt.qmap_entries m) = g <$> m.
Proof.
    assert (Hgen : forall (l : list (string * V)) (m0 : gmap string V),
               (forall k v, (k, v) ∈ l -> m !! k = Some v) ->
               forall k, foldl (fun nm it => <[it.1 := g it.2]> nm) m0 l !! k
                         = if decide (k ∈ l.*1) then g <$> m !! k else m0 !! k).
    { induction l as [|[k' v'] l IH] using rev_ind; intros m0 Hl k.
      - done.
      - rewrite foldl_app, fmap_app. simpl.
        destruct (decide (k' = k)) as [->|Hne].
        + rewrite lookup_insert_eq. case_decide as Hin; [|set_solver].
          rewrite (Hl k v') by set_solver. done.
        + rewrite lookup_insert_ne by done. rewrite IH by (intros; apply Hl; set_solver).
          repeat case_decide; set_solver. }
    apply map_eq. intros k. rewrite Hgen by (intros ? ?; apply elem_of_qmap_entries).
    rewrite lookup_fmap. case_decide as Hk; [done|].
    destruct (m !! k) as [v|] eqn:E; [|done].
    exfalso. apply Hk. apply elem_of_qmap_keys. eauto.
Qed.

Lemma relink_item_step replaced nm k v :
    exists replaced',
      relink_item (replaced, nm) (k, v)
      = (replaced', <[k := remap_item (view replaced) v]> nm)
      /\ (forall k', view replaced' k' = view replaced k').
Proof.
    unfold relink_item. cbn [fst snd].
    pose proof (qmap_index_value "" replaced (ItemData.parentId v)) as Hp.
    pose proof (qmap_index_view "" replaced (ItemData.parentId v)) as Hr.
    destruct (Qt.qmap_index "" replaced (ItemData.parentId v)) as [p r1].
    simpl in Hp, Hr. subst p. by exists r1.
Qed.

Lemma relink_item_fold (l : list (string * ItemData.t)) replaced nm :
    exists replaced',
      foldl relink_item (replaced, nm) l
      = (replaced', foldl (fun nm it => <[it.1 := remap_item (view replaced) it.2]> nm) nm l)
      /\ (forall k, view replaced' k = view replaced k).
Proof.
    revert replaced nm. induction l as [|[k v] l IH]; intros replaced nm.
    - exists replaced. by split.
    - cbn [foldl].
      destruct (relink_item_step replaced nm k v) as (r1 & -> & Hr1).
      destruct (IH r1 (<[k := remap_item (view replaced) v]> nm)) as (r2 & -> & Hr2).
      exists r2. split.
      + f_equal. apply foldl_ext. intros nm' [k' v']. simpl.
        unfold remap_item. by rewrite Hr1.
      + intros k'. by rewrite Hr2.
Qed.

Lemma relink_connector_step replaced nm k v :
    exists replaced',
      relink_connector (replaced, nm) (k, v)
      = (replaced', <[k := remap_connector (view replaced) v]> nm)
      /\ (forall k', view replaced' k' = view replaced k').
Proof.
    unfold relink_connector. cbn [fst snd].
    pose proof (qmap_index_value "" replaced (ConnectorData.startNodeParent v)) as Hp1.
    pose proof (qmap_index_view "" replaced (ConnectorData.startNodeParent v)) as Hr1.
    destruct (Qt.qmap_index "" replaced (ConnectorData.startNodeParent v)) as [sp r1].
    simpl in *.
    pose proof (qmap_index_value "" r1 (ConnectorData.endNodeParent v)) as Hp2.
    pose proof (qmap_index_view "" r1 (ConnectorData.endNodeParent v)) as Hr2.
    destruct (Qt.qmap_index "" r1 (ConnectorData.endNodeParent v)) as [ep r2].
    simpl in *.
    pose proof (qmap_index_value "" r2 (ConnectorData.startNodeId v)) as Hp3.
    pose proof (qmap_index_view "" r2 (ConnectorData.startNodeId v)) as Hr3.
    destruct (Qt.qmap_index "" r2 (ConnectorData.startNodeId v)) as [si r3].
    simpl in *.
    pose proof (qmap_index_value "" r3 (ConnectorData.endNodeId v)) as Hp4.
    pose proof (qmap_index_view "" r3 (ConnectorData.endNodeId v)) as Hr4.
    destruct (Qt.qmap_index "" r3 (ConnectorData.endNodeId v)) as [ei r4].
    simpl in *.
    assert (Hv : forall k', view r4 k' = view replaced k').
    { intros k'. unfold view. by rewrite Hr4, Hr3, Hr2, Hr1. }
    exists r4. split; [|done].
    f_equal. f_equal. unfold remap_connector, view. simpl.
    subst sp ep si ei. by rewrite ?Hr3, ?Hr2, ?Hr1.
Qed.

Lemma relink_connector_fold (l : list (string * ConnectorData.t)) replaced nm :
    exists replaced',
      foldl relink_connector (replaced, nm) l
      = (replaced',
         foldl (fun nm it => <[it.1 := remap_connector (view replaced) it.2]> nm) nm l)
      /\ (forall k, view replaced' k = view replaced k).
Proof.
    revert replaced nm. induction l as [|[k v] l IH]; intros replaced nm.
    - exists replaced. by split.
    - cbn [foldl].
      destruct (relink_connector_step replaced nm k v) as (r1 & -> & Hr1).
      destruct (IH r1 (<[k := remap_connector (view replaced) v]> nm)) as (r2 & -> & Hr2).
      exists r2. split.
      + f_equal. apply foldl_ext. intros nm' [k' v']. simpl.
        unfold remap_connector. by rewrite !Hr1.
      + intros k'. by rewrite Hr2.
Qed.

Lemma is_used_spec d k : is_used d k = true <-> used_id d k.
Proof.
    unfold is_used, used_id. rewrite !orb_true_iff, !bool_decide_eq_true. tauto.
Qed.

  (** The table and the re-keyed maps at the end of the first half. *)
Lemma replace_ids_spec doc d :
    exists replaced doc',
      replace_ids doc d
      = (replaced, doc', rekeyed (view replaced) (m_itemDataMap d),
         rekeyed (view replaced) (m_nodeDataMap d),
         rekeyed (view replaced) (m_connectorDataMap d))
      /\ table_inv doc replaced doc'
      /\ (forall k, is_Some (replaced !! k) <-> k = "" \/ used_id d k).
Proof.
    unfold replace_ids.
    destruct (rekey_fold doc (Qt.qmap_entries (m_itemDataMap d)) _ doc
                (∅ : gmap string ItemData.t) (table_inv_init doc))
      as (r1 & d1 & -> & Hinv1 & Hsub1 & Hk1 & Hdom1).
    destruct (rekey_fold doc (Qt.qmap_entries (m_nodeDataMap d)) r1 d1
                (∅ : gmap string NodeData.t) Hinv1)
      as (r2 & d2 & -> & Hinv2 & Hsub2 & Hk2 & Hdom2).
    destruct (rekey_fold doc (Qt.qmap_entries (m_connectorDataMap d)) r2 d2
                (∅ : gmap string ConnectorData.t) Hinv2)
      as (r3 & d3 & -> & Hinv3 & Hsub3 & Hk3 & Hdom3).
    exists r3, d3. split; [|split; [done|]].
    - assert (E1 : foldl (fun nm it => <[default "" (r1 !! it.1) := it.2]> nm)
                     (∅ : gmap string ItemData.t) (Qt.qmap_entries (m_itemDataMap d))
                   = rekeyed (view r3) (m_itemDataMap d)).
      { apply foldl_ext_in. intros nm [k v] Hin. simpl.
        destruct (Hk1 k) as [u Hu]; [apply list_elem_of_fmap; by exists (k, v)|].
        unfold view. rewrite Hu. by rewrite (lookup_weaken _ r3 _ _ Hu) by (by etrans). }
      assert (E2 : foldl (fun nm it => <[default "" (r2 !! it.1) := it.2]> nm)
                     (∅ : gmap string NodeData.t) (Qt.qmap_entries (m_nodeDataMap d))
                   = rekeyed (view r3) (m_nodeDataMap d)).
      { apply foldl_ext_in. intros nm [k v] Hin. simpl.
        destruct (Hk2 k) as [u Hu]; [apply list_elem_of_fmap; by exists (k, v)|].
        unfold view. rewrite Hu. by rewrite (lookup_weaken _ r3 _ _ Hu). }
      by rewrite E1, E2.
    - intros k. fold (Qt.qmap_keys (m_itemDataMap d)) in Hk1, Hdom1.
      fold (Qt.qmap_keys (m_nodeDataMap d)) in Hk2, Hdom2.
      fold (Qt.qmap_keys (m_connectorDataMap d)) in Hk3, Hdom3.
      setoid_rewrite elem_of_qmap_keys in Hk1. setoid_rewrite elem_of_qmap_keys in Hdom1.
      setoid_rewrite elem_of_qmap_keys in Hk2. setoid_rewrite elem_of_qmap_keys in Hdom2.
      setoid_rewrite elem_of_qmap_keys in Hk3. setoid_rewrite elem_of_qmap_keys in Hdom3.
      unfold used_id. split.
      + intros Hk. destruct (Hdom3 _ Hk) as [?|Hr2]; [tauto|].
        destruct (Hdom2 _ Hr2) as [?|Hr1]; [tauto|].
        destruct (Hdom1 _ Hr1) as [?|[u Hu]]; [tauto|].
        rewrite insert_insert_eq in Hu.
        apply lookup_insert_Some in Hu as [[<- _]|[_ Hu]]; [tauto|].
        by rewrite lookup_empty in Hu.
      + intros [->|[Hk|[Hk|Hk]]].
        * rewrite (inv_empty _ _ _ Hinv3). eauto.
        * destruct (Hk1 _ Hk) as [u Hu]. exists u.
          eapply lookup_weaken; [done|]. by etrans.
        * destruct (Hk2 _ Hk) as [u Hu]. exists u. by eapply lookup_weaken.
        * by apply Hk3.
Qed.

Lemma generateUniqueIDs_spec doc d :
    exists replaced doc',
      generateUniqueIDs (Some doc) d
      = (mkItemDocumentData
           (remap_item (view replaced) <$> rekeyed (view replaced) (m_itemDataMap d))
           (remap_connector (view replaced)
              <$> rekeyed (view replaced) (m_connectorDataMap d))
           (rekeyed (view replaced) (m_nodeDataMap d))
           (m_microData d) (m_documentType d),
         Some doc')
      /\ replaced_table doc d = replaced
      /\ table_inv doc replaced doc'
      /\ (forall k, is_Some (replaced !! k) <-> k = "" \/ used_id d k).
Proof.
    destruct (replace_ids_spec doc d) as (r & doc' & E & Hinv & Hdom).
    exists r, doc'. unfold generateUniqueIDs, replaced_table. rewrite E.
    split; [|by split].
    destruct (relink_item_fold (Qt.qmap_entries (rekeyed (view r) (m_itemDataMap d)))
                r (rekeyed (view r) (m_itemDataMap d))) as (r' & -> & Hr').
    destruct (relink_connector_fold
                (Qt.qmap_entries (rekeyed (view r) (m_connectorDataMap d)))
                r' (rekeyed (view r) (m_connectorDataMap d))) as (r'' & -> & Hr'').
    rewrite !update_entries_fmap. do 2 f_equal.
    apply map_fmap_ext. intros k c _. unfold remap_connector. by rewrite !Hr'.
Qed.

Lemma table_inj_on_used doc d replaced doc' k1 k2 :
    table_inv doc replaced doc' ->
    (forall k, is_Some (replaced !! k) <-> k = "" \/ used_id d k) ->
    used_id d k1 -> used_id d k2 -> view replaced k1 = view replaced k2 -> k1 = k2.
Proof.
    intros Hinv Hdom H1 H2. unfold view.
    destruct (proj2 (Hdom k1) (or_intror H1)) as [u1 E1].
    destruct (proj2 (Hdom k2) (or_intror H2)) as [u2 E2].
    rewrite E1, E2. simpl. intros ->. by eapply (inv_inj _ _ _ Hinv).
Qed.

Lemma rekeyed_used_lookup {V} doc d replaced doc' (m : gmap string V) k v :
    table_inv doc replaced doc' ->
    (forall k, is_Some (replaced !! k) <-> k = "" \/ used_id d k) ->
    (forall k, is_Some (m !! k) -> used_id d k) ->
    m !! k = Some v -> rekeyed (view replaced) m !! view replaced k = Some v.
Proof.
    intros Hinv Hdom Hm Hk. unfold rekeyed. apply rekeyed_lookup.
    - apply NoDup_fst_qmap_entries.
    - intros k1 k2 Hk1%elem_of_qmap_keys Hk2%elem_of_qmap_keys.
      eapply table_inj_on_used; eauto.
    - exists k. split; [|done]. by apply elem_of_qmap_entries.
Qed.

End remap_proofs.

Section remap_facts.
Context {QV : QtValue} {US : UIDSource}.
Variables (doc : ItemDocument) (d : ItemDocumentData).

Let s := replaced_at doc d.
Let d' := (generateUniqueIDs (Some doc) d).1.
Let doc' := default doc (generateUniqueIDs (Some doc) d).2.

Lemma remap_empty : s "" = "".
Proof.
    destruct (generateUniqueIDs_spec doc d) as (r & doc1 & E & Et & Hinv & Hdom).
    subst s. unfold replaced_at. rewrite Et. by rewrite (inv_empty _ _ _ Hinv).
Qed.

Lemma remap_injective k1 k2 :
    used_id d k1 -> used_id d k2 -> s k1 = s k2 -> k1 = k2.
Proof.
    destruct (generateUniqueIDs_spec doc d) as (r & doc1 & E & Et & Hinv & Hdom).
    subst s. unfold replaced_at. rewrite Et. by eapply table_inj_on_used.
Qed.

Lemma remap_fresh k :
    used_id d k -> k <> "" ->
    s k <> "" /\ (s k ∉ doc_uids doc) /\ s k ∈ doc_uids doc'.
Proof.
    destruct (generateUniqueIDs_spec doc d) as (r & doc1 & E & Et & Hinv & Hdom).
    subst s doc'. unfold replaced_at. rewrite Et, E. simpl.
    intros Hk Hne. destruct (proj2 (Hdom k) (or_intror Hk)) as [u Hu].
    rewrite Hu. simpl.
    destruct (inv_fresh _ _ _ Hinv _ _ Hu Hne) as (?&?&?). done.
Qed.

Lemma remap_minted u :
    u ∈ doc_uids doc' -> u ∉ doc_uids doc ->
    exists k, used_id d k /\ k <> "" /\ s k = u.
Proof.
    destruct (generateUniqueIDs_spec doc d) as (r & doc1 & E & Et & Hinv & Hdom).
    subst s doc'. unfold replaced_at. rewrite Et, E. simpl.
    intros Hin Hnin.
    destruct (inv_minted _ _ _ Hinv u Hin) as [?|(k & Hne & Hk)]; [done|].
    exists k. split; [|split; [done|]].
    - destruct (proj1 (Hdom k) (mk_is_Some _ _ Hk)) as [->|?]; done.
    - by rewrite Hk.
Qed.

Lemma remap_item_lookup k it :
    m_itemDataMap d !! k = Some it -> m_itemDataMap d' !! s k = Some (remap_item s it).
Proof.
    destruct (generateUniqueIDs_spec doc d) as (r & doc1 & E & Et & Hinv & Hdom).
    assert (Hs : s = view r) by (subst s; unfold replaced_at; by rewrite Et).
    subst d'. rewrite Hs, E. cbn [fst m_itemDataMap].
    intros Hk. rewrite lookup_fmap.
    erewrite rekeyed_used_lookup; eauto.
    intros k' Hk'. by left.
Qed.

Lemma remap_connector_lookup k c :
    m_connectorDataMap d !! k = Some c ->
    m_connectorDataMap d' !! s k = Some (remap_connector s c).
Proof.
    destruct (generateUniqueIDs_spec doc d) as (r & doc1 & E & Et & Hinv & Hdom).
    assert (Hs : s = view r) by (subst s; unfold replaced_at; by rewrite Et).
    subst d'. rewrite Hs, E. cbn [fst m_connectorDataMap].
    intros Hk. rewrite lookup_fmap.
    erewrite rekeyed_used_lookup; eauto.
    intros k' Hk'. right. by right.
Qed.

Lemma remap_node_lookup k n :
    m_nodeDataMap d !! k = Some n -> m_nodeDataMap d' !! s k = Some n.
Proof.
    destruct (generateUniqueIDs_spec doc d) as (r & doc1 & E & Et & Hinv & Hdom).
    assert (Hs : s = view r) by (subst s; unfold replaced_at; by rewrite Et).
    subst d'. rewrite Hs, E. cbn [fst m_nodeDataMap].
    intros Hk. eapply rekeyed_used_lookup; eauto.
    intros k' Hk'. right. by left.
Qed.

End remap_facts.

(** C3. The substitution [generateUniqueIDs] builds is a bijection from the
    identifiers used in the three maps onto the freshly minted identifiers,
    except that the empty string is mapped to itself; every record is found
    under the image of its key with its parent / node references replaced by
    their images (the empty string staying empty) and its child-slot
    identifiers unchanged. *)
Theorem generateUniqueIDs_bijection {QV : QtValue} {US : UIDSource}
    (doc : ItemDocument) (d : ItemDocumentData) :
  let s := replaced_at doc d in
  let d' := (generateUniqueIDs (Some doc) d).1 in
  let doc' := default doc (generateUniqueIDs (Some doc) d).2 in
  s "" = ""
  /\ (forall k1 k2, used_id d k1 -> used_id d k2 -> s k1 = s k2 -> k1 = k2)
  /\ (forall k, used_id d k -> k <> "" ->
        s k <> "" /\ (s k ∉ doc_uids doc) /\ s k ∈ doc_uids doc')
  /\ (forall u, u ∈ doc_uids doc' -> u ∉ doc_uids doc ->
        exists k, used_id d k /\ k <> "" /\ s k = u)
  /\ (forall k it, m_itemDataMap d !! k = Some it ->
        m_itemDataMap d' !! s k = Some (remap_item s it))
  /\ (forall k c, m_connectorDataMap d !! k = Some c ->
        m_connectorDataMap d' !! s k = Some (remap_connector s c))
  /\ (forall k n, m_nodeDataMap d !! k = Some n -> m_nodeDataMap d' !! s k = Some n)
  /\ (forall it, ItemData.parentId it = "" -> ItemData.parentId (remap_item s it) = "")
  /\ (forall c,
        ConnectorData.startNodeCId (remap_connector s c) = ConnectorData.startNodeCId c
        /\ ConnectorData.endNodeCId (remap_connector s c) = ConnectorData.endNodeCId c).
Proof.
  cbv zeta.
  split; [apply remap_empty|].
  split; [apply remap_injective|].
  split; [apply remap_fresh|].
  split; [apply remap_minted|].
  split; [apply remap_item_lookup|].
  split; [apply remap_connector_lookup|].
  split; [apply remap_node_lookup|].
  split; [|by split].
  intros it Hp. unfold remap_item. simpl. rewrite Hp. apply remap_empty.
Qed.

(** * Concrete collaborators for the examples *)

Lemma length_underscores n : String.length (underscores n) = n.
Proof. induction n as [|n IH]; simpl; [done|by rewrite IH]. Qed.

Lemma length_string_app s1 s2 :
  String.length (s1 +:+ s2) = (String.length s1 + String.length s2)%nat.
Proof. induction s1 as [|a s1 IH]; simpl; [done|by rewrite IH]. Qed.

Lemma longest_ge l s : s ∈ l -> (String.length s <= longest l)%nat.
Proof.
  induction l as [|s' l IH]; [by intros ?%elem_of_nil|].
  intros [->|Hin]%elem_of_cons; simpl; [lia|]. specialize (IH Hin). lia.
Qed.

Lemma example_mint_length seed used :
  (longest (elements used) < String.length (example_mint seed used))%nat.
Proof.
  unfold example_mint. rewrite length_string_app, length_underscores. lia.
Qed.

#[local] Instance example_uids : UIDSource.
Proof.
  refine {| mint := example_mint |}.
  - intros seed used Hin. apply elem_of_elements, longest_ge in Hin.
    pose proof (example_mint_length seed used). lia.
  - intros seed used E. pose proof (example_mint_length seed used) as Hl.
    rewrite E in Hl. simpl in Hl. lia.
Defined.

(** * Parents after a remap *)

Section parents.
Context {QV : QtValue} {US : UIDSource}.

Lemma remapped_item_inv doc d k' it' :
    m_itemDataMap (generateUniqueIDs (Some doc) d).1 !! k' = Some it' ->
    exists k it, m_itemDataMap d !! k = Some it
      /\ k' = replaced_at doc d k
      /\ it' = remap_item (replaced_at doc d) it.
Proof.
    destruct (generateUniqueIDs_spec doc d) as (r & doc1 & E & Et & Hinv & Hdom).
    assert (Hs : replaced_at doc d = view r).
    { unfold replaced_at. by rewrite Et. }
    rewrite Hs, E. cbn [fst m_itemDataMap]. rewrite lookup_fmap.
    destruct (rekeyed (view r) (m_itemDataMap d) !! k') as [it|] eqn:Hk; [|done].
    intros [= <-]. unfold rekeyed in Hk. apply rekeyed_lookup in Hk.
    - destruct Hk as (k & Hin%elem_of_qmap_entries & <-). by exists k, it.
    - apply NoDup_fst_qmap_entries.
    - intros k1 k2 Hk1%elem_of_qmap_keys Hk2%elem_of_qmap_keys.
      eapply table_inj_on_used; eauto; by left.
Qed.

Lemma unused_maps_to_empty doc d k :
    ~ used_id d k -> replaced_at doc d k = "".
Proof.
    intros Hk.
    destruct (generateUniqueIDs_spec doc d) as (r & doc1 & E & Et & Hinv & Hdom).
    unfold replaced_at. rewrite Et.
    destruct (r !! k) as [u|] eqn:Hu; [|done].
    destruct (proj1 (Hdom k) (mk_is_Some _ _ Hu)) as [->|?]; [|done].
    rewrite (inv_empty _ _ _ Hinv) in Hu. by simplify_eq.
Qed.

  (** A parent that names a node but no item: after the remap it is the
      node's new identifier, which is no item's key. *)
Lemma node_parent_dangles doc d k it :
    m_itemDataMap d !! k = Some it ->
    ItemData.parentId it <> "" ->
    is_Some (m_nodeDataMap d !! ItemData.parentId it) ->
    m_itemDataMap d !! ItemData.parentId it = None ->
    ~ parents_resolve (generateUniqueIDs (Some doc) d).1.
Proof.
    intros Hk Hne Hnode Hitem Hres.
    set (s := replaced_at doc d) in *.
    assert (Hp : used_id d (ItemData.parentId it)) by (right; by left).
    destruct (remap_fresh doc d _ Hp Hne) as (Hsne & _).
    destruct (Hres (s k) (remap_item s it) (remap_item_lookup doc d _ _ Hk) Hsne)
      as [it2 H2].
    change (ItemData.parentId (remap_item s it)) with (s (ItemData.parentId it)) in *.
    apply remapped_item_inv in H2 as (k2 & it2' & Hk2 & Es & _).
    assert (ItemData.parentId it = k2).
    { apply (remap_injective doc d); [done| left; eauto |done]. }
    subst k2. congruence.
Qed.

End parents.

(** C4, as stated, fails: an item whose parent identifier is the key of a
    node keeps pointing at that node's new identifier. *)
Lemma parent_naming_a_node_does_not_resolve :
  ~ parents_resolve
      (generateUniqueIDs (Some blank_circuit_document) orphan_snapshot).1.
Proof.
  apply (node_parent_dangles _ _ "a" (ItemData.set_parentId "n" ItemData.init));
    try done.
Qed.

(** C4 (amended). When every item's parent identifier is an item key or is
    not used as a key at all, then after [generateUniqueIDs] every non-empty
    parent identifier is the key of an item of the snapshot. *)
Theorem parents_resolve_after_remap {QV : QtValue} {US : UIDSource}
    (doc : ItemDocument) (d : ItemDocumentData) :
  map_Forall (fun _ it => parent_is_item_or_unused d it = true) (m_itemDataMap d) ->
  parents_resolve (generateUniqueIDs (Some doc) d).1.
Proof.
  intros Hok k' it' Hk' Hne.
  apply remapped_item_inv in Hk' as (k & it & Hk & -> & ->).
  change (ItemData.parentId (remap_item (replaced_at doc d) it))
    with (replaced_at doc d (ItemData.parentId it)) in *.
  specialize (Hok k it Hk). unfold parent_is_item_or_unused in Hok.
  apply orb_true_iff in Hok as [Hp|Hp].
  - apply bool_decide_eq_true in Hp as [pit Hp].
    rewrite (remap_item_lookup doc d _ _ Hp). eauto.
  - exfalso. apply Hne. apply unused_maps_to_empty.
    rewrite <- is_used_spec. by destruct (is_used d (ItemData.parentId it)).
Qed.

Lemma parents_resolve_after_remap_witness :
  parents_resolve (generateUniqueIDs (Some blank_circuit_document) family_snapshot).1.
Proof.
  apply (parents_resolve_after_remap blank_circuit_document family_snapshot).
  apply (bool_decide_unpack _). vm_compute. exact I.
Defined.

(** * Pin ordering of the sub-circuit extractor *)

Section multimap.
Context {V : Type}.
Implicit Types (l : list (Z * V)).

Lemma multimap_insert_perm k v l : multimap_insert k v l ≡ₚ (k, v) :: l.
Proof.
    induction l as [|e l IH]; simpl; [done|].
    case_bool_decide; [done|]. rewrite IH. apply Permutation_swap.
Qed.

Lemma multimap_insert_sorted k v l :
    StronglySorted by_key l -> StronglySorted by_key (multimap_insert k v l).
Proof.
    induction 1 as [|e l Hs IH Hall]; simpl.
    - repeat constructor.
    - case_bool_decide as Hlt.
      + constructor; [by constructor|].
        constructor; [unfold by_key; simpl; lia|].
        eapply Forall_impl; [exact Hall|]. unfold by_key. simpl. intros; lia.
      + constructor; [done|].
        rewrite multimap_insert_perm. constructor; [unfold by_key; simpl; lia|done].
Qed.

Lemma elem_of_multimap_insert k v l e :
    e ∈ multimap_insert k v l <-> e = (k, v) \/ e ∈ l.
Proof. rewrite multimap_insert_perm. apply elem_of_cons. Qed.

End multimap.

Section pins.
Context {QV : QtValue}.

  (** *** The external connections *)

Lemma externalConnections_fold (l : list (string * ItemData.t)) acc :
    let r := foldl (fun extCon it =>
                      if bool_decide (ItemData.type it.2 = "ec/external_connection")
                      then multimap_insert (ItemData.x it.2) it.1 extCon
                      else extCon) acc l in
    r ≡ₚ acc ++ ((fun it => (ItemData.x it.2, it.1)) <$> filter (fun it => is_marker it.2) l)
    /\ (StronglySorted by_key acc -> StronglySorted by_key r).
Proof.
    revert acc. induction l as [|[k it] l IH]; intros acc; simpl.
    - by rewrite app_nil_r.
    - rewrite filter_cons. unfold is_marker at 2. simpl.
      destruct (IH (if bool_decide (ItemData.type it = "ec/external_connection")
                    then multimap_insert (ItemData.x it) k acc else acc)) as [Hp Hs].
      case_bool_decide as Hm.
      + rewrite decide_True by done. split.
        * rewrite Hp, multimap_insert_perm. simpl. by rewrite Permutation_middle.
        * intros Hacc. by apply Hs, multimap_insert_sorted.
      + rewrite decide_False by done. done.
Qed.

Lemma externalConnections_perm items :
    externalConnections items
    ≡ₚ (fun it => (ItemData.x it.2, it.1))
         <$> filter (fun it => is_marker it.2) (Qt.qmap_entries items).
Proof. apply (externalConnections_fold _ []). Qed.

Lemma externalConnections_sorted items :
    StronglySorted by_key (externalConnections items).
Proof. apply (externalConnections_fold _ []). constructor. Qed.

Lemma elem_of_externalConnections items x id :
    (x, id) ∈ externalConnections items
    <-> exists it, items !! id = Some it /\ is_marker it /\ ItemData.x it = x.
Proof.
    rewrite externalConnections_perm, list_elem_of_fmap. split.
    - intros ([k it] & [= -> ->] & [Hm Hin]%list_elem_of_filter).
      apply elem_of_qmap_entries in Hin. by exists it.
    - intros (it & Hid & Hm & <-). exists (id, it). split; [done|].
      apply list_elem_of_filter. split; [done|]. by apply elem_of_qmap_entries.
Qed.

Lemma externalConnections_NoDup items : NoDup (externalConnections items).*2.
Proof.
    rewrite externalConnections_perm, <- list_fmap_compose.
    apply (NoDup_fmap_2_strong _).
    - intros [k1 it1] [k2 it2] [_ H1]%list_elem_of_filter [_ H2]%list_elem_of_filter.
      simpl. intros ->. f_equal.
      eapply NoDup_fst_functional; [apply NoDup_fst_qmap_entries|done..].
    - apply NoDup_filter, NoDup_qmap_entries.
Qed.

  (** *** The left / right split *)

Lemma split_fold size items (l : list (Z * string)) at_ L R :
    (forall e, e ∈ l -> is_Some (items !! e.2)) ->
    exists L' R',
      foldl (split_step size) (at_, L, R, items) l = ((at_ + length l)%nat, L', R', items)
      /\ L'.*2 ≡ₚ L.*2 ++ take (size - at_) l.*2
      /\ R'.*2 ≡ₚ R.*2 ++ drop (size - at_) l.*2
      /\ (StronglySorted by_key L -> StronglySorted by_key L')
      /\ (StronglySorted by_key R -> StronglySorted by_key R')
      /\ (forall y id, (y, id) ∈ L' ->
            (y, id) ∈ L \/ exists it, items !! id = Some it /\ ItemData.y it = y)
      /\ (forall y id, (y, id) ∈ R' ->
            (y, id) ∈ R \/ exists it, items !! id = Some it /\ ItemData.y it = y).
Proof.
    revert at_ L R. induction l as [|[x id] l IH]; intros at_ L R Hl.
    - exists L, R. simpl. rewrite Nat.add_0_r, take_nil, drop_nil, !app_nil_r.
      repeat split; auto.
    - destruct (Hl (x, id)) as [it Hit]; [set_solver|].
      cbn [foldl]. unfold split_step at 2. cbn [snd].
      rewrite (qmap_index_present _ _ _ _ Hit).
      case_bool_decide as Hlt.
      + destruct (IH (S at_) (multimap_insert (ItemData.y it) id L) R)
          as (L' & R' & -> & HL & HR & HsL & HsR & HyL & HyR);
          [intros; apply Hl; set_solver|].
        exists L', R'. split; [f_equal; f_equal; f_equal; simpl; lia|].
        replace (size - at_)%nat with (S (size - S at_)) by lia.
        simpl. split; [|split; [done|split; [|split; [done|split; [|done]]]]].
        * rewrite HL, multimap_insert_perm. simpl. by rewrite Permutation_middle.
        * intros HsL0. by apply HsL, multimap_insert_sorted.
        * intros y id' Hin. destruct (HyL _ _ Hin) as [Hin'|?]; [|by right].
          apply elem_of_multimap_insert in Hin' as [[= -> ->]|?]; [|by left].
          right. by exists it.
      + destruct (IH (S at_) L (multimap_insert (ItemData.y it) id R))
          as (L' & R' & -> & HL & HR & HsL & HsR & HyL & HyR);
          [intros; apply Hl; set_solver|].
        exists L', R'. split; [f_equal; f_equal; f_equal; simpl; lia|].
        replace (size - at_)%nat with 0%nat in * by lia.
        replace (size - S at_)%nat with 0%nat in * by lia.
        simpl in *. rewrite drop_0 in HR.
        split; [done|split; [|split; [done|split; [|split; [done|]]]]].
        * rewrite HR, multimap_insert_perm. simpl. by rewrite Permutation_middle.
        * intros HsR0. by apply HsR, multimap_insert_sorted.
        * intros y id' Hin. destruct (HyR _ _ Hin) as [Hin'|?]; [|by right].
          apply elem_of_multimap_insert in Hin' as [[= -> ->]|?]; [|by left].
          right. by exists it.
Qed.

Lemma sortPins_spec items extCon :
    (forall e, e ∈ extCon -> is_Some (items !! e.2)) ->
    let size := (length extCon / 2 + length extCon mod 2)%nat in
    exists L R,
      sortPins items extCon = (L, R, items)
      /\ L.*2 ≡ₚ take size extCon.*2
      /\ R.*2 ≡ₚ drop size extCon.*2
      /\ StronglySorted by_key L
      /\ StronglySorted by_key R
      /\ (forall y id, (y, id) ∈ L ++ R ->
            exists it, items !! id = Some it /\ ItemData.y it = y).
Proof.
    intros Hl size.
    destruct (split_fold size items extCon 0 [] [] Hl)
      as (L & R & E & HL & HR & HsL & HsR & HyL & HyR).
    exists L, R. unfold sortPins. fold size.
    change (foldl _ (0%nat, [], [], items) extCon)
      with (foldl (split_step size) (0%nat, [], [], items) extCon).
    rewrite E. rewrite Nat.sub_0_r in HL, HR.
    split; [done|]. split; [done|]. split; [done|].
    split; [apply HsL; constructor|]. split; [apply HsR; constructor|].
    intros y id [Hin|Hin]%elem_of_app.
    - destruct (HyL _ _ Hin) as [?%elem_of_nil|?]; done.
    - destruct (HyR _ _ Hin) as [?%elem_of_nil|?]; done.
Qed.

  (** *** Numbering *)

Lemma number_step_eq delta nodeId nodeMap ec items y id :
    exists ec' items',
      number_step delta (nodeId, nodeMap, ec, items) (y, id)
      = (nodeId + delta, <[id := nodeId]> nodeMap, ec', items').
Proof.
    unfold number_step. cbn [snd].
    destruct (Qt.qmap_index ItemData.init items id) as [item items1]. eauto.
Qed.

Lemma numberPins_nodeMap delta (pins : list (Z * string)) nodeId nodeMap ec items :
    NoDup pins.*2 ->
    let nm := (numberPins delta pins (nodeId, nodeMap, ec, items)).1.1.2 in
    (forall i y id, pins !! i = Some (y, id) -> nm !! id = Some (nodeId + delta * Z.of_nat i))
    /\ (forall id, id ∉ pins.*2 -> nm !! id = nodeMap !! id).
Proof.
    unfold numberPins.
    change (foldl _ (nodeId, nodeMap, ec, items) pins)
      with (foldl (number_step delta) (nodeId, nodeMap, ec, items) pins).
    revert nodeId nodeMap ec items.
    induction pins as [|[y0 id0] pins IH]; intros nodeId nodeMap ec items Hnd.
    - simpl. split; [by intros ? ? ? ?|done].
    - apply NoDup_cons in Hnd as [Hnin Hnd]. cbn [foldl].
      destruct (number_step_eq delta nodeId nodeMap ec items y0 id0) as (ec' & items' & ->).
      specialize (IH (nodeId + delta) (<[id0 := nodeId]> nodeMap) ec' items' Hnd).
      cbv zeta in IH |- *. destruct IH as [IH1 IH2]. split.
      + intros [|i] y id Hi; simpl in Hi.
        * injection Hi as -> ->. rewrite IH2 by done.
          rewrite lookup_insert_eq. f_equal. lia.
        * rewrite (IH1 _ _ _ Hi). f_equal. lia.
      + intros id Hid. simpl in Hid. apply not_elem_of_cons in Hid as [Hne Hid].
        rewrite IH2 by done. by rewrite lookup_insert_ne.
Qed.

Lemma numberPins_shape delta pins st :
    exists a nm ec items, numberPins delta pins st = (a, nm, ec, items).
Proof. destruct (numberPins delta pins st) as [[[a nm] ec] items]. eauto 6. Qed.

  (** The pin number of every marker. *)
Lemma assignPins_nodeMap ec items :
    let extCon := externalConnections items in
    let n := Z.of_nat (length extCon) in
    let leftPins := (sortPins items extCon).1.1 in
    let rightPins := (sortPins items extCon).1.2 in
    let nodeMap := (assignPins ec items).1.1 in
    (forall i y id, leftPins !! i = Some (y, id) -> nodeMap !! id = Some (Z.of_nat i))
    /\ (forall j y id, rightPins !! j = Some (y, id) ->
          nodeMap !! id = Some (n - 1 - Z.of_nat j)).
Proof.
    intros extCon n leftPins rightPins nodeMap.
    assert (Hkeys : forall e, e ∈ extCon -> is_Some (items !! e.2)).
    { intros [x id] (it & Hit & _)%elem_of_externalConnections. eauto. }
    destruct (sortPins_spec items extCon Hkeys) as (L & R & E & HL & HR & _).
    pose proof (externalConnections_NoDup items) as Hnd. fold extCon in Hnd.
    rewrite <- (take_drop (length extCon / 2 + length extCon mod 2) extCon.*2) in Hnd.
    rewrite <- HL, <- HR in Hnd. apply NoDup_app in Hnd as (HndL & Hdisj & HndR).
    subst leftPins rightPins nodeMap. unfold assignPins. fold extCon.
    rewrite E. cbn [fst snd].
    pose proof (numberPins_nodeMap 1 L 0 ∅
                  (ECSubcircuit.setNumExtCon (Z.of_nat (length extCon)) ec) items HndL)
      as [HL1 HL2].
    destruct (numberPins_shape 1 L
                (0, ∅, ECSubcircuit.setNumExtCon (Z.of_nat (length extCon)) ec, items))
      as (a1 & nm1 & ec1 & items1 & E1).
    rewrite E1 in HL1, HL2 |- *. cbn [fst snd] in HL1, HL2.
    pose proof (numberPins_nodeMap (-1) R (Z.of_nat (length extCon) - 1) nm1 ec1 items1 HndR)
      as [HR1 HR2].
    destruct (numberPins_shape (-1) R (Z.of_nat (length extCon) - 1, nm1, ec1, items1))
      as (a2 & nm2 & ec2 & items2 & E2).
    rewrite E2 in HR1, HR2 |- *. cbn [fst snd] in HR1, HR2 |- *.
    split.
    - intros i y id Hi. rewrite HR2.
      + rewrite (HL1 _ _ _ Hi). f_equal; lia.
      + apply Hdisj. apply list_elem_of_fmap. exists (y, id). split; [done|].
        by eapply list_elem_of_lookup_2.
    - intros j y id Hj. rewrite (HR1 _ _ _ Hj). f_equal; subst n; lia.
Qed.

End pins.

(** C5. With [n] external-connection markers, the first [ceil(n/2)] in
    ascending x order form the left side and the others the right side;
    each side is ordered by ascending y; the left pins are numbered 0, 1, ...
    and the right pins [n-1], [n-2], ... in that order.  For markers at
    (0,5), (0,20), (10,5), (10,20) the pins are 0, 1, 3, 2. *)
Theorem subcircuit_pin_ordering {QV : QtValue} (ec : ECSubcircuit.t)
    (items : gmap string ItemData.t) :
  let extCon := externalConnections items in
  let n := length extCon in
  let size := (n / 2 + n mod 2)%nat in
  let leftPins := (sortPins items extCon).1.1 in
  let rightPins := (sortPins items extCon).1.2 in
  let nodeMap := (assignPins ec items).1.1 in
  (* the markers, in ascending x order *)
  (forall x id, (x, id) ∈ extCon <->
      exists it, items !! id = Some it /\ is_marker it /\ ItemData.x it = x)
  /\ NoDup extCon.*2
  /\ StronglySorted by_key extCon
  (* the split *)
  /\ leftPins.*2 ≡ₚ take size extCon.*2
  /\ rightPins.*2 ≡ₚ drop size extCon.*2
  (* each side in ascending y order *)
  /\ StronglySorted by_key leftPins
  /\ StronglySorted by_key rightPins
  /\ (forall y id, (y, id) ∈ leftPins ++ rightPins ->
        exists it, items !! id = Some it /\ ItemData.y it = y)
  (* the numbering *)
  /\ (forall i y id, leftPins !! i = Some (y, id) -> nodeMap !! id = Some (Z.of_nat i))
  /\ (forall j y id, rightPins !! j = Some (y, id) ->
        nodeMap !! id = Some (Z.of_nat n - 1 - Z.of_nat j))
  (* the example *)
  /\ (assignPins ec four_markers).1.1
     = {["d" := 0; "c" := 1; "b" := 3; "a" := 2]}.
Proof.
  intros extCon n size leftPins rightPins nodeMap.
  assert (Hkeys : forall e, e ∈ extCon -> is_Some (items !! e.2)).
  { intros [x id] (it & Hit & _)%elem_of_externalConnections. eauto. }
  destruct (sortPins_spec items extCon Hkeys) as (L & R & E & HL & HR & HsL & HsR & Hy).
  destruct (assignPins_nodeMap ec items) as [Hleft Hright].
  subst leftPins rightPins. fold extCon in Hleft, Hright. rewrite E in *.
  cbn [fst snd] in *.
  split; [apply elem_of_externalConnections|].
  split; [apply externalConnections_NoDup|].
  split; [apply externalConnections_sorted|].
  repeat (split; [done|]).
  reflexivity.
Qed.

(** * Tolerant parsing *)

Section tolerant.
Context {QV : QtValue} {QD : QDomText}.

Lemma pairs_ind {X} (P : list X -> Prop) :
    P [] -> (forall x, P [x]) -> (forall x y l, P l -> P (x :: y :: l)) ->
    forall l, P l.
Proof.
    intros H0 H1 H2 l. assert (P l /\ forall x, P (x :: l)) as [? _]; [|done].
    induction l as [|y l [IH1 IH2]]; split; auto.
Qed.

Lemma routeOfPoints_odd points :
    Nat.odd (length points) = true -> routeOfPoints points = None.
Proof.
    induction points as [| |sx sy rest IH] using pairs_ind; [done|done|].
    cbn [routeOfPoints]. change (length (sx :: sy :: rest)) with (S (S (length rest))).
    rewrite Nat.odd_succ_succ. intros Hodd. by rewrite IH.
Qed.

Lemma routeOfPoints_even points :
    Nat.odd (length points) = false -> is_Some (routeOfPoints points).
Proof.
    induction points as [| |sx sy rest IH] using pairs_ind; [by eexists|done|].
    cbn [routeOfPoints]. change (length (sx :: sy :: rest)) with (S (S (length rest))).
    rewrite Nat.odd_succ_succ. intros Hodd. destruct (IH Hodd) as [r ->]. by eexists.
Qed.

Lemma split_empty sep : Qt.split sep "" = [].
Proof. reflexivity. Qed.

  (** The points [elementToConnectorData] hands to its loop. *)
Lemma route_points_split (route : string) :
    (if bool_decide (route = "") then [] else Qt.split "," route) = Qt.split "," route.
Proof. case_bool_decide as E; [by rewrite E|done]. Qed.

Lemma readRootChild_unpaired d node :
    unpaired_route node = true -> readRootChild d node = None.
Proof.
    destruct node as [t a c|s]; [|done]. unfold unpaired_route.
    intros [[Ht Hid]%andb_true_iff Hodd]%andb_true_iff.
    apply bool_decide_eq_true_1 in Ht as ->. apply bool_decide_eq_true_1 in Hid as [id Hid].
    cbn [readRootChild]. rewrite !bool_decide_eq_false_2 by done.
    rewrite bool_decide_eq_true_2 by done.
    unfold elementToConnectorData. cbn [attribute_opt]. rewrite Hid.
    rewrite route_points_split, routeOfPoints_odd; done.
Qed.

Lemma readRootChild_paired d node :
    unpaired_route node = false -> is_Some (readRootChild d node).
Proof.
    destruct node as [t a c|s]; [|by eexists]. unfold unpaired_route.
    intros Hp. cbn [readRootChild].
    destruct (bool_decide (t = "item")); [by eexists|].
    destruct (bool_decide (t = "node")); [by eexists|].
    destruct (bool_decide (t = "connector")) eqn:Et.
    - unfold elementToConnectorData. cbn [attribute_opt].
      destruct (a !! "id") as [id|] eqn:Hid; [|by eexists].
      rewrite bool_decide_eq_true_2 in Hp by (by eexists). cbn [andb] in Hp.
      rewrite route_points_split.
      destruct (routeOfPoints_even _ Hp) as [r ->]. by eexists.
    - destruct (_ || _); [by eexists|]. destruct (bool_decide (t = "code")); by eexists.
Qed.

Lemma readRootChild_unrecognised d node :
    unrecognised node -> readRootChild d node = Some (d, [skip_entry node]).
Proof.
    destruct node as [t a c|s]; [|done]. unfold unrecognised, skip_entry. simpl.
    intros Ht. rewrite !not_elem_of_cons in Ht.
    destruct Ht as (?&?&?&?&?&?&_).
    rewrite !bool_decide_eq_false_2 by done. simpl.
    rewrite bool_decide_eq_false_2; [done|].
    rewrite !elem_of_cons, elem_of_nil. naive_solver.
Qed.

Lemma readRootChild_lacks_id d node :
    lacks_id node -> readRootChild d node = Some (d, [skip_entry node]).
Proof.
    destruct node as [t a c|s]; [|done]. unfold lacks_id, skip_entry. simpl.
    intros [Ht Ha]. rewrite (bool_decide_eq_true_2 _ Ht).
    rewrite !elem_of_cons, elem_of_nil in Ht.
    destruct Ht as [->|[->|[->|[]]]]; simpl.
    - by rewrite Ha.
    - unfold elementToNodeData. simpl. by rewrite Ha.
    - unfold elementToConnectorData. simpl. by rewrite Ha.
Qed.

  (** A child that is only logged does not disturb its siblings. *)
Lemma readRootChildren_skip d l1 bad l2 d1 log1 d2 log2 :
    (forall d', readRootChild d' bad = Some (d', [skip_entry bad])) ->
    foldl_partial readRootChild d l1 = Some (d1, log1) ->
    foldl_partial readRootChild d1 l2 = Some (d2, log2) ->
    foldl_partial readRootChild d (l1 ++ bad :: l2)
    = Some (d2, log1 ++ [skip_entry bad] ++ log2)
    /\ foldl_partial readRootChild d (l1 ++ l2) = Some (d2, log1 ++ log2).
Proof.
    intros Hbad H1 H2.
    rewrite !foldl_partial_app, H1, foldl_partial_cons, Hbad, H2. done.
Qed.

Lemma fromXML_parsed xml d doc :
    setContent xml = inl doc ->
    fromXML xml d
    = match foldl_partial readRootChild (reset d) (children (documentElement doc)) with
      | Some (d', log) => Some ((true, d'), log)
      | None => None
      end.
Proof. intros E. unfold fromXML. by rewrite E. Qed.

Lemma fromXML_unparsed xml d err :
    setContent xml = inr err ->
    fromXML xml d = Some ((false, reset d), [MessageBox ("Could not parse XML: " +:+ err)]).
Proof. intros E. unfold fromXML. by rewrite E. Qed.

Lemma fromXML_unpaired xml d doc node :
    setContent xml = inl doc ->
    node ∈ children (documentElement doc) ->
    unpaired_route node = true ->
    fromXML xml d = None.
Proof.
    intros E Hin Hodd. rewrite (fromXML_parsed _ _ _ E).
    rewrite (foldl_partial_stuck _ _ _ node); [done|done|].
    intros d'. by apply readRootChild_unpaired.
Qed.

  (** [fromXML] returns exactly on the texts without an unpaired route. *)
Lemma fromXML_returns xml d :
    is_Some (fromXML xml d) <-> routes_paired xml = true.
Proof.
    unfold routes_paired. destruct (setContent xml) as [doc|err] eqn:E.
    - split.
      + intros Hret. apply forallb_forall. intros node Hin.
        destruct (unpaired_route node) eqn:Hn; [|done].
        apply list_elem_of_In in Hin.
        rewrite (fromXML_unpaired _ _ _ _ E Hin Hn) in Hret. by destruct Hret.
      + intros Hall. rewrite (fromXML_parsed _ _ _ E).
        destruct (foldl_partial_returns readRootChild (reset d)
                    (children (documentElement doc))) as [[d' lg] ->]; [|by eexists].
        intros d' node Hin. apply readRootChild_paired.
        apply list_elem_of_In in Hin.
        rewrite forallb_forall in Hall. specialize (Hall node Hin).
        by apply negb_true_iff in Hall.
    - rewrite (fromXML_unparsed _ _ _ E). split; [done|by eexists].
Qed.

  (** What a run that returns reports. *)
Lemma fromXML_result xml d r :
    fromXML xml d = Some r ->
    match setContent xml with
    | inl doc =>
        r.1.1 = true
        /\ foldl_partial readRootChild (reset d) (children (documentElement doc))
           = Some (r.1.2, r.2)
    | inr err =>
        r = ((false, reset d), [MessageBox ("Could not parse XML: " +:+ err)])
    end.
Proof.
    destruct (setContent xml) as [doc|err] eqn:E.
    - rewrite (fromXML_parsed _ _ _ E).
      destruct (foldl_partial _ _ _) as [[d' lg]|]; [|done]. by intros [= <-].
    - rewrite (fromXML_unparsed _ _ _ E). by intros [= <-].
Qed.

End tolerant.

(** C9. The claim fails on a well-formed text: when a child of the root is
    a connector element with an identifier whose route has an odd number of
    non-empty fields, the route loop of [elementToConnectorData] steps past
    the end of the list and [fromXML] has no result, neither success nor
    failure. *)
Theorem fromXML_odd_route_runs_past_end {QV : QtValue} {QD : QDomText}
    (xml : string) (d : ItemDocumentData) (doc : QDomDocument) (node : QDomNode) :
  setContent xml = inl doc ->
  node ∈ children (documentElement doc) ->
  unpaired_route node = true ->
  fromXML xml d = None.
Proof. apply fromXML_unpaired. Qed.

(** * Connectors whose endpoints do not resolve *)


Section unresolved.
Context {QV : QtValue} {IL : ItemLibrary}.

#[local] Instance same_endpoints_refl : Reflexive same_endpoints.
Proof. intros doc. by repeat split. Qed.

#[local] Instance same_endpoints_trans : Transitive same_endpoints.
Proof.
    intros a b c (?&?&Hab) (?&?&Hbc). repeat split; try congruence;
      intros; [by apply Hab, Hbc | by apply Hbc, Hab].
Qed.

Lemma resolve_endpoint_same doc doc' isChild parent cid id :
    same_endpoints doc doc' ->
    resolve_endpoint doc' isChild parent cid id = resolve_endpoint doc isChild parent cid id.
Proof.
    intros (Ht & Hi & Hn). unfold resolve_endpoint, cnItemWithID, nodeWithID.
    rewrite Hi. destruct isChild; [done|].
    specialize (Hn id). destruct (doc_nodes doc' !! id), (doc_nodes doc !! id); simpl;
      try done; destruct Hn as [H1 H2]; exfalso.
    - by destruct H1 as [? ?].
    - by destruct H2 as [? ?].
Qed.

Lemma unresolved_same doc doc' c :
    same_endpoints doc doc' -> unresolved doc c -> unresolved doc' c.
Proof.
    intros Hs. unfold unresolved, start_endpoint, end_endpoint.
    by rewrite !(resolve_endpoint_same _ _ _ _ _ _ Hs).
Qed.

Lemma skip_log_same doc doc' c : same_endpoints doc doc' -> skip_log doc' c = skip_log doc c.
Proof.
    intros Hs. unfold skip_log, start_endpoint, end_endpoint.
    by rewrite !(resolve_endpoint_same _ _ _ _ _ _ Hs).
Qed.

  (** The skipped connector. *)
Lemma merge_create_connector_unresolved doc k c :
    connectorWithID k doc = None -> unresolved doc c ->
    merge_create_connector doc (k, c) = (doc, skip_log doc c).
Proof.
    intros Hk Hu. unfold merge_create_connector, skip_log, then_logged. cbn [fst snd].
    rewrite Hk. fold (start_endpoint doc c) (end_endpoint doc c).
    unfold unresolved in Hu.
    destruct (start_endpoint doc c) as [s lgs], (end_endpoint doc c) as [e lge].
    simpl in *. destruct Hu as [->| ->]; [|destruct s]; simpl; by rewrite ?app_assoc.
Qed.

  (** Any other step of the first connector loop. *)
Lemma merge_create_connector_other doc k k' c' :
    k' <> k ->
    let doc' := (merge_create_connector doc (k', c')).1 in
    same_endpoints doc doc'
    /\ connectorWithID k doc' = connectorWithID k doc.
Proof.
    intros Hne. unfold merge_create_connector, then_logged. cbn [fst snd].
    destruct (connectorWithID k' doc); [by split|].
    fold (start_endpoint doc c') (end_endpoint doc c').
    destruct (start_endpoint doc c') as [[s|] lgs], (end_endpoint doc c') as [[e|] lge];
      simpl; try by split.
    split.
    - split; [done|]. split; [done|]. intros id. simpl.
      rewrite !lookup_alter_is_Some. done.
    - unfold connectorWithID. simpl. by rewrite lookup_insert_ne.
Qed.

Lemma merge_create_connectors_others doc k (l : list (string * ConnectorData.t)) :
    k ∉ l.*1 ->
    let doc' := (foldl_logged merge_create_connector doc l).1 in
    same_endpoints doc doc' /\ connectorWithID k doc' = connectorWithID k doc.
Proof.
    revert doc. induction l as [|[k' c'] l IH]; intros doc Hk; [by split|].
    simpl in Hk. apply not_elem_of_cons in Hk as [Hne Hk].
    rewrite foldl_logged_cons. cbn [fst].
    destruct (merge_create_connector_other doc k k' c') as [Hs Hc]; [done|].
    destruct (IH (merge_create_connector doc (k', c')).1 Hk) as [Hs' Hc'].
    cbv zeta in *. split; [by etrans|congruence].
Qed.

  (** The second connector loop never creates a connector. *)
Lemma merge_restore_connector_absent sel doc k it :
    connectorWithID k doc = None ->
    connectorWithID k (merge_restore_connector sel doc it) = None.
Proof.
    intros Hk. unfold merge_restore_connector.
    destruct (connectorWithID it.1 doc) as [c|] eqn:E; [|done].
    assert (it.1 <> k) by (intros E2; rewrite E2 in E; congruence).
    unfold connectorWithID in *. destruct sel; simpl; by rewrite lookup_insert_ne.
Qed.

Lemma merge_restore_connector_skip sel doc k c :
    connectorWithID k doc = None -> merge_restore_connector sel doc (k, c) = doc.
Proof. intros Hk. unfold merge_restore_connector. simpl. by rewrite Hk. Qed.

Lemma merge_restore_connectors_absent sel doc k (l : list (string * ConnectorData.t)) :
    connectorWithID k doc = None ->
    connectorWithID k (foldl (merge_restore_connector sel) doc l) = None.
Proof.
    revert doc. induction l as [|it l IH]; intros doc Hk; [done|].
    simpl. by apply IH, merge_restore_connector_absent.
Qed.

  (** Splitting the entries of a map at one key. *)
Lemma qmap_entries_split {V} (m : gmap string V) k v :
    m !! k = Some v ->
    exists l1 l2,
      Qt.qmap_entries m = l1 ++ (k, v) :: l2
      /\ Qt.qmap_entries (delete k m) = l1 ++ l2
      /\ (k ∉ l1.*1) /\ (k ∉ l2.*1).
Proof.
    intros Hk. apply elem_of_qmap_entries in Hk.
    apply list_elem_of_split in Hk as (l1 & l2 & E).
    pose proof (NoDup_fst_qmap_entries m) as Hnd. rewrite E in Hnd.
    rewrite fmap_app, fmap_cons in Hnd. simpl in Hnd.
    apply NoDup_app in Hnd as (_ & Hd & Hnd2). apply NoDup_cons in Hnd2 as [H2 _].
    assert (H1 : k ∉ l1.*1) by (intros Hin; apply (Hd k Hin); set_solver).
    exists l1, l2. split; [done|]. split; [|done].
    rewrite qmap_entries_delete, E, filter_app, filter_cons. simpl.
    rewrite decide_False by (intros Hne; by apply Hne).
    f_equal.
    - apply filter_Forall_id.
      apply Forall_forall. intros [k' v'] Hin Heq. simpl in Heq. subst.
      apply H1. apply list_elem_of_fmap. by exists (k, v').
    - apply filter_Forall_id.
      apply Forall_forall. intros [k' v'] Hin Heq. simpl in Heq. subst.
      apply H2. apply list_elem_of_fmap. by exists (k, v').
Qed.

  (** The document type never changes during a merge. *)
Lemma merge_nodes_type d doc : doc_type (merge_nodes d doc) = doc_type doc.
Proof.
    unfold merge_nodes. destruct (isICNDocument doc); [|done].
    apply (foldl_preserves (fun x => doc_type x = doc_type doc)).
    - intros a b _ Ha. unfold merge_move_node. by destruct (nodeWithID b.1 a).
    - apply (foldl_preserves (fun x => doc_type x = doc_type doc)); [|done].
      intros a b _ Ha. unfold merge_create_node.
      destruct (nodeWithID b.1 a); [done|].
      destruct (doc_type a) eqn:E; simpl; congruence.
Qed.

Lemma merge_items_type sel d doc : doc_type (merge_items sel d doc).1 = doc_type doc.
Proof.
    unfold merge_items, then_logged. cbn [fst snd].
    apply (foldl_preserves (fun x => doc_type x = doc_type doc)).
    - intros a b _ Ha. unfold merge_restore_item.
      destruct (itemWithID b.1 a); [|done]. destruct sel; simpl;
        match goal with |- context [match ?x with _ => _ end] => destruct x end; done.
    - rewrite foldl_logged_fst.
      apply (foldl_preserves (fun x => doc_type x = doc_type doc)); [|done].
      intros a b _ Ha. unfold merge_create_item.
      destruct (_ && _); [|done].
      destruct (createItem _ _ _); [|done]. by destruct (negb _).
Qed.

Lemma before_connectors_ICN sel d doc :
    isICNDocument (before_connectors sel d doc) = isICNDocument doc.
Proof.
    unfold before_connectors, isICNDocument.
    by rewrite merge_items_type, merge_nodes_type.
Qed.

Lemma mergeWithDocument_unfold doc sel d :
    mergeWithDocument (Some doc) sel d
    = (Some (merge_connectors sel d (before_connectors sel d doc)).1,
       (merge_items sel d (merge_nodes d doc)).2
       ++ (merge_connectors sel d (before_connectors sel d doc)).2).
Proof.
    unfold mergeWithDocument, before_connectors, then_logged. cbn [fst snd].
    destruct (merge_items sel d (merge_nodes d doc)) as [doc1 lg1]. cbn [fst snd].
    destruct (merge_connectors sel d doc1) as [doc2 lg2]. cbn [fst snd].
    by rewrite app_nil_r.
Qed.

Lemma errors_app lg1 lg2 : errors (lg1 ++ lg2) = (errors lg1 + errors lg2)%nat.
Proof. unfold errors. by rewrite filter_app, length_app. Qed.

Lemma errors_skip_log doc c : errors (skip_log doc c) = (1 + missing_parents doc c)%nat.
Proof.
    unfold skip_log, missing_parents, start_endpoint, end_endpoint, resolve_endpoint.
    rewrite !errors_app.
    destruct (ConnectorData.startNodeIsChild c), (ConnectorData.endNodeIsChild c); simpl;
      repeat match goal with
             | |- context [cnItemWithID ?p doc] => destruct (cnItemWithID p doc)
             end; reflexivity.
Qed.

  (** The connector loops with and without the unresolved record. *)
Lemma merge_connectors_skip sel d doc k c :
    isICNDocument doc = true ->
    m_connectorDataMap d !! k = Some c ->
    connectorWithID k doc = None ->
    unresolved doc c ->
    let r := merge_connectors sel d doc in
    let r' := merge_connectors sel (without_connector k d) doc in
    r.1 = r'.1
    /\ connectorWithID k r.1 = None
    /\ exists lga lgb, r'.2 = lga ++ lgb /\ r.2 = lga ++ skip_log doc c ++ lgb.
Proof.
    intros Hicn Hk Habs Hun. unfold merge_connectors, without_connector. rewrite Hicn.
    cbn [m_connectorDataMap set_connectorDataMap].
    destruct (qmap_entries_split _ _ _ Hk) as (l1 & l2 & -> & -> & Hk1 & Hk2).
    unfold then_logged. cbn [fst snd]. rewrite !app_nil_r.
    rewrite !foldl_logged_app, foldl_logged_cons. cbn [fst snd].
    destruct (merge_create_connectors_others doc k l1 Hk1) as [Hs1 Hc1].
    cbv zeta in Hs1, Hc1. rewrite Habs in Hc1.
    set (doc_a := (foldl_logged merge_create_connector doc l1).1) in *.
    assert (Hstep : merge_create_connector doc_a (k, c) = (doc_a, skip_log doc c)).
    { rewrite merge_create_connector_unresolved; [|done|by eapply unresolved_same].
      by rewrite (skip_log_same _ _ _ Hs1). }
    rewrite Hstep. cbn [fst snd].
    destruct (merge_create_connectors_others doc_a k l2 Hk2) as [Hs2 Hc2].
    cbv zeta in Hs2, Hc2. rewrite Hc1 in Hc2.
    set (doc_b := (foldl_logged merge_create_connector doc_a l2).1) in *.
    rewrite !foldl_app. cbn [foldl].
    rewrite (merge_restore_connector_skip sel _ k c)
      by (by apply merge_restore_connectors_absent).
    split; [done|]. split.
    - by do 2 apply merge_restore_connectors_absent.
    - eexists _, _. split; [done|]. done.
Qed.

End unresolved.

(** C8, as stated, fails: the connector whose parent item is missing is
    skipped with two logged errors, not one. *)
Lemma missing_parent_logs_two_errors :
  errors (@mergeWithDocument example_values example_library
            (Some blank_circuit_document) false ghost_snapshot).2 <> 1%nat.
Proof. vm_compute. discriminate. Qed.

(** C8 (amended). In a graph-capable document, a connector record that is
    not yet live and has an endpoint that does not resolve is skipped: the
    merged document is the one obtained without the record, it holds no
    connector under the record's identifier, and the log gains one error
    for the connector plus one for each child reference whose parent item
    is not found. *)
Theorem unresolved_connector_is_skipped {QV : QtValue} {IL : ItemLibrary}
    (doc : ItemDocument) (selectNew : bool) (d : ItemDocumentData)
    (k : string) (c : ConnectorData.t) :
  isICNDocument doc = true ->
  m_connectorDataMap d !! k = Some c ->
  connectorWithID k (before_connectors selectNew d doc) = None ->
  unresolved (before_connectors selectNew d doc) c ->
  let doc1 := before_connectors selectNew d doc in
  let r := mergeWithDocument (Some doc) selectNew d in
  let r' := mergeWithDocument (Some doc) selectNew (without_connector k d) in
  r.1 = r'.1
  /\ (exists doc', r.1 = Some doc' /\ connectorWithID k doc' = None)
  /\ (exists lga lgb, r'.2 = lga ++ lgb /\ r.2 = lga ++ skip_log doc1 c ++ lgb)
  /\ errors r.2 = (errors r'.2 + 1 + missing_parents doc1 c)%nat.
Proof.
  intros Hicn Hk Habs Hun doc1 r r'.
  assert (Hicn1 : isICNDocument doc1 = true) by (subst doc1; by rewrite before_connectors_ICN).
  destruct (merge_connectors_skip selectNew d doc1 k c Hicn1 Hk Habs Hun)
    as (E & Hnone & lga & lgb & Elg' & Elg).
  subst r r'. rewrite !mergeWithDocument_unfold. cbn [fst snd].
  change (before_connectors selectNew (without_connector k d) doc) with doc1.
  change (merge_items selectNew (without_connector k d)
            (merge_nodes (without_connector k d) doc))
    with (merge_items selectNew d (merge_nodes d doc)).
  fold doc1. rewrite E, Elg, Elg'.
  split; [done|]. split; [rewrite <- E; eauto|]. split.
  - eexists (_ ++ lga), lgb. by rewrite !app_assoc.
  - rewrite !errors_app, errors_skip_log. lia.
Qed.

Lemma unresolved_connector_is_skipped_witness :
  let r := @mergeWithDocument example_values example_library
             (Some blank_circuit_document) false wires_snapshot in
  let r' := @mergeWithDocument example_values example_library
              (Some blank_circuit_document) false (without_connector "w" wires_snapshot) in
  r.1 = r'.1 /\ errors r.2 = (errors r'.2 + 1 + 1)%nat.
Proof.
  pose proof (@unresolved_connector_is_skipped example_values example_library
                blank_circuit_document false wires_snapshot "w" ghost_wire
                eq_refl eq_refl eq_refl (or_introl eq_refl)) as (E & _ & _ & Herr).
  split; [exact E | exact Herr].
Defined.

(** * Restore: merge, then prune *)


Section restore.
Context {QV : QtValue} {IL : ItemLibrary}.
Variable PicItem_typeString : string.

Lemma elem_of_remove_known {V} (present : string -> bool) (keys : list (string * V)) l id :
    id ∈ remove_known present l keys
    <-> id ∈ l /\ ~ (id ∈ keys.*1 /\ present id = true).
Proof.
    unfold remove_known. revert l.
    induction keys as [|[k v] keys IH]; intros l; simpl.
    - split; [intros ?; split; [done|]; by intros [?%elem_of_nil _]|by intros [? _]].
    - rewrite IH. destruct (present k) eqn:Ep.
      + rewrite list_elem_of_filter, elem_of_cons. split.
        * intros [[Hne Hin] Hk]. split; [done|]. intros [[->|?] ?]; [done|]. by apply Hk.
        * intros [Hin Hk]. split; [split; [|done]|].
          -- intros ->. apply Hk. by split; [left|].
          -- intros [? ?]. apply Hk. by split; [right|].
      + rewrite elem_of_cons. split; intros [Hin Hk]; (split; [done|]).
        * intros [[->|?] ?]; [congruence|]. by apply Hk.
        * intros [? ?]. apply Hk. by split; [right|].
Qed.

Lemma prune_map_lookup {X} (removable : X -> bool) l (m : gmap string X) id :
    prune_map removable l m !! id
    = if bool_decide (id ∈ l) && from_option removable false (m !! id)
      then None else m !! id.
Proof.
    unfold prune_map. revert m. induction l as [|k l IH]; intros m; simpl.
    - done.
    - rewrite IH. destruct (decide (id = k)) as [->|Hne].
      + rewrite (bool_decide_eq_true_2 (k ∈ k :: l)) by set_solver. simpl.
        destruct (m !! k) as [x|] eqn:Ek; simpl.
        * destruct (removable x) eqn:Er.
          -- rewrite lookup_delete_eq. simpl. by rewrite andb_false_r.
          -- rewrite Ek. simpl. rewrite Er. by rewrite andb_false_r.
        * rewrite Ek. simpl. by rewrite andb_false_r.
      + assert (Hm : (match m !! k with
                      | Some x => if removable x then delete k m else m
                      | None => m
                      end) !! id = m !! id).
        { destruct (m !! k) as [x|]; [|done]. destruct (removable x); [|done].
          by rewrite lookup_delete_ne. }
        rewrite Hm.
        destruct (decide (id ∈ l)).
        * by rewrite !bool_decide_eq_true_2 by set_solver.
        * by rewrite !bool_decide_eq_false_2 by set_solver.
Qed.

Lemma prune_items_fold l doc :
    foldl (fun doc id =>
             match doc_items doc !! id with
             | Some item =>
                 if Item.canvas item && bool_decide (Item.type item <> PicItem_typeString)
                 then removeItem id doc else doc
             | None => doc
             end) doc l
    = set_doc_items (prune_map (item_removable PicItem_typeString) l (doc_items doc)) doc.
Proof.
    unfold prune_map. revert doc. induction l as [|id l IH]; intros doc; simpl.
    - by destruct doc.
    - rewrite IH. unfold item_removable.
      destruct (doc_items doc !! id) as [x|]; [|done].
      destruct (Item.canvas x && _); [|done]. by destruct doc.
Qed.

Lemma prune_nodes_fold l doc :
    foldl (fun doc id =>
             match doc_nodes doc !! id with
             | Some node =>
                 if Node.canvas node && negb (Node.isChildNode node)
                 then removeNode id doc else doc
             | None => doc
             end) doc l
    = set_doc_nodes (prune_map node_removable l (doc_nodes doc)) doc.
Proof.
    unfold prune_map. revert doc. induction l as [|id l IH]; intros doc; simpl.
    - by destruct doc.
    - rewrite IH. unfold node_removable.
      destruct (doc_nodes doc !! id) as [x|]; [|done].
      destruct (Node.canvas x && _); [|done]. by destruct doc.
Qed.

Lemma prune_connectors_fold l doc :
    foldl (fun doc id =>
             match doc_connectors doc !! id with
             | Some connector =>
                 if Connector.canvas connector then removeConnectorNoArg id doc else doc
             | None => doc
             end) doc l
    = set_doc_connectors (prune_map Connector.canvas l (doc_connectors doc)) doc.
Proof.
    unfold prune_map. revert doc. induction l as [|id l IH]; intros doc; simpl.
    - by destruct doc.
    - rewrite IH.
      destruct (doc_connectors doc !! id) as [c|]; [|done].
      destruct (Connector.canvas c); [|done]. by destruct doc.
Qed.

  (** What pruning one kind of entity leaves behind. *)
Lemma pruned_lookup {X V} (removable : X -> bool) (live : gmap string X)
      (snap : gmap string V) id :
    let pruned :=
      prune_map removable
        (remove_known (fun k => bool_decide (is_Some (live !! k)))
           (Qt.qmap_keys live) (Qt.qmap_entries snap)) live in
    (forall x, pruned !! id = Some x -> removable x = true -> is_Some (snap !! id))
    /\ (is_Some (snap !! id) -> pruned !! id = live !! id)
    /\ (forall x, pruned !! id = Some x -> live !! id = Some x).
Proof.
    intros pruned. subst pruned.
    rewrite prune_map_lookup.
    assert (Hin : id ∈ remove_known (fun k => bool_decide (is_Some (live !! k)))
                    (Qt.qmap_keys live) (Qt.qmap_entries snap)
                  <-> is_Some (live !! id) /\ ~ is_Some (snap !! id)).
    { rewrite elem_of_remove_known, elem_of_qmap_keys.
      fold (Qt.qmap_keys snap). rewrite elem_of_qmap_keys, bool_decide_eq_true.
      tauto. }
    case_bool_decide as Hl; simpl.
    - apply Hin in Hl as [[x Hx] Hs]. rewrite Hx. simpl.
      destruct (removable x) eqn:Er.
      + split; [done|]. split; [done|]. done.
      + split; [intros ? [= <-]; congruence|]. split; [done|]. done.
    - split; [|split; [done|done]].
      intros x Hx Hr. destruct (decide (is_Some (snap !! id))) as [|Hn]; [done|].
      exfalso. apply Hl, Hin. eauto.
Qed.

  (** *** What a merge keeps *)

Lemma merge_create_connector_keeps doc it :
    let doc' := (merge_create_connector doc it).1 in
    doc_type doc' = doc_type doc /\ doc_items doc' = doc_items doc
    /\ (forall id, is_Some (doc_nodes doc' !! id) <-> is_Some (doc_nodes doc !! id)).
Proof.
    destruct it as [k c]. unfold merge_create_connector, then_logged. cbn [fst snd].
    destruct (connectorWithID k doc); [done|].
    fold (start_endpoint doc c) (end_endpoint doc c).
    destruct (start_endpoint doc c) as [[s|] lgs], (end_endpoint doc c) as [[e|] lge];
      simpl; try done.
    split; [done|]. split; [done|]. intros id. by rewrite !lookup_alter_is_Some.
Qed.

Lemma merge_restore_connector_keeps sel doc it :
    let doc' := merge_restore_connector sel doc it in
    doc_type doc' = doc_type doc /\ doc_items doc' = doc_items doc
    /\ doc_nodes doc' = doc_nodes doc.
Proof.
    unfold merge_restore_connector. destruct (connectorWithID it.1 doc); [|done].
    by destruct sel.
Qed.

Lemma merge_connectors_keeps sel d doc :
    let doc' := (merge_connectors sel d doc).1 in
    doc_type doc' = doc_type doc /\ doc_items doc' = doc_items doc
    /\ (forall id, is_Some (doc_nodes doc' !! id) <-> is_Some (doc_nodes doc !! id)).
Proof.
    unfold merge_connectors. destruct (isICNDocument doc); [|done].
    unfold then_logged. cbn [fst snd].
    apply (foldl_preserves
             (fun x => doc_type x = doc_type doc /\ doc_items x = doc_items doc
                       /\ (forall id, is_Some (doc_nodes x !! id)
                                      <-> is_Some (doc_nodes doc !! id)))).
    - intros a b _ (Ht & Hi & Hn).
      destruct (merge_restore_connector_keeps sel a b) as (Ht' & Hi' & Hn').
      cbv zeta in *. rewrite Ht', Hi', Hn'. done.
    - rewrite foldl_logged_fst.
      apply (foldl_preserves
               (fun x => doc_type x = doc_type doc /\ doc_items x = doc_items doc
                         /\ (forall id, is_Some (doc_nodes x !! id)
                                        <-> is_Some (doc_nodes doc !! id)))); [|done].
      intros a b _ (Ht & Hi & Hn).
      destruct (merge_create_connector_keeps a b) as (Ht' & Hi' & Hn').
      cbv zeta in *. rewrite Ht', Hi'. split; [done|]. split; [done|].
      intros id. by rewrite Hn', Hn.
Qed.

Lemma merge_items_nodes sel d doc : doc_nodes (merge_items sel d doc).1 = doc_nodes doc.
Proof.
    unfold merge_items, then_logged. cbn [fst snd].
    apply (foldl_preserves (fun x => doc_nodes x = doc_nodes doc)).
    - intros a b _ Ha. unfold merge_restore_item.
      destruct (itemWithID b.1 a); [|done]. destruct sel; simpl;
        match goal with |- context [match ?x with _ => _ end] => destruct x end; done.
    - rewrite foldl_logged_fst.
      apply (foldl_preserves (fun x => doc_nodes x = doc_nodes doc)); [|done].
      intros a b _ Ha. unfold merge_create_item.
      destruct (_ && _); [|done].
      destruct (createItem _ _ _); [|done]. by destruct (negb _).
Qed.

  (** Every node record has a live node once the node loops are done. *)
Lemma merge_nodes_present d doc id :
    doc_type doc = dt_circuit \/ doc_type doc = dt_flowcode ->
    is_Some (m_nodeDataMap d !! id) ->
    is_Some (doc_nodes (merge_nodes d doc) !! id).
Proof.
    intros Hty [v Hv]. unfold merge_nodes.
    assert (isICNDocument doc = true) as ->.
    { unfold isICNDocument. by destruct Hty as [-> | ->]. }
    apply elem_of_qmap_entries in Hv.
    assert (Hmove : forall l doc0,
               is_Some (doc_nodes doc0 !! id) ->
               is_Some (doc_nodes (foldl merge_move_node doc0 l) !! id)).
    { intros l doc0. apply (foldl_preserves (fun x => is_Some (doc_nodes x !! id))).
      intros a b _ Ha. unfold merge_move_node. destruct (nodeWithID b.1 a); [|done].
      simpl. rewrite lookup_insert_is_Some.
      destruct (decide (b.1 = id)); [by left|by right]. }
    apply Hmove.
    assert (Hcreate : forall doc0 b,
               doc_type (merge_create_node doc0 b) = doc_type doc0
               /\ (is_Some (doc_nodes doc0 !! id) ->
                   is_Some (doc_nodes (merge_create_node doc0 b) !! id))
               /\ (doc_type doc0 = dt_circuit \/ doc_type doc0 = dt_flowcode ->
                   is_Some (doc_nodes (merge_create_node doc0 b) !! b.1))).
    { intros doc0 b. unfold merge_create_node, nodeWithID.
      destruct (doc_nodes doc0 !! b.1) eqn:E; [rewrite E; eauto|].
      destruct (doc_type doc0) eqn:Et; simpl; rewrite ?Et;
        (split; [done|]); split;
        try (intros [|]; discriminate); try done.
      all: try (intros Hid; rewrite lookup_insert_is_Some;
                destruct (decide (b.1 = id)); [by left|by right]).
      all: intros _; rewrite lookup_insert_eq; eauto. }
    generalize (Qt.qmap_entries (m_nodeDataMap d)) Hv doc Hty.
    clear -Hcreate. intros l. induction l as [|b l IH]; intros Hin doc Hty.
    - by apply elem_of_nil in Hin.
    - simpl. destruct (Hcreate doc b) as (Ht & Hkeep & Hnew).
      apply elem_of_cons in Hin as [<-|Hin].
      + apply (foldl_preserves (fun x => is_Some (doc_nodes x !! id))).
        * intros a b' _ Ha. by apply Hcreate.
        * by apply Hnew.
      + apply IH; [done|]. by rewrite Ht.
Qed.

Lemma restoreMicro_keeps d doc :
    doc_type (restoreMicro d doc) = doc_type doc
    /\ doc_nodes (restoreMicro d doc) = doc_nodes doc.
Proof. unfold restoreMicro. by destruct (_ && _). Qed.

Lemma merged_document_eq d doc :
    merged_document d doc
    = (merge_connectors false d (before_connectors false d (restoreMicro d doc))).1.
Proof. unfold merged_document. by rewrite mergeWithDocument_unfold. Qed.

Lemma merged_document_type d doc : doc_type (merged_document d doc) = doc_type doc.
Proof.
    rewrite merged_document_eq.
    destruct (merge_connectors_keeps false d (before_connectors false d (restoreMicro d doc)))
      as (-> & _). unfold before_connectors.
    rewrite merge_items_type, merge_nodes_type. apply restoreMicro_keeps.
Qed.

Lemma merged_document_nodes d doc id :
    doc_type doc = dt_circuit \/ doc_type doc = dt_flowcode ->
    is_Some (m_nodeDataMap d !! id) ->
    is_Some (doc_nodes (merged_document d doc) !! id).
Proof.
    intros Hty Hid. rewrite merged_document_eq.
    destruct (merge_connectors_keeps false d (before_connectors false d (restoreMicro d doc)))
      as (_ & _ & ->). unfold before_connectors. rewrite merge_items_nodes.
    apply merge_nodes_present; [|done].
    by rewrite (proj1 (restoreMicro_keeps d doc)).
Qed.

Lemma restored_document_eq d doc :
    restored_document PicItem_typeString d doc
    = let p := prune_items PicItem_typeString d (merged_document d doc) in
      if isICNDocument doc then prune_connectors d (prune_nodes d p) else p.
Proof.
    unfold restored_document, restoreDocument, then_logged. cbn [fst snd].
    fold (merged_document d doc).
    rewrite mergeWithDocument_unfold. cbn [fst snd default].
    rewrite <- merged_document_eq.
    assert (isICNDocument (prune_items PicItem_typeString d (merged_document d doc))
            = isICNDocument doc) as ->.
    { unfold prune_items. rewrite prune_items_fold. unfold isICNDocument. simpl.
      by rewrite merged_document_type. }
    by destruct (isICNDocument doc).
Qed.

End restore.

(** C7, as stated, fails: after the restore the live document has no item
    "x", although "x" is a key of the snapshot. *)
Lemma untyped_item_is_not_restored :
  ~ live_matches_snapshot "microitem" untyped_snapshot
      (@restored_document example_values example_library "microitem"
         untyped_snapshot blank_circuit_document).
Proof.
  intros (Hitems & _).
  assert (Hx : bool_decide
                 (is_Some (doc_items
                             (@restored_document example_values example_library
                                "microitem" untyped_snapshot blank_circuit_document)
                           !! "x")) = false) by (vm_compute; reflexivity).
  apply bool_decide_eq_false in Hx. apply Hx, Hitems. left.
  exists ItemData.init. reflexivity.
Qed.

(** C7 (amended). After [restoreDocument], every live item with a canvas
    presence other than the microcontroller-placement item, and in a
    graph-capable document every free-standing node and every connector with
    a canvas presence, has an identifier that is a key of the snapshot's
    respective map; pruning removes nothing whose identifier is a snapshot
    key; and in a circuit or flow-code document every node key of the
    snapshot is a live node. *)
Theorem restoreDocument_prunes {QV : QtValue} {IL : ItemLibrary}
    (PicItem_typeString : string) (d : ItemDocumentData) (doc : ItemDocument) :
  let doc' := restored_document PicItem_typeString d doc in
  let merged := merged_document d doc in
  (forall id item, doc_items doc' !! id = Some item ->
      Item.canvas item = true -> Item.type item <> PicItem_typeString ->
      is_Some (m_itemDataMap d !! id))
  /\ (forall id, is_Some (m_itemDataMap d !! id) ->
        doc_items doc' !! id = doc_items merged !! id)
  /\ (isICNDocument doc = true ->
        (forall id node, doc_nodes doc' !! id = Some node ->
            Node.canvas node = true -> Node.isChildNode node = false ->
            is_Some (m_nodeDataMap d !! id))
        /\ (forall id, is_Some (m_nodeDataMap d !! id) ->
              doc_nodes doc' !! id = doc_nodes merged !! id)
        /\ (forall id connector, doc_connectors doc' !! id = Some connector ->
              Connector.canvas connector = true ->
              is_Some (m_connectorDataMap d !! id))
        /\ (forall id, is_Some (m_connectorDataMap d !! id) ->
              doc_connectors doc' !! id = doc_connectors merged !! id))
  /\ (doc_type doc = dt_circuit \/ doc_type doc = dt_flowcode ->
      forall id, is_Some (m_nodeDataMap d !! id) -> is_Some (doc_nodes doc' !! id)).
Proof.
  intros doc' merged.
  assert (Hitems : doc_items doc'
                   = prune_map (item_removable PicItem_typeString)
                       (remove_known (fun k => bool_decide (is_Some (doc_items merged !! k)))
                          (Qt.qmap_keys (doc_items merged))
                          (Qt.qmap_entries (m_itemDataMap d)))
                       (doc_items merged)).
  { subst doc'. rewrite restored_document_eq. cbv zeta.
    unfold prune_items, prune_nodes, prune_connectors.
    rewrite prune_items_fold.
    destruct (isICNDocument doc); [|done].
    by rewrite prune_nodes_fold, prune_connectors_fold. }
  assert (Hnodes : isICNDocument doc = true ->
                   doc_nodes doc'
                   = prune_map node_removable
                       (remove_known (fun k => bool_decide (is_Some (doc_nodes merged !! k)))
                          (Qt.qmap_keys (doc_nodes merged))
                          (Qt.qmap_entries (m_nodeDataMap d)))
                       (doc_nodes merged)).
  { intros Hicn. subst doc'. rewrite restored_document_eq, Hicn. cbv zeta.
    unfold prune_items, prune_nodes, prune_connectors.
    by rewrite prune_items_fold, prune_nodes_fold, prune_connectors_fold. }
  assert (Hconns : isICNDocument doc = true ->
                   doc_connectors doc'
                   = prune_map Connector.canvas
                       (remove_known
                          (fun k => bool_decide (is_Some (doc_connectors merged !! k)))
                          (Qt.qmap_keys (doc_connectors merged))
                          (Qt.qmap_entries (m_connectorDataMap d)))
                       (doc_connectors merged)).
  { intros Hicn. subst doc'. rewrite restored_document_eq, Hicn. cbv zeta.
    unfold prune_items, prune_nodes, prune_connectors.
    by rewrite prune_items_fold, prune_nodes_fold, prune_connectors_fold. }
  split; [|split; [|split]].
  - intros id item Hid Hc Ht. rewrite Hitems in Hid.
    eapply (pruned_lookup (item_removable PicItem_typeString)); [exact Hid|].
    unfold item_removable. rewrite Hc. simpl. by apply bool_decide_eq_true.
  - intros id Hid. rewrite Hitems.
    by apply (pruned_lookup (item_removable PicItem_typeString)).
  - intros Hicn. rewrite (Hnodes Hicn), (Hconns Hicn).
    split; [|split; [|split]].
    + intros id node Hid Hc Hch.
      eapply (pruned_lookup node_removable); [exact Hid|].
      unfold node_removable. by rewrite Hc, Hch.
    + intros id Hid. by apply (pruned_lookup node_removable).
    + intros id c Hid Hc. by eapply (pruned_lookup Connector.canvas).
    + intros id Hid. by apply (pruned_lookup Connector.canvas).
  - intros Hty id Hid.
    assert (Hicn : isICNDocument doc = true).
    { unfold isICNDocument. by destruct Hty as [-> | ->]. }
    rewrite (Hnodes Hicn).
    destruct (pruned_lookup node_removable (doc_nodes merged) (m_nodeDataMap d) id)
      as (_ & Hkeep & _).
    rewrite Hkeep by done. by apply merged_document_nodes.
Qed.

(** * Text forms that survive a round trip *)

Section strings.

Lemma string_app_cons (c : ascii) (s1 s2 : string) :
    String c s1 +:+ s2 = String c (s1 +:+ s2).
Proof. reflexivity. Qed.

Lemma string_app_nil (s : string) : "" +:+ s = s.
Proof. reflexivity. Qed.

Lemma string_app_assoc (s1 s2 s3 : string) : (s1 +:+ s2) +:+ s3 = s1 +:+ (s2 +:+ s3).
Proof.
    induction s1 as [|c s1 IH]; [done|]. rewrite !string_app_cons. by f_equal.
Qed.

Lemma string_app_empty_r (s : string) : s +:+ "" = s.
Proof. induction s as [|c s IH]; [done|]. rewrite string_app_cons. by f_equal. Qed.

Lemma string_forall_app P s1 s2 :
    string_forall P (s1 +:+ s2) = string_forall P s1 && string_forall P s2.
Proof.
    induction s1 as [|c s1 IH]; [done|].
    rewrite string_app_cons. simpl. by rewrite IH, andb_assoc.
Qed.

  (** Reading up to the next separator. *)
Lemma split_go_part sep cur s rest :
    string_forall (is_not sep) s = true ->
    Qt.split_go sep cur (s +:+ String sep rest)
    = Qt.emit (cur +:+ s) ++ Qt.split_go sep "" rest.
Proof.
    revert cur. induction s as [|c s IH]; intros cur Hs;
      rewrite ?string_app_cons, ?string_app_nil; simpl in *.
    - by rewrite Ascii.eqb_refl, string_app_empty_r.
    - apply andb_true_iff in Hs as [Hc Hs]. unfold is_not in Hc.
      apply negb_true_iff in Hc. rewrite Hc, IH by done.
      by rewrite string_app_assoc, string_app_cons, string_app_nil.
Qed.

Lemma split_go_last sep cur s :
    string_forall (is_not sep) s = true ->
    Qt.split_go sep cur s = Qt.emit (cur +:+ s).
Proof.
    revert cur. induction s as [|c s IH]; intros cur Hs; simpl in *.
    - by rewrite string_app_empty_r.
    - apply andb_true_iff in Hs as [Hc Hs]. unfold is_not in Hc.
      apply negb_true_iff in Hc. rewrite Hc, IH by done.
      by rewrite string_app_assoc, string_app_cons, string_app_nil.
Qed.

Lemma emit_nonempty s : s <> "" -> Qt.emit s = [s].
Proof. intros Hs. unfold Qt.emit. by rewrite bool_decide_eq_false_2. Qed.

Lemma plain_word_spec s :
    plain_word s = true -> s <> "" /\ string_forall (is_not " ") s = true.
Proof.
    unfold plain_word. intros [Hne Hs]%andb_true_iff. split; [|done].
    apply negb_true_iff, bool_decide_eq_false in Hne. done.
Qed.

  (** [split(" ")] undoes [join(" ")] on pin names. *)
Lemma split_join pins :
    forallb plain_word pins = true -> Qt.split " " (Qt.join " " pins) = pins.
Proof.
    unfold Qt.split. induction pins as [|s pins IH]; [done|].
    intros [Hs Hpins]%andb_true_iff. apply plain_word_spec in Hs as [Hne Hs].
    destruct pins as [|s' pins].
    - simpl. rewrite split_go_last by done. rewrite string_app_nil.
      by apply emit_nonempty.
    - change (Qt.join " " (s :: s' :: pins))
        with (s +:+ String " " (Qt.join " " (s' :: pins))).
      rewrite split_go_part by done. rewrite string_app_nil.
      rewrite emit_nonempty by done. simpl. f_equal. by apply IH.
Qed.

  (** *** Decimal numbers *)

Lemma string_of_uint_chars d :
    string_forall is_digit_or_minus (NilEmpty.string_of_uint d) = true.
Proof. induction d; simpl; auto. Qed.

Lemma number_chars z : string_forall is_digit_or_minus (Qt.number z) = true.
Proof.
    unfold Qt.number, NilZero.string_of_int, NilZero.string_of_uint.
    destruct (Z.to_int z) as [d|d]; destruct d; simpl; auto using string_of_uint_chars.
Qed.

Lemma string_forall_impl (P Q : ascii -> bool) s :
    (forall c, P c = true -> Q c = true) ->
    string_forall P s = true -> string_forall Q s = true.
Proof.
    intros HPQ. induction s as [|c s IH]; simpl; [done|].
    intros [Hc Hs]%andb_true_iff. by rewrite (HPQ _ Hc), IH.
Qed.

Lemma number_no_comma z : string_forall (is_not ",") (Qt.number z) = true.
Proof.
    eapply string_forall_impl; [|apply number_chars].
    intros c. unfold is_digit_or_minus, is_not. intros Hc.
    apply negb_true_iff. destruct (Ascii.eqb_spec c ","); [subst; done|done].
Qed.

Lemma number_nonempty z : Qt.number z <> "".
Proof.
    unfold Qt.number, NilZero.string_of_int, NilZero.string_of_uint.
    destruct (Z.to_int z) as [d|d]; destruct d; simpl; done.
Qed.

Lemma to_int_proper z : Z.to_int z <> Decimal.Pos Decimal.Nil
                          /\ Z.to_int z <> Decimal.Neg Decimal.Nil.
Proof.
    destruct z as [|p|p]; simpl; split; try done;
      intros [= E]; by apply DecimalPos.Unsigned.to_uint_nonnil in E.
Qed.

Lemma digit_or_minus_plain c :
    is_digit_or_minus c = true -> Qt.isSpace c = false /\ Ascii.eqb c "+" = false.
Proof.
    unfold is_digit_or_minus, Qt.isSpace. intros Hc. split.
    - apply orb_true_iff in Hc as [Hc|Hc]; apply bool_decide_eq_true_1 in Hc;
        rewrite !(bool_decide_eq_false_2 _) by lia; done.
    - destruct (Ascii.eqb_spec c "+") as [->|]; [|done].
      apply orb_true_iff in Hc as [Hc|Hc]; apply bool_decide_eq_true_1 in Hc;
        cbn in Hc; lia.
Qed.

Lemma trim_right_plain s :
    string_forall (fun c => negb (Qt.isSpace c)) s = true -> Qt.trim_right s = s.
Proof.
    induction s as [|c s IH]; [done|]. cbn [string_forall Qt.trim_right].
    intros [Hc Hs]%andb_true_iff. rewrite IH by done.
    apply negb_true_iff in Hc. rewrite Hc. by destruct s.
Qed.

Lemma trimmed_plain s :
    string_forall (fun c => negb (Qt.isSpace c)) s = true -> Qt.trimmed s = s.
Proof.
    intros Hs. unfold Qt.trimmed.
    assert (Qt.trim_left s = s) as ->.
    { destruct s as [|c s]; [done|]. cbn in *.
      apply andb_true_iff in Hs as [Hc _]. apply negb_true_iff in Hc. by rewrite Hc. }
    by apply trim_right_plain.
Qed.

Lemma trimmed_number z : Qt.trimmed (Qt.number z) = Qt.number z.
Proof.
    apply trimmed_plain. eapply string_forall_impl; [|apply number_chars].
    intros c Hc. apply digit_or_minus_plain in Hc as [-> _]. done.
Qed.

  (** [toInt] reads back what [number] wrote, for a 32-bit value. *)
Lemma toInt_number z : Qt.in_int z -> Qt.toInt (Qt.number z) = z.
Proof.
    intros Hz. unfold Qt.toInt. rewrite trimmed_number.
    pose proof (number_chars z) as Hchars.
    destruct (Qt.number z) as [|c digits] eqn:En; [by apply number_nonempty in En|].
    cbn [string_forall] in Hchars. apply andb_true_iff in Hchars as [Hc _].
    apply digit_or_minus_plain in Hc as [_ ->]. rewrite <- En.
    unfold Qt.number. destruct (to_int_proper z) as [H1 H2].
    rewrite NilZero.isi by done. rewrite DecimalZ.of_to.
    by rewrite bool_decide_eq_true_2.
Qed.

Lemma int_to_bool_number (b : bool) : int_to_bool (Qt.toInt (bool_number b)) = b.
Proof. by destruct b. Qed.

Lemma bool_number_is_1 (b : bool) : bool_decide (bool_number b = "1") = b.
Proof. by destruct b. Qed.

  (** *** Routes *)

Lemma routeString_app acc route :
    foldl (fun route it =>
             (route +:+ (Qt.number (px it) +:+ ",")) +:+ (Qt.number (py it) +:+ ","))
          acc route
    = acc +:+ routeText route.
Proof.
    revert acc. induction route as [|p route IH]; intros acc; simpl.
    - by rewrite string_app_empty_r.
    - rewrite IH. by rewrite !string_app_assoc, !string_app_cons, !string_app_nil.
Qed.

Lemma split_routeText route :
    Qt.split "," (routeText route) = routeFields route.
Proof.
    unfold Qt.split, routeFields. induction route as [|p route IH]; [done|].
    simpl routeText. rewrite split_go_part by apply number_no_comma.
    rewrite string_app_nil, emit_nonempty by apply number_nonempty.
    rewrite split_go_part by apply number_no_comma.
    rewrite string_app_nil, emit_nonempty by apply number_nonempty.
    simpl. by rewrite IH.
Qed.

Lemma routeOfPoints_numbers route :
    Forall point_in_int route ->
    routeOfPoints (routeFields route) = Some route.
Proof.
    induction 1 as [|p route [Hx Hy] _ IH]; [done|].
    unfold routeFields in *. cbn [flat_map app routeOfPoints].
    rewrite !toInt_number, IH by done. by destruct p.
Qed.

Lemma route_points route :
    (if bool_decide (routeText route = "") then []
     else Qt.split "," (routeText route))
    = routeFields route.
Proof.
    case_bool_decide as E.
    - destruct route as [|p route]; [done|]. simpl in E.
      destruct (Qt.number (px p)) eqn:En; [by apply number_nonempty in En|done].
    - apply split_routeText.
Qed.

Lemma route_round_trip route :
    Forall point_in_int route ->
    routeOfPoints (if bool_decide (routeText route = "") then []
                   else Qt.split "," (routeText route)) = Some route.
Proof. intros Hr. rewrite route_points. by apply routeOfPoints_numbers. Qed.

End strings.

(** * What the reader makes of what the writer wrote *)


(** ** The tree, element by element *)

Section dom.

Lemma append_entries_eq {V} (f : string -> V -> QDomNode) (m : gmap string V) t a c :
    append_entries f m (Element t a c)
    = Element t a (c ++ ((fun it => f it.1 it.2) <$> Qt.qmap_entries m)).
Proof.
    unfold append_entries. generalize (Qt.qmap_entries m). intros l. revert c.
    induction l as [|it l IH]; intros c; simpl.
    - by rewrite app_nil_r.
    - rewrite IH. by rewrite <- app_assoc.
Qed.

  (** Filling a map from the entries of another. *)
Lemma insert_entries_lookup {V W} (g : V -> W) (l : list (string * V))
      (acc : gmap string W) k :
    NoDup l.*1 ->
    foldl (fun acc it => <[it.1 := g it.2]> acc) acc l !! k
    = match (list_to_map l : gmap string V) !! k with
      | Some v => Some (g v)
      | None => acc !! k
      end.
Proof.
    revert acc. induction l as [|[k' v'] l IH]; intros acc Hnd; simpl.
    - by rewrite lookup_empty.
    - apply NoDup_cons in Hnd as [Hnin Hnd]. rewrite IH by done.
      destruct (decide (k' = k)) as [->|Hne].
      + rewrite lookup_insert_eq.
        rewrite (not_elem_of_list_to_map_1 (M := gmap string)) by done.
        by rewrite lookup_insert_eq.
      + rewrite !lookup_insert_ne by done. done.
Qed.

Lemma insert_entries_fmap {V W} (g : V -> W) (m : gmap string V) :
    foldl (fun acc it => <[it.1 := g it.2]> acc) ∅ (Qt.qmap_entries m) = g <$> m.
Proof.
    apply map_eq. intros k.
    rewrite insert_entries_lookup by apply NoDup_fst_qmap_entries.
    assert ((list_to_map (Qt.qmap_entries m) : gmap string V) = m) as ->.
    { rewrite (list_to_map_proper _ (map_to_list m)).
      - apply list_to_map_to_list.
      - apply NoDup_fst_qmap_entries.
      - apply qmap_entries_perm. }
    rewrite lookup_fmap. by destruct (m !! k).
Qed.

Lemma insert_entries_id {V} (m : gmap string V) :
    foldl (fun acc it => <[it.1 := it.2]> acc) ∅ (Qt.qmap_entries m) = m.
Proof.
    rewrite (insert_entries_fmap (fun v => v)). apply map_fmap_id.
Qed.

Lemma insert_entries_ext {V W} (g h : V -> W) (m : gmap string V) :
    map_Forall (fun _ v => g v = h v) m ->
    foldl (fun acc it => <[it.1 := g it.2]> acc) ∅ (Qt.qmap_entries m) = h <$> m.
Proof.
    intros Hgh. rewrite <- insert_entries_fmap. apply foldl_ext_in.
    intros acc [k v] Hin%elem_of_qmap_entries. simpl. by rewrite (Hgh k v Hin).
Qed.

End dom.

(** ** Reading an item element back *)

Section item_element.
Context {QV : QtValue}.

Lemma itemDataToElement_eq itemData :
    itemDataToElement itemData
    = Element "item" (item_attrs itemData) (item_children itemData).
Proof.
    unfold itemDataToElement, item_attrs, item_children.
    destruct (bool_decide (ItemData.z itemData <> -1)),
             (ItemData.setSize itemData),
             (bool_decide (0 <= ItemData.orientation itemData)),
             (bool_decide (ItemData.parentId itemData <> ""));
      cbn [setAttribute createElement]; rewrite !append_entries_eq;
      cbn [app]; by rewrite <- !app_assoc.
Qed.

Lemma is_Some_Some_true {A} (x : A) : bool_decide (is_Some (Some x)) = true.
Proof. apply bool_decide_eq_true_2. eauto. Qed.

Lemma is_Some_None_false {A} : bool_decide (is_Some (@None A)) = false.
Proof. apply bool_decide_eq_false_2. by intros [? ?]. Qed.

Lemma itemDataOfAttributes_item k itemData cs :
    valid_item itemData ->
    itemDataOfAttributes (Element "item" (<["id" := k]> (item_attrs itemData)) cs)
    = bare (norm_item itemData).
Proof.
    intros [Hx Hy Hz (Hrx & Hry & Hrw & Hrh) Ho Ha _ _ _].
    destruct itemData as [ty x y z [rx ry rw rh] setSize o a f bm sm p db dn dc ds dr].
    cbn in *.
    unfold itemDataOfAttributes, bare, norm_item, attribute, hasAttribute,
      attribute_opt, item_attrs.
    cbn [ItemData.type ItemData.x ItemData.y ItemData.z ItemData.size ItemData.setSize
         ItemData.orientation ItemData.angleDegrees ItemData.flipped ItemData.parentId
         ItemData.buttonMap ItemData.sliderMap ItemData.dataBool ItemData.dataNumber
         ItemData.dataColor ItemData.dataString ItemData.dataRaw ItemData.init].
    assert (Hm1 : Qt.toInt "-1" = -1) by reflexivity.
    assert (H0 : Qt.toInt "0" = 0) by reflexivity.
    destruct (bool_decide (z <> -1)) eqn:Ez;
      [|apply bool_decide_eq_false in Ez; apply dec_stable in Ez; subst z];
      destruct setSize;
      destruct (bool_decide (0 <= o)) eqn:Eo;
      destruct (bool_decide (p <> "")) eqn:Ep;
      try (apply bool_decide_eq_false in Ep; apply dec_stable in Ep; subst p);
      attr_lookup; rewrite ?is_Some_Some_true, ?is_Some_None_false;
      cbn [default from_option id andb]; attr_lookup; cbn [default from_option id];
      rewrite ?toInt_number, ?int_to_bool_number, ?Hm1, ?H0 by done;
      reflexivity.
Qed.

  (** *** The children of an item element *)

Lemma set_itemDataMap_twice m m' (d : ItemDocumentData) :
    set_itemDataMap m (set_itemDataMap m' d) = set_itemDataMap m d.
Proof. done. Qed.

Lemma set_itemDataMap_same (d : ItemDocumentData) : set_itemDataMap (m_itemDataMap d) d = d.
Proof. by destruct d. Qed.

Lemma qmap_at_present {V} (dflt : V) f k (m : gmap string V) v :
    m !! k = Some v -> qmap_at dflt f k m = <[k := f v]> m.
Proof. intros Hk. unfold qmap_at. by rewrite Hk. Qed.

  (** A run of children that each update the item [id] in place. *)
Lemma item_group_fold {V} rec id (elem : string -> V -> QDomNode)
      (step : string -> V -> ItemData.t -> ItemData.t) :
    (forall d k v,
        itemChild rec id d (elem k v)
        = (set_itemDataMap (qmap_at ItemData.init (step k v) id (m_itemDataMap d)) d, [])) ->
    forall (l : list (string * V)) d it0,
      m_itemDataMap d !! id = Some it0 ->
      foldl_logged (itemChild rec id) d ((fun it => elem it.1 it.2) <$> l)
      = (set_itemDataMap
           (<[id := foldl (fun it e => step e.1 e.2 it) it0 l]> (m_itemDataMap d)) d, []).
Proof.
    intros Hstep l. induction l as [|[k v] l IH]; intros d it0 Hid.
    - simpl. rewrite insert_id by done. by rewrite set_itemDataMap_same.
    - rewrite fmap_cons, foldl_logged_cons. cbn [fst snd]. rewrite Hstep. cbn [fst snd].
      rewrite (qmap_at_present _ _ _ _ _ Hid).
      rewrite (IH _ (step k v it0)) by (simpl; apply lookup_insert_eq).
      simpl. by rewrite insert_insert_eq.
Qed.

  (** Updating one map of a record entry by entry. *)
Lemma fold_field {V W} (get : ItemData.t -> gmap string W)
      (set : gmap string W -> ItemData.t -> ItemData.t) (g : V -> W) :
    (forall m it, get (set m it) = m) ->
    (forall m m' it, set m (set m' it) = set m it) ->
    (forall it, set (get it) it = it) ->
    forall (l : list (string * V)) it0,
      foldl (fun it e => set (<[e.1 := g e.2]> (get it)) it) it0 l
      = set (foldl (fun m e => <[e.1 := g e.2]> m) (get it0) l) it0.
Proof.
    intros Hgs Hss Hsg l. induction l as [|[k v] l IH]; intros it0; simpl.
    - by rewrite Hsg.
    - by rewrite IH, Hgs, Hss.
Qed.

Lemma itemChild_string rec id d k v :
    itemChild rec id d (dataElement k "string" v)
    = (set_itemDataMap
         (qmap_at ItemData.init
            (fun it => ItemData.set_dataString (<[k := v]> (ItemData.dataString it)) it)
            id (m_itemDataMap d)) d, []).
Proof.
    unfold dataElement, itemChild, readData, attribute, attribute_opt, then_logged.
    cbn [setAttribute createElement]. tag_dispatch. attr_lookup.
    cbn [default from_option Datatypes.id orb fst snd app]. tag_dispatch. reflexivity.
Qed.

Lemma itemChild_number rec id d k v :
    itemChild rec id d (dataElement k "number" v)
    = (set_itemDataMap
         (qmap_at ItemData.init
            (fun it => ItemData.set_dataNumber
                         (<[k := toDouble v]> (ItemData.dataNumber it)) it)
            id (m_itemDataMap d)) d, []).
Proof.
    unfold dataElement, itemChild, readData, attribute, attribute_opt, then_logged.
    cbn [setAttribute createElement]. tag_dispatch. attr_lookup.
    cbn [default from_option Datatypes.id orb fst snd app]. tag_dispatch. reflexivity.
Qed.

Lemma itemChild_color rec id d k v :
    itemChild rec id d (dataElement k "color" v)
    = (set_itemDataMap
         (qmap_at ItemData.init
            (fun it => ItemData.set_dataColor
                         (<[k := color_named v]> (ItemData.dataColor it)) it)
            id (m_itemDataMap d)) d, []).
Proof.
    unfold dataElement, itemChild, readData, attribute, attribute_opt, then_logged.
    cbn [setAttribute createElement]. tag_dispatch. attr_lookup.
    cbn [default from_option Datatypes.id orb fst snd app]. tag_dispatch. reflexivity.
Qed.

Lemma itemChild_raw rec id d k v :
    itemChild rec id d (dataElement k "raw" v)
    = (set_itemDataMap
         (qmap_at ItemData.init
            (fun it => ItemData.set_dataRaw
                         (<[k := toQBitArray v]> (ItemData.dataRaw it)) it)
            id (m_itemDataMap d)) d, []).
Proof.
    unfold dataElement, itemChild, readData, attribute, attribute_opt, then_logged.
    cbn [setAttribute createElement]. tag_dispatch. attr_lookup.
    cbn [default from_option Datatypes.id orb fst snd app]. tag_dispatch. reflexivity.
Qed.

Lemma itemChild_bool rec id d k v :
    itemChild rec id d (dataElement k "bool" v)
    = (set_itemDataMap
         (qmap_at ItemData.init
            (fun it => ItemData.set_dataBool
                         (<[k := int_to_bool (Qt.toInt v)]> (ItemData.dataBool it)) it)
            id (m_itemDataMap d)) d, []).
Proof.
    unfold dataElement, itemChild, readData, attribute, attribute_opt, then_logged.
    cbn [setAttribute createElement]. tag_dispatch. attr_lookup.
    cbn [default from_option Datatypes.id orb fst snd app]. tag_dispatch. reflexivity.
Qed.

Lemma itemChild_button rec id d k v :
    itemChild rec id d (setAttribute "state" v (setAttribute "id" k (createElement "button")))
    = (set_itemDataMap
         (qmap_at ItemData.init
            (fun it => ItemData.set_buttonMap
                         (<[k := int_to_bool (Qt.toInt v)]> (ItemData.buttonMap it)) it)
            id (m_itemDataMap d)) d, []).
Proof.
    unfold itemChild, attribute, attribute_opt.
    cbn [setAttribute createElement]. tag_dispatch. attr_lookup.
    cbn [default from_option Datatypes.id]. reflexivity.
Qed.

Lemma itemChild_slider rec id d k v :
    itemChild rec id d (setAttribute "value" v (setAttribute "id" k (createElement "slider")))
    = (set_itemDataMap
         (qmap_at ItemData.init
            (fun it => ItemData.set_sliderMap
                         (<[k := Qt.toInt v]> (ItemData.sliderMap it)) it)
            id (m_itemDataMap d)) d, []).
Proof.
    unfold itemChild, attribute, attribute_opt.
    cbn [setAttribute createElement]. tag_dispatch. attr_lookup.
    cbn [default from_option Datatypes.id]. reflexivity.
Qed.

Lemma item_group_fold' {V} rec id (elem : string -> V -> QDomNode)
      (step : string -> V -> ItemData.t -> ItemData.t) :
    (forall d k v,
        itemChild rec id d (elem k v)
        = (set_itemDataMap (qmap_at ItemData.init (step k v) id (m_itemDataMap d)) d, [])) ->
    forall (l : list (string * V)) items (d : ItemDocumentData) it0,
      foldl_logged (itemChild rec id) (set_itemDataMap (<[id := it0]> items) d)
        ((fun it => elem it.1 it.2) <$> l)
      = (set_itemDataMap (<[id := foldl (fun it e => step e.1 e.2 it) it0 l]> items) d, []).
Proof.
    intros Hstep l items d it0.
    rewrite (item_group_fold rec id elem step Hstep l _ it0)
      by (simpl; apply lookup_insert_eq).
    simpl. by rewrite insert_insert_eq.
Qed.

Lemma insert_entries_same {V W} (g : V -> W) (h : V -> W) (m : gmap string V) :
    (forall k v, m !! k = Some v -> g v = h v) ->
    foldl (fun acc it => <[it.1 := g it.2]> acc) ∅ (Qt.qmap_entries m) = h <$> m.
Proof. intros Hgh. by apply insert_entries_ext. Qed.

Lemma fold_field_entries {V W} (get : ItemData.t -> gmap string W)
      (set : gmap string W -> ItemData.t -> ItemData.t) (g h : V -> W)
      (m : gmap string V) it0 :
    (forall m it, get (set m it) = m) ->
    (forall m m' it, set m (set m' it) = set m it) ->
    (forall it, set (get it) it = it) ->
    get it0 = ∅ ->
    map_Forall (fun _ v => g v = h v) m ->
    foldl (fun it e => set (<[e.1 := g e.2]> (get it)) it) it0 (Qt.qmap_entries m)
    = set (h <$> m) it0.
Proof.
    intros Hgs Hss Hsg H0 Hgh.
    rewrite (fold_field get set g Hgs Hss Hsg), H0. by rewrite (insert_entries_ext g h).
Qed.

  (** The record an item element is read back as. *)
Lemma item_children_absorbed itemData :
    valid_item itemData ->
    foldl (fun it e => ItemData.set_sliderMap
                         (<[e.1 := Qt.toInt (Qt.number e.2)]> (ItemData.sliderMap it)) it)
      (foldl (fun it e => ItemData.set_buttonMap
                            (<[e.1 := int_to_bool (Qt.toInt (bool_number e.2))]>
                               (ItemData.buttonMap it)) it)
         (foldl (fun it e => ItemData.set_dataBool
                               (<[e.1 := int_to_bool (Qt.toInt (bool_number e.2))]>
                                  (ItemData.dataBool it)) it)
            (foldl (fun it e => ItemData.set_dataRaw
                                  (<[e.1 := toQBitArray (toAsciiHex e.2)]>
                                     (ItemData.dataRaw it)) it)
               (foldl (fun it e => ItemData.set_dataColor
                                     (<[e.1 := color_named (color_name e.2)]>
                                        (ItemData.dataColor it)) it)
                  (foldl (fun it e => ItemData.set_dataNumber
                                        (<[e.1 := toDouble (number_double e.2)]>
                                           (ItemData.dataNumber it)) it)
                     (foldl (fun it e => ItemData.set_dataString
                                           (<[e.1 := e.2]> (ItemData.dataString it)) it)
                        (bare (norm_item itemData))
                        (Qt.qmap_entries (ItemData.dataString itemData)))
                     (Qt.qmap_entries (ItemData.dataNumber itemData)))
                  (Qt.qmap_entries (ItemData.dataColor itemData)))
               (Qt.qmap_entries (ItemData.dataRaw itemData)))
            (Qt.qmap_entries (ItemData.dataBool itemData)))
         (Qt.qmap_entries (ItemData.buttonMap itemData)))
      (Qt.qmap_entries (ItemData.sliderMap itemData))
    = norm_item itemData.
Proof.
    intros Hv.
    rewrite (fold_field_entries ItemData.dataString ItemData.set_dataString
               (fun v => v) (fun v => v));
      [|done|done|by intros []|reflexivity|by intros ???].
    rewrite (fold_field_entries ItemData.dataNumber ItemData.set_dataNumber
               (fun v => toDouble (number_double v)) (fun v => v));
      [|done|done|by intros []|reflexivity|apply (valid_numbers _ Hv)].
    rewrite (fold_field_entries ItemData.dataColor ItemData.set_dataColor
               (fun v => color_named (color_name v)) (fun v => v));
      [|done|done|by intros []|reflexivity|apply (valid_colors _ Hv)].
    rewrite (fold_field_entries ItemData.dataRaw ItemData.set_dataRaw
               (fun v => toQBitArray (toAsciiHex v)) padded);
      [|done|done|by intros []|reflexivity
       |intros ???; apply toQBitArray_toAsciiHex_padded].
    rewrite (fold_field_entries ItemData.dataBool ItemData.set_dataBool
               (fun v => int_to_bool (Qt.toInt (bool_number v))) (fun v => v));
      [|done|done|by intros []|reflexivity|intros ???; apply int_to_bool_number].
    rewrite (fold_field_entries ItemData.buttonMap ItemData.set_buttonMap
               (fun v => int_to_bool (Qt.toInt (bool_number v))) (fun v => v));
      [|done|done|by intros []|reflexivity|intros ???; apply int_to_bool_number].
    rewrite (fold_field_entries ItemData.sliderMap ItemData.set_sliderMap
               (fun v => Qt.toInt (Qt.number v)) (fun v => v));
      [|done|done|by intros []|reflexivity
       |intros k v Hk; apply toInt_number, (valid_sliders _ Hv k v Hk)].
    rewrite !map_fmap_id. by destruct itemData.
Qed.

Lemma elementToItemData_Element t attrs nodes d k :
    attrs !! "id" = Some k ->
    elementToItemData (Element t attrs nodes) d
    = foldl_logged (itemChild elementToItemData k)
        (set_itemDataMap
           (<[k := itemDataOfAttributes (Element t attrs nodes)]> (m_itemDataMap d)) d)
        nodes.
Proof. intros Hk. cbn [elementToItemData]. by rewrite Hk. Qed.

  (** Reading an item element back. *)
Lemma elementToItemData_item k itemData d :
    valid_item itemData ->
    elementToItemData (setAttribute "id" k (itemDataToElement itemData)) d
    = (set_itemDataMap (<[k := norm_item itemData]> (m_itemDataMap d)) d, []).
Proof.
    intros Hv. rewrite itemDataToElement_eq. cbn [setAttribute].
    rewrite (elementToItemData_Element _ _ _ _ k) by apply lookup_insert_eq.
    rewrite itemDataOfAttributes_item by done.
    unfold item_children.
    rewrite !foldl_logged_app.
    rewrite (item_group_fold' _ k (fun k v => dataElement k "string" v)
               (fun k v it => ItemData.set_dataString
                                (<[k := v]> (ItemData.dataString it)) it))
      by (intros; apply itemChild_string).
    cbn [fst snd].
    rewrite (item_group_fold' _ k (fun k v => dataElement k "number" (number_double v))
               (fun k v it => ItemData.set_dataNumber
                                (<[k := toDouble (number_double v)]>
                                   (ItemData.dataNumber it)) it))
      by (intros; apply itemChild_number).
    cbn [fst snd].
    rewrite (item_group_fold' _ k (fun k v => dataElement k "color" (color_name v))
               (fun k v it => ItemData.set_dataColor
                                (<[k := color_named (color_name v)]>
                                   (ItemData.dataColor it)) it))
      by (intros; apply itemChild_color).
    cbn [fst snd].
    rewrite (item_group_fold' _ k (fun k v => dataElement k "raw" (toAsciiHex v))
               (fun k v it => ItemData.set_dataRaw
                                (<[k := toQBitArray (toAsciiHex v)]>
                                   (ItemData.dataRaw it)) it))
      by (intros; apply itemChild_raw).
    cbn [fst snd].
    rewrite (item_group_fold' _ k (fun k v => dataElement k "bool" (bool_number v))
               (fun k v it => ItemData.set_dataBool
                                (<[k := int_to_bool (Qt.toInt (bool_number v))]>
                                   (ItemData.dataBool it)) it))
      by (intros; apply itemChild_bool).
    cbn [fst snd].
    rewrite (item_group_fold' _ k
               (fun k v => setAttribute "state" (bool_number v)
                             (setAttribute "id" k (createElement "button")))
               (fun k v it => ItemData.set_buttonMap
                                (<[k := int_to_bool (Qt.toInt (bool_number v))]>
                                   (ItemData.buttonMap it)) it))
      by (intros; apply itemChild_button).
    cbn [fst snd].
    rewrite (item_group_fold' _ k
               (fun k v => setAttribute "value" (Qt.number v)
                             (setAttribute "id" k (createElement "slider")))
               (fun k v it => ItemData.set_sliderMap
                                (<[k := Qt.toInt (Qt.number v)]>
                                   (ItemData.sliderMap it)) it))
      by (intros; apply itemChild_slider).
    cbn [fst snd app].
    by rewrite item_children_absorbed.
Qed.

End item_element.

(** ** Reading node, connector and micro elements back *)

Section other_elements.
Context {QV : QtValue}.

  (** *** Nodes *)

Lemma elementToNodeData_node k nodeData (d : ItemDocumentData) :
    valid_node nodeData ->
    elementToNodeData (setAttribute "id" k (nodeDataToElement nodeData)) d
    = (set_nodeDataMap (<[k := nodeData]> (m_nodeDataMap d)) d, []).
Proof.
    intros [Hx Hy]. unfold elementToNodeData, nodeDataToElement, attribute, attribute_opt.
    cbn [setAttribute createElement]. attr_lookup. cbn [default from_option Datatypes.id].
    rewrite !toInt_number by done. by destruct nodeData.
Qed.

  (** *** Connectors *)

Lemma routeString_eq route : routeString route = routeText route.
Proof. unfold routeString. by rewrite routeString_app. Qed.

Lemma elementToConnectorData_connector k c (d : ItemDocumentData) :
    valid_connector c ->
    elementToConnectorData (setAttribute "id" k (connectorDataToElement c)) d
    = Some (set_connectorDataMap (<[k := norm_connector c]> (m_connectorDataMap d)) d,
            [Debug (pointsMessage (routeFields (ConnectorData.route c)))]).
Proof.
    intros Hr. unfold elementToConnectorData, connectorDataToElement, norm_connector,
      attribute, attribute_opt.
    destruct c as [mr route sc ec scid ecid sp ep sid eid].
    cbn [ConnectorData.manualRoute ConnectorData.route ConnectorData.startNodeIsChild
         ConnectorData.endNodeIsChild ConnectorData.startNodeCId ConnectorData.endNodeCId
         ConnectorData.startNodeParent ConnectorData.endNodeParent
         ConnectorData.startNodeId ConnectorData.endNodeId] in *.
    assert (H1 : int_to_bool (Qt.toInt (Qt.number 1)) = true) by reflexivity.
    assert (H0 : int_to_bool (Qt.toInt (Qt.number 0)) = false) by reflexivity.
    destruct sc, ec; cbn [setAttribute createElement]; attr_lookup;
      cbn [default from_option Datatypes.id]; rewrite ?H1, ?H0;
      rewrite bool_number_is_1, routeString_eq, route_points,
        routeOfPoints_numbers by done;
      reflexivity.
Qed.

  (** *** The micro element *)

Lemma microDataToElement_eq (d : ItemDocumentData) :
    microDataToElement d
    = Element "micro" (<["id" := MicroData.id (m_microData d)]> ∅)
        (((fun it => pinmapElement it.1 it.2)
            <$> Qt.qmap_entries (MicroData.pinMappings (m_microData d)))
         ++ ((fun it => pinElement it.1 it.2)
               <$> Qt.qmap_entries (MicroData.pinMap (m_microData d)))
         ++ ((fun it => variableElement it.1 it.2)
               <$> Qt.qmap_entries (MicroData.variableMap (m_microData d)))).
Proof.
    unfold microDataToElement. cbn [setAttribute createElement].
    rewrite !append_entries_eq. cbn [app]. by rewrite <- !app_assoc.
Qed.

Lemma readMicroChild_pinmap micro k v :
    k <> "" -> PinMapping.type v <> PinMapping.Invalid ->
    forallb plain_word (PinMapping.pins v) = true ->
    readMicroChild micro (pinmapElement k v)
    = (MicroData.set_pinMappings (<[k := v]> (MicroData.pinMappings micro)) micro, []).
Proof.
    intros Hk Hty Hpins. unfold readMicroChild, pinmapElement, attribute, attribute_opt.
    cbn [setAttribute createElement]. tag_dispatch. attr_lookup.
    cbn [default from_option Datatypes.id].
    rewrite (bool_decide_eq_true_2 (k <> "")) by done.
    destruct v as [ty pins]. cbn [PinMapping.type PinMapping.pins] in *.
    rewrite split_join by done.
    destruct ty; try done; cbn [pinMappingTypeString]; tag_dispatch; reflexivity.
Qed.

Lemma readMicroChild_pin micro k v :
    k <> "" ->
    readMicroChild micro (pinElement k v)
    = (MicroData.set_pinMap (<[k := v]> (MicroData.pinMap micro)) micro, []).
Proof.
    intros Hk. unfold readMicroChild, pinElement, attribute, attribute_opt.
    cbn [setAttribute createElement]. tag_dispatch. attr_lookup.
    cbn [default from_option Datatypes.id].
    rewrite (bool_decide_eq_true_2 (k <> "")) by done.
    unfold qmap_at. rewrite lookup_insert_eq, insert_insert_eq. cbn [default from_option].
    destruct v as [[] []]; cbn [PinData.type PinData.state]; tag_dispatch; reflexivity.
Qed.

Lemma readMicroChild_variable micro k v :
    readMicroChild micro (variableElement k v)
    = (MicroData.set_variableMap (<[k := v]> (MicroData.variableMap micro)) micro, []).
Proof.
    unfold readMicroChild, variableElement, attribute, attribute_opt.
    cbn [setAttribute createElement]. tag_dispatch. attr_lookup.
    cbn [default from_option Datatypes.id]. reflexivity.
Qed.

  (** A run of micro children that each add one entry to one map. *)
Lemma micro_group_fold {V} (elem : string -> V -> QDomNode)
      (get : MicroData.t -> gmap string V)
      (set : gmap string V -> MicroData.t -> MicroData.t) (l : list (string * V)) :
    (forall m it, get (set m it) = m) ->
    (forall m m' it, set m (set m' it) = set m it) ->
    (forall it, set (get it) it = it) ->
    (forall micro k v, (k, v) ∈ l ->
        readMicroChild micro (elem k v) = (set (<[k := v]> (get micro)) micro, [])) ->
    forall micro,
      foldl_logged readMicroChild micro ((fun it => elem it.1 it.2) <$> l)
      = (set (foldl (fun m e => <[e.1 := e.2]> m) (get micro) l) micro, []).
Proof.
    intros Hgs Hss Hsg. induction l as [|[k v] l IH]; intros Hstep micro.
    - simpl. by rewrite Hsg.
    - rewrite fmap_cons, foldl_logged_cons. cbn [fst snd].
      rewrite Hstep by set_solver. cbn [fst snd].
      rewrite IH by (intros; apply Hstep; set_solver).
      simpl. by rewrite Hgs, Hss.
Qed.

Lemma elementToMicroData_micro (d d0 : ItemDocumentData) :
    valid_micro (m_microData d) ->
    MicroData.variableMap (m_microData d0) = ∅ ->
    MicroData.pinMappings (m_microData d0) = ∅ ->
    elementToMicroData (microDataToElement d) d0 = (set_microData (m_microData d) d0, []).
Proof.
    intros [Hpins Hmaps] Hv0 Hm0. rewrite microDataToElement_eq.
    unfold elementToMicroData, attribute_opt, then_logged. attr_lookup.
    cbn [children]. rewrite !foldl_logged_app.
    rewrite (micro_group_fold pinmapElement MicroData.pinMappings MicroData.set_pinMappings);
      [|done|done|by intros []|].
    2:{ intros micro k v Hin%elem_of_qmap_entries.
        destruct (Hmaps k v Hin) as (?&?&?). by apply readMicroChild_pinmap. }
    cbn [fst snd].
    rewrite (micro_group_fold pinElement MicroData.pinMap MicroData.set_pinMap);
      [|done|done|by intros []|].
    2:{ intros micro k v Hin%elem_of_qmap_entries.
        apply readMicroChild_pin. by apply (Hpins k v). }
    cbn [fst snd].
    rewrite (micro_group_fold variableElement MicroData.variableMap
               MicroData.set_variableMap); [|done|done|by intros []|].
    2:{ intros. apply readMicroChild_variable. }
    cbn [fst snd app].
    f_equal. f_equal.
    unfold MicroData.set_variableMap, MicroData.set_pinMap, MicroData.set_pinMappings,
      MicroData.set_id, MicroData.reset.
    cbn [MicroData.id MicroData.pinMap MicroData.variableMap MicroData.pinMappings].
    rewrite Hv0, Hm0, !insert_entries_id. by destruct (m_microData d).
Qed.

End other_elements.

(** ** Reading the whole document back *)

Section whole_document.
Context {QV : QtValue} {QD : QDomText}.

  (** A run of root children that each add one entry to one map. *)
Lemma root_group_fold {V} (elem : string -> V -> QDomNode) (g : V -> V)
      (entries : V -> list LogEntry)
      (get : ItemDocumentData -> gmap string V)
      (set : gmap string V -> ItemDocumentData -> ItemDocumentData)
      (l : list (string * V)) :
    (forall m d, get (set m d) = m) ->
    (forall m m' d, set m (set m' d) = set m d) ->
    (forall d, set (get d) d = d) ->
    (forall d k v, (k, v) ∈ l ->
        readRootChild d (elem k v) = Some (set (<[k := g v]> (get d)) d, entries v)) ->
    forall d,
      foldl_partial readRootChild d ((fun it => elem it.1 it.2) <$> l)
      = Some (set (foldl (fun m e => <[e.1 := g e.2]> m) (get d) l) d,
              flat_map (fun it => entries it.2) l).
Proof.
    intros Hgs Hss Hsg. induction l as [|[k v] l IH]; intros Hstep d.
    - simpl. by rewrite foldl_partial_nil, Hsg.
    - rewrite fmap_cons, foldl_partial_cons. cbn [fst snd].
      rewrite Hstep by set_solver.
      rewrite IH by (intros; apply Hstep; set_solver).
      simpl. by rewrite Hgs, Hss.
Qed.

Lemma flat_map_no_entries {X} (l : list X) :
    flat_map (fun _ => @nil LogEntry) l = [].
Proof. by induction l. Qed.

Lemma flat_map_one_entry {X} (f : X -> LogEntry) (l : list X) :
    flat_map (fun it => [f it]) l = f <$> l.
Proof. induction l as [|x l IH]; [done|]. simpl. by rewrite IH. Qed.

Lemma readRootChild_item d k v :
    valid_item v ->
    readRootChild d (setAttribute "id" k (itemDataToElement v))
    = Some (set_itemDataMap (<[k := norm_item v]> (m_itemDataMap d)) d, []).
Proof.
    intros Hv. rewrite <- (elementToItemData_item k v d) by done.
    rewrite itemDataToElement_eq. reflexivity.
Qed.

Lemma readRootChild_connector d k v :
    valid_connector v ->
    readRootChild d (setAttribute "id" k (connectorDataToElement v))
    = Some (set_connectorDataMap (<[k := norm_connector v]> (m_connectorDataMap d)) d,
            [Debug (pointsMessage (routeFields (ConnectorData.route v)))]).
Proof.
    intros Hv. rewrite <- (elementToConnectorData_connector k v d) by done.
    unfold connectorDataToElement.
    destruct (ConnectorData.startNodeIsChild v), (ConnectorData.endNodeIsChild v);
      reflexivity.
Qed.

Lemma readRootChild_node d k v :
    valid_node v ->
    readRootChild d (setAttribute "id" k (nodeDataToElement v))
    = Some (set_nodeDataMap (<[k := v]> (m_nodeDataMap d)) d, []).
Proof.
    intros Hv. rewrite <- (elementToNodeData_node k v d) by done. reflexivity.
Qed.

Lemma readRootChild_micro d d0 :
    valid_micro (m_microData d) ->
    MicroData.variableMap (m_microData d0) = ∅ ->
    MicroData.pinMappings (m_microData d0) = ∅ ->
    readRootChild d0 (microDataToElement d) = Some (set_microData (m_microData d) d0, []).
Proof.
    intros Hv H1 H2. rewrite <- (elementToMicroData_micro d d0) by done.
    rewrite microDataToElement_eq. reflexivity.
Qed.

  (** The children of the root element that [toXML] builds. *)
Lemma toDomDocument_children d :
    children (documentElement (toDomDocument d))
    = ((fun it => setAttribute "id" it.1 (itemDataToElement it.2))
         <$> Qt.qmap_entries (m_itemDataMap d))
      ++ ((fun it => setAttribute "id" it.1 (connectorDataToElement it.2))
            <$> Qt.qmap_entries (m_connectorDataMap d))
      ++ ((fun it => setAttribute "id" it.1 (nodeDataToElement it.2))
            <$> Qt.qmap_entries (m_nodeDataMap d))
      ++ (if bool_decide (m_documentType d = dt_flowcode)
          then [microDataToElement d] else []).
Proof.
    unfold toDomDocument. cbn [setAttribute createElement].
    rewrite !append_entries_eq. cbn [app].
    destruct (bool_decide (m_documentType d = dt_flowcode));
      cbn [appendChild documentElement children]; rewrite <- ?app_assoc; try done.
    by rewrite app_nil_r.
Qed.

Lemma readRootChildren_round_trip d documentType :
    valid_snapshot d ->
    foldl_partial readRootChild (reset (newItemDocumentData documentType))
      (children (documentElement (toDomDocument d)))
    = Some (round_trip d, pointsLog d).
Proof.
    intros [Hi Hc Hn Hm]. rewrite toDomDocument_children, foldl_partial_app.
    rewrite (root_group_fold (fun k v => setAttribute "id" k (itemDataToElement v))
               norm_item (fun _ => []) m_itemDataMap set_itemDataMap);
      [|done|done|by intros []|].
    2:{ intros d0 k v Hin%elem_of_qmap_entries. apply readRootChild_item, (Hi k v Hin). }
    cbv beta iota. rewrite foldl_partial_app.
    rewrite (root_group_fold (fun k v => setAttribute "id" k (connectorDataToElement v))
               norm_connector
               (fun v => [Debug (pointsMessage (routeFields (ConnectorData.route v)))])
               m_connectorDataMap set_connectorDataMap);
      [|done|done|by intros []|].
    2:{ intros d0 k v Hin%elem_of_qmap_entries.
        apply readRootChild_connector, (Hc k v Hin). }
    cbv beta iota. rewrite foldl_partial_app.
    rewrite (root_group_fold (fun k v => setAttribute "id" k (nodeDataToElement v))
               (fun v => v) (fun _ => []) m_nodeDataMap set_nodeDataMap);
      [|done|done|by intros []|].
    2:{ intros d0 k v Hin%elem_of_qmap_entries. apply readRootChild_node, (Hn k v Hin). }
    cbv beta iota.
    rewrite !flat_map_no_entries, flat_map_one_entry. fold (pointsLog d).
    cbn [app].
    unfold round_trip.
    cbn [reset newItemDocumentData m_itemDataMap m_connectorDataMap m_nodeDataMap
         m_microData m_documentType set_itemDataMap set_connectorDataMap set_nodeDataMap].
    cbv beta. rewrite insert_entries_id, !insert_entries_fmap.
    destruct (bool_decide (m_documentType d = dt_flowcode)) eqn:E.
    - apply bool_decide_eq_true_1 in E.
      rewrite foldl_partial_cons.
      rewrite readRootChild_micro by (done || by apply Hm).
      cbv beta iota. rewrite foldl_partial_nil.
      by rewrite !app_nil_r.
    - rewrite foldl_partial_nil. by rewrite !app_nil_r.
Qed.

End whole_document.

(** C1 (amended): for every snapshot whose numbers all have a faithful text
    form, whose pin and pin-mapping ids are non-empty and whose pin names are
    plain words, a fresh object that parses the text [toXML] wrote (the XML
    library returning the tree it was given) returns, reports success, logs
    the debug entry of every connector and nothing else, and holds the
    snapshot in the form of [round_trip]: every item, connector and node
    record under its key, the micro record when the document type is
    flow-code, the size only when it was set, the angle and flip only when
    there is no orientation, of each connector endpoint only the variant in
    use, raw data padded to whole nibbles, and the document type [dt_none]. *)
Theorem fromXML_toXML_round_trip
    {QV : QtValue} {QD : QDomText} (d : ItemDocumentData) (documentType : DocumentType) :
  valid_snapshot d ->
  setContent (toXML d) = inl (toDomDocument d) ->
  fromXML (toXML d) (newItemDocumentData documentType)
  = Some ((true, round_trip d), pointsLog d).
Proof.
  intros Hv Hparse. unfold fromXML. rewrite Hparse.
  rewrite readRootChildren_round_trip by done. reflexivity.
Qed.

(** ** The round trip on an example *)

(** C1, as stated, fails: the document-type tag is written but never read;
    the snapshot read back from the text of an empty circuit snapshot has
    type [dt_none]. *)
Lemma document_type_is_not_read_back :
  (fun r => m_documentType r.1.2)
    <$> @fromXML example_values example_dom
          (@toXML example_values example_dom (newItemDocumentData dt_circuit))
          (newItemDocumentData dt_circuit)
  <> Some (m_documentType (@newItemDocumentData example_values dt_circuit)).
Proof. vm_compute. discriminate. Qed.

Lemma fromXML_toXML_round_trip_witness :
  valid_snapshot sample_snapshot
  /\ @setContent example_dom (@toXML example_values example_dom sample_snapshot)
     = inl (@toDomDocument example_values sample_snapshot)
  /\ @fromXML example_values example_dom
       (@toXML example_values example_dom sample_snapshot) (newItemDocumentData dt_none)
     = Some ((true, round_trip sample_snapshot), pointsLog sample_snapshot).
Proof.
  assert (Hvalid : valid_snapshot sample_snapshot).
  { split; cbn [sample_snapshot m_itemDataMap m_connectorDataMap m_nodeDataMap
                m_microData m_documentType].
    - apply map_Forall_insert_2; [|apply map_Forall_empty].
      split; cbn; try (apply map_Forall_insert_2; [|apply map_Forall_empty]);
        unfold rect_in_int, Qt.in_int, Qt.INT_MIN, Qt.INT_MAX; cbn; try lia; reflexivity.
    - apply map_Forall_insert_2; [|apply map_Forall_empty].
      repeat constructor; cbn; unfold Qt.INT_MIN, Qt.INT_MAX; lia.
    - apply map_Forall_insert_2; [|apply map_Forall_empty].
      split; cbn; unfold Qt.in_int, Qt.INT_MIN, Qt.INT_MAX; lia.
    - intros _. split; cbn; (apply map_Forall_insert_2; [|apply map_Forall_empty]);
        [discriminate|]. split; [discriminate|]. split; [discriminate|reflexivity]. }
  assert (Hparse : @setContent example_dom
                     (@toXML example_values example_dom sample_snapshot)
                   = inl (@toDomDocument example_values sample_snapshot))
    by (vm_compute; reflexivity).
  split; [exact Hvalid|]. split; [exact Hparse|].
  exact (@fromXML_toXML_round_trip example_values example_dom sample_snapshot dt_none
           Hvalid Hparse).
Defined.

Lemma fromXML_odd_route_runs_past_end_witness :
  @setContent example_dom (ExampleXml.documentText odd_route_document)
  = inl odd_route_document
  /\ @fromXML example_values example_dom (ExampleXml.documentText odd_route_document)
       (newItemDocumentData dt_none)
     = None.
Proof.
  assert (Hparse : @setContent example_dom (ExampleXml.documentText odd_route_document)
                   = inl odd_route_document) by (vm_compute; reflexivity).
  split; [exact Hparse|].
  apply (@fromXML_odd_route_runs_past_end example_values example_dom
           (ExampleXml.documentText odd_route_document) (newItemDocumentData dt_none)
           odd_route_document odd_route_connector Hparse).
  - apply list_elem_of_singleton. reflexivity.
  - reflexivity.
Defined.

(** * More on the bit-array codec *)

Section codec_text.

Lemma string_get_ext (s t : string) :
    (forall i, String.get i s = String.get i t) -> s = t.
Proof.
    revert t. induction s as [|a s IH]; intros [|b t] Hget.
    - done.
    - specialize (Hget 0%nat). discriminate.
    - specialize (Hget 0%nat). discriminate.
    - pose proof (Hget 0%nat) as H0. simpl in H0. injection H0 as ->.
      f_equal. apply IH. intros i. apply (Hget (S i)).
Qed.

Lemma string_map_get f s i :
    String.get i (string_map f s) = f <$> String.get i s.
Proof.
    revert i. induction s as [|a s IH]; intros [|i]; simpl; auto.
Qed.

Lemma string_get_length_None s i :
    (String.length s <= i)%nat -> String.get i s = None.
Proof.
    revert i. induction s as [|a s IH]; intros i Hi; simpl in *.
    - by destruct i.
    - destruct i; [lia|]. apply IH. lia.
Qed.

Lemma string_get_lt_Some s i :
    (i < String.length s)%nat -> is_Some (String.get i s).
Proof.
    revert i. induction s as [|a s IH]; intros i Hi; simpl in *; [lia|].
    destruct i; [eauto|]. apply IH. lia.
Qed.

Lemma hex_value_range c : 0 <= Qt.hex_value c < 16.
Proof.
    unfold Qt.hex_value. repeat case_bool_decide; lia.
Qed.

  (** The four bits of a nibble add up to it. *)
Lemma nibble_of_bits (val : Z) (b : nat -> bool) :
    0 <= val < 16 ->
    (forall j, (j < 4)%nat ->
       b j = bool_decide (Z.land val (Z.shiftl 1 (Z.of_nat j)) <> 0)) ->
    foldl (fun acc j => acc + Z.shiftl (if b j then 1 else 0) (Z.of_nat j)) 0 (seq 0 4)
    = val.
Proof.
    intros Hval Hb. cbn [seq foldl].
    rewrite (Hb 0%nat), (Hb 1%nat), (Hb 2%nat), (Hb 3%nat) by lia.
    assert (Hc : val = 0 \/ val = 1 \/ val = 2 \/ val = 3 \/ val = 4 \/ val = 5
                 \/ val = 6 \/ val = 7 \/ val = 8 \/ val = 9 \/ val = 10 \/ val = 11
                 \/ val = 12 \/ val = 13 \/ val = 14 \/ val = 15) by lia.
    repeat (destruct Hc as [-> | Hc]; [reflexivity|]). by subst.
Qed.

Lemma toQBitArray_length text :
    length (toQBitArray text) = (4 * String.length text)%nat.
Proof.
    rewrite toQBitArray_nibbles, write_nibbles_length, length_replicate. lia.
Qed.

Lemma nibble_at_toQBitArray text i c :
    String.get i text = Some c ->
    nibble_at (toQBitArray text) i = Qt.hex_value c.
Proof.
    intros Hc. unfold nibble_at.
    assert (Hi : (i < String.length text)%nat).
    { destruct (decide (i < String.length text)%nat); [done|].
      rewrite string_get_length_None in Hc by lia. done. }
    apply (nibble_of_bits (Qt.hex_value c)
             (fun j => testBit (toQBitArray text) (4 * i + j)));
      [apply hex_value_range|].
    intros j Hj. unfold testBit. rewrite toQBitArray_nibbles.
    apply list_lookup_total_correct.
    rewrite write_nibbles_lookup; [|done|done|rewrite length_replicate; lia].
    by rewrite Hc.
Qed.

Lemma padded_whole v : (length v mod 4 = 0)%nat -> padded v = v.
Proof. intros E. unfold padded. rewrite E. simpl. apply app_nil_r. Qed.

Lemma toAsciiHex_toQBitArray_map text :
    toAsciiHex (toQBitArray text) = string_map hex_lower text.
Proof.
    rewrite toAsciiHex_padded.
    assert (Hlen : length (toQBitArray text) = (4 * String.length text)%nat)
      by apply toQBitArray_length.
    rewrite padded_whole by (rewrite Hlen, Nat.mul_comm; apply Nat.Div0.mod_mul).
    rewrite Hlen, (Nat.mul_comm 4), Nat.div_mul by lia.
    apply string_get_ext. intros i. rewrite string_map_get.
    destruct (decide (i < String.length text)%nat) as [Hi|Hi].
    - rewrite (digits_get (fun i => Qt.hex_digit (nibble_at (toQBitArray text) i)))
        by done.
      destruct (string_get_lt_Some text i Hi) as [c Hc]. rewrite Hc. simpl.
      by rewrite (nibble_at_toQBitArray _ _ _ Hc).
    - rewrite !string_get_length_None; [done|lia|].
      rewrite (digits_length (fun i => Qt.hex_digit (nibble_at (toQBitArray text) i))).
      lia.
Qed.

Lemma hex_lower_id c : is_lower_hex c = true -> hex_lower c = c.
Proof.
    destruct c as [[] [] [] [] [] [] [] []]; vm_compute; intros; congruence.
Qed.

Lemma string_map_id f s :
    string_forall (fun c => bool_decide (f c = c)) s = true -> string_map f s = s.
Proof.
    induction s as [|a s IH]; simpl; [done|].
    intros [Ha Hs]%andb_true_iff. apply bool_decide_eq_true in Ha.
    by rewrite Ha, IH.
Qed.

Lemma string_forall_get (P : ascii -> bool) s :
    (forall i c, String.get i s = Some c -> P c = true) -> string_forall P s = true.
Proof.
    induction s as [|a s IH]; intros Hget; simpl; [done|].
    rewrite (Hget 0%nat a eq_refl), IH; [done|].
    intros i c Hc. apply (Hget (S i) c Hc).
Qed.

Lemma hex_digit_lower val : 0 <= val < 16 -> is_lower_hex (Qt.hex_digit val) = true.
Proof.
    intros Hval.
    assert (Hc : val = 0 \/ val = 1 \/ val = 2 \/ val = 3 \/ val = 4 \/ val = 5
                 \/ val = 6 \/ val = 7 \/ val = 8 \/ val = 9 \/ val = 10 \/ val = 11
                 \/ val = 12 \/ val = 13 \/ val = 14 \/ val = 15) by lia.
    repeat (destruct Hc as [-> | Hc]; [reflexivity|]). by subst.
Qed.

Lemma nibble_at_range data i : 0 <= nibble_at data i < 16.
Proof.
    unfold nibble_at. cbn [seq foldl].
    destruct (testBit data (4 * i + 0)), (testBit data (4 * i + 1)),
             (testBit data (4 * i + 2)), (testBit data (4 * i + 3)); vm_compute;
      split; congruence.
Qed.

End codec_text.

(** X1. Decoding any text and encoding the result gives the text back with
    every hexadecimal digit in lower case and every other character replaced
    by "0"; a text of lower-case hexadecimal digits comes back unchanged.
    The decoded vector has four bits for every character. *)
Theorem toAsciiHex_toQBitArray (text : string) :
  toAsciiHex (toQBitArray text) = string_map hex_lower text
  /\ (string_forall is_lower_hex text = true -> toAsciiHex (toQBitArray text) = text)
  /\ length (toQBitArray text) = (4 * String.length text)%nat.
Proof.
  split; [apply toAsciiHex_toQBitArray_map|]. split; [|apply toQBitArray_length].
  intros Hhex. rewrite toAsciiHex_toQBitArray_map. apply string_map_id.
  revert Hhex. apply string_forall_impl. intros c Hc.
  apply bool_decide_eq_true. by apply hex_lower_id.
Qed.

(** X2. The text written for a bit vector of length [n] has [ceil(n/4)]
    characters, all of them lower-case hexadecimal digits, and two vectors
    are written as the same text exactly when they agree once both are
    padded with zeros to a multiple of four bits. *)
Theorem toAsciiHex_text (v w : QBitArray) :
  String.length (toAsciiHex v) = ((length v + 3) / 4)%nat
  /\ string_forall is_lower_hex (toAsciiHex v) = true
  /\ (toAsciiHex v = toAsciiHex w <-> padded v = padded w).
Proof.
  assert (Hlen : String.length (toAsciiHex v) = ((length v + 3) / 4)%nat).
  { rewrite toAsciiHex_padded.
    rewrite (digits_length (fun i => Qt.hex_digit (nibble_at (padded v) i))).
    rewrite padded_length, (Nat.mul_comm 4), Nat.div_mul by lia. done. }
  split; [done|]. split.
  - apply string_forall_get. intros i c. rewrite toAsciiHex_padded.
    destruct (decide (i < length (padded v) / 4)%nat) as [Hi|Hi].
    + rewrite (digits_get (fun i => Qt.hex_digit (nibble_at (padded v) i))) by done.
      intros [= <-]. apply hex_digit_lower, nibble_at_range.
    + rewrite string_get_length_None; [done|].
      rewrite (digits_length (fun i => Qt.hex_digit (nibble_at (padded v) i))). lia.
  - split.
    + intros E. by rewrite <- !toQBitArray_toAsciiHex_padded, E.
    + intros E. by rewrite !toAsciiHex_padded, E.
Qed.

(** * More on the geometry translation *)


Section translate_more.
Context {QV : QtValue}.




End translate_more.







(** * More on the identifier remapper *)

Section remap_more.
Context {QV : QtValue} {US : UIDSource}.

Lemma qmap_entries_length {V} (m : gmap string V) :
    length (Qt.qmap_entries m) = size m.
Proof. by rewrite (Permutation_length (qmap_entries_perm m)), length_map_to_list. Qed.

Lemma rekeyed_fold_size {V} (s : string -> string) (l : list (string * V))
      (acc : gmap string V) :
    NoDup (s <$> l.*1) ->
    (forall k, k ∈ l.*1 -> acc !! s k = None) ->
    size (foldl (fun nm it => <[s it.1 := it.2]> nm) acc l) = (size acc + length l)%nat.
Proof.
    revert acc. induction l as [|[k v] l IH]; intros acc Hnd Hacc; simpl.
    - lia.
    - rewrite fmap_cons in Hnd. simpl in Hnd. apply NoDup_cons in Hnd as [Hk Hnd].
      rewrite IH; [| done |].
      + rewrite map_size_insert_None by (apply Hacc; set_solver). lia.
      + intros k' Hk'. rewrite lookup_insert_ne.
        * apply Hacc. set_solver.
        * intros E. apply Hk. rewrite E. apply list_elem_of_fmap. eauto.
Qed.

Lemma rekeyed_size {V} (s : string -> string) (m : gmap string V) :
    (forall k1 k2, is_Some (m !! k1) -> is_Some (m !! k2) -> s k1 = s k2 -> k1 = k2) ->
    size (rekeyed s m) = size m.
Proof.
    intros Hinj. unfold rekeyed. rewrite rekeyed_fold_size.
    - rewrite map_size_empty, qmap_entries_length. done.
    - apply NoDup_fmap_2_strong; [|apply NoDup_fst_qmap_entries].
      intros k1 k2 Hk1 Hk2. apply Hinj; by apply elem_of_qmap_keys.
    - intros k _. apply lookup_empty.
Qed.

Lemma remapped_connector_inv doc d k' c' :
    m_connectorDataMap (generateUniqueIDs (Some doc) d).1 !! k' = Some c' ->
    exists k c, m_connectorDataMap d !! k = Some c
      /\ k' = replaced_at doc d k
      /\ c' = remap_connector (replaced_at doc d) c.
Proof.
    destruct (generateUniqueIDs_spec doc d) as (r & doc1 & E & Et & Hinv & Hdom).
    assert (Hs : replaced_at doc d = view r).
    { unfold replaced_at. by rewrite Et. }
    rewrite Hs, E. cbn [fst m_connectorDataMap]. rewrite lookup_fmap.
    destruct (rekeyed (view r) (m_connectorDataMap d) !! k') as [c|] eqn:Hk; [|done].
    intros [= <-]. unfold rekeyed in Hk. apply rekeyed_lookup in Hk.
    - destruct Hk as (k & Hin%elem_of_qmap_entries & <-). by exists k, c.
    - apply NoDup_fst_qmap_entries.
    - intros k1 k2 Hk1%elem_of_qmap_keys Hk2%elem_of_qmap_keys.
      eapply table_inj_on_used; eauto; right; by right.
Qed.

Lemma remapped_node_inv doc d k' n :
    m_nodeDataMap (generateUniqueIDs (Some doc) d).1 !! k' = Some n ->
    exists k, m_nodeDataMap d !! k = Some n /\ k' = replaced_at doc d k.
Proof.
    destruct (generateUniqueIDs_spec doc d) as (r & doc1 & E & Et & Hinv & Hdom).
    assert (Hs : replaced_at doc d = view r).
    { unfold replaced_at. by rewrite Et. }
    rewrite Hs, E. cbn [fst m_nodeDataMap].
    intros Hk. unfold rekeyed in Hk. apply rekeyed_lookup in Hk.
    - destruct Hk as (k & Hin%elem_of_qmap_entries & <-). by exists k.
    - apply NoDup_fst_qmap_entries.
    - intros k1 k2 Hk1%elem_of_qmap_keys Hk2%elem_of_qmap_keys.
      eapply table_inj_on_used; eauto; right; by left.
Qed.

Lemma remapped_sizes doc d :
    let d' := (generateUniqueIDs (Some doc) d).1 in
    size (m_itemDataMap d') = size (m_itemDataMap d)
    /\ size (m_connectorDataMap d') = size (m_connectorDataMap d)
    /\ size (m_nodeDataMap d') = size (m_nodeDataMap d)
    /\ m_microData d' = m_microData d
    /\ m_documentType d' = m_documentType d.
Proof.
    destruct (generateUniqueIDs_spec doc d) as (r & doc1 & E & Et & Hinv & Hdom).
    cbv zeta. rewrite E.
    cbn [fst m_itemDataMap m_connectorDataMap m_nodeDataMap m_microData m_documentType].
    rewrite !map_size_fmap.
    split; [|split; [|split; [|done]]]; apply rekeyed_size; intros k1 k2 H1 H2;
      eapply table_inj_on_used; eauto.
    - by left.
    - by left.
    - right; by right.
    - right; by right.
    - right; by left.
    - right; by left.
Qed.

End remap_more.

(** X6. [generateUniqueIDs] loses and invents nothing: each of the three
    maps has as many records afterwards as before, every record found
    afterwards is the image of a record under the substitution (items and
    connectors with their references rewritten, nodes as they were), and
    the micro record and the document type are untouched. *)
Theorem generateUniqueIDs_keeps_every_record {QV : QtValue} {US : UIDSource}
    (doc : ItemDocument) (d : ItemDocumentData) :
  let s := replaced_at doc d in
  let d' := (generateUniqueIDs (Some doc) d).1 in
  size (m_itemDataMap d') = size (m_itemDataMap d)
  /\ size (m_connectorDataMap d') = size (m_connectorDataMap d)
  /\ size (m_nodeDataMap d') = size (m_nodeDataMap d)
  /\ (forall u it', m_itemDataMap d' !! u = Some it' ->
        exists k it, m_itemDataMap d !! k = Some it /\ u = s k /\ it' = remap_item s it)
  /\ (forall u c', m_connectorDataMap d' !! u = Some c' ->
        exists k c, m_connectorDataMap d !! k = Some c /\ u = s k
                    /\ c' = remap_connector s c)
  /\ (forall u n, m_nodeDataMap d' !! u = Some n ->
        exists k, m_nodeDataMap d !! k = Some n /\ u = s k)
  /\ m_microData d' = m_microData d
  /\ m_documentType d' = m_documentType d.
Proof.
  cbv zeta. destruct (remapped_sizes doc d) as (H1 & H2 & H3 & H4 & H5).
  split; [done|]. split; [done|]. split; [done|].
  split; [apply remapped_item_inv|].
  split; [apply remapped_connector_inv|].
  split; [apply remapped_node_inv|]. done.
Qed.

(** X7. A reference that names no record of the snapshot does not survive
    [generateUniqueIDs]: an item's parent identifier, and a connector's
    start or end node identifier or parent identifier, that is not a key of
    any of the three maps is replaced by the empty string. *)
Theorem generateUniqueIDs_clears_dangling_references {QV : QtValue} {US : UIDSource}
    (doc : ItemDocument) (d : ItemDocumentData) :
  let s := replaced_at doc d in
  let d' := (generateUniqueIDs (Some doc) d).1 in
  (forall k it, m_itemDataMap d !! k = Some it ->
      ~ used_id d (ItemData.parentId it) ->
      exists it', m_itemDataMap d' !! s k = Some it' /\ ItemData.parentId it' = "")
  /\ (forall k c, m_connectorDataMap d !! k = Some c ->
        exists c', m_connectorDataMap d' !! s k = Some c'
          /\ (~ used_id d (ConnectorData.startNodeId c) ->
              ConnectorData.startNodeId c' = "")
          /\ (~ used_id d (ConnectorData.endNodeId c) ->
              ConnectorData.endNodeId c' = "")
          /\ (~ used_id d (ConnectorData.startNodeParent c) ->
              ConnectorData.startNodeParent c' = "")
          /\ (~ used_id d (ConnectorData.endNodeParent c) ->
              ConnectorData.endNodeParent c' = "")).
Proof.
  cbv zeta. split.
  - intros k it Hk Hp. eexists. split; [by apply remap_item_lookup|].
    simpl. by apply unused_maps_to_empty.
  - intros k c Hk. eexists. split; [by apply remap_connector_lookup|].
    simpl. repeat split; intros Hu; by apply unused_maps_to_empty.
Qed.

(** * More on the XML reader and writer *)

Section xml_more.
Context {QV : QtValue} {QD : QDomText}.

  (** *** The writer and the micro record *)

Lemma toDomDocument_micro m (d : ItemDocumentData) :
    m_documentType d <> dt_flowcode ->
    toDomDocument (set_microData m d) = toDomDocument d.
Proof.
    intros Hty. unfold toDomDocument, documentTypeString.
    cbn [set_microData m_itemDataMap m_connectorDataMap m_nodeDataMap m_documentType].
    by rewrite !bool_decide_eq_false_2 by done.
Qed.

  (** *** Routes *)

Lemma toInt_in_int s : Qt.in_int (Qt.toInt s).
Proof.
    unfold Qt.toInt.
    destruct (match Qt.trimmed s with
              | EmptyString => None
              | String c digits =>
                  if Ascii.eqb c "+" then Decimal.Pos <$> NilZero.uint_of_string digits
                  else NilZero.int_of_string (Qt.trimmed s)
              end) as [z|].
    - case_bool_decide; [done|]. unfold Qt.in_int, Qt.INT_MIN, Qt.INT_MAX. lia.
    - unfold Qt.in_int, Qt.INT_MIN, Qt.INT_MAX. lia.
Qed.

  (** The loop, when it ends, has read every pair of fields. *)
Lemma routeOfPoints_pairs points route :
    routeOfPoints points = Some route ->
    length points = (2 * length route)%nat /\ Forall point_in_int route.
Proof.
    revert route. induction points as [| |sx sy rest IH] using pairs_ind; intros route.
    - intros [= <-]. by split.
    - done.
    - cbn [routeOfPoints]. destruct (routeOfPoints rest) as [r|]; [|done].
      intros [= <-]. destruct (IH r eq_refl) as [Hlen Hr]. split.
      + cbn [length]. lia.
      + constructor; [split; apply toInt_in_int|done].
Qed.

  (** *** What the readers leave alone *)

Lemma foldl_logged_invariant {A B} (P : A -> Prop) (f : A -> B -> Logged A) a l :
    (forall a b, b ∈ l -> P a -> P (f a b).1) -> P a -> P (foldl_logged f a l).1.
Proof.
    revert a. induction l as [|b l IH]; intros a Hf Ha; [done|].
    rewrite foldl_logged_cons. cbn [fst]. apply IH.
    - intros a' b' Hb'. apply Hf. by right.
    - apply Hf; [by left|done].
Qed.

Lemma readData_micro id c (d : ItemDocumentData) :
    m_microData (set_itemDataMap (readData id c (m_itemDataMap d)).1 d) = m_microData d.
Proof. done. Qed.

Lemma itemChild_micro rec id (d : ItemDocumentData) c :
    (forall d, m_microData (rec c d).1 = m_microData d) ->
    m_microData (itemChild rec id d c).1 = m_microData d.
Proof.
    intros Hrec. unfold itemChild, then_logged.
    destruct c as [t a cs|s]; [|done].
    repeat case_bool_decide.
    - destruct (rec (Element t a cs) d) as [d' lg] eqn:E. cbn [fst snd].
      specialize (Hrec d). rewrite E in Hrec. simpl in Hrec.
      by destruct (a !! "id").
    - by destruct (readData id (Element t a cs) (m_itemDataMap d)).
    - by destruct (a !! "id").
    - by destruct (a !! "id").
    - done.
    - done.
Qed.

Lemma elementToItemData_micro :
    forall e (d : ItemDocumentData), m_microData (elementToItemData e d).1 = m_microData d.
Proof.
    fix IH 1. intros [t a nodes|s] d; [|reflexivity].
    cbn [elementToItemData]. destruct (a !! "id") as [id|]; [|reflexivity].
    change (m_microData d)
      with (m_microData
              (set_itemDataMap
                 (<[id := itemDataOfAttributes (Element t a nodes)]> (m_itemDataMap d)) d)).
    generalize (set_itemDataMap
                  (<[id := itemDataOfAttributes (Element t a nodes)]> (m_itemDataMap d)) d).
    induction nodes as [|c nodes IHn]; intros d0; [reflexivity|].
    rewrite foldl_logged_cons. cbn [fst]. rewrite IHn.
    apply itemChild_micro. apply (IH c).
Qed.

Lemma readMicroChild_keeps micro c : micro_keeps micro (readMicroChild micro c).1.
Proof.
    unfold readMicroChild. destruct c as [t a cs|s]; [|by split].
    destruct (bool_decide (t = "pinmap")).
    { destruct (_ && _); [|by split].
      split; [done|]. intros k Hk. cbn. apply lookup_insert_is_Some'. by right. }
    destruct (bool_decide (t = "pin")).
    { destruct (bool_decide _); by split. }
    destruct (bool_decide (t = "variable")); [|by split].
    split; [|done]. intros k Hk. cbn. apply lookup_insert_is_Some'. by right.
Qed.

Lemma micro_keeps_refl m : micro_keeps m m.
Proof. by split. Qed.

Lemma micro_keeps_trans m1 m2 m3 :
    micro_keeps m1 m2 -> micro_keeps m2 m3 -> micro_keeps m1 m3.
Proof. intros [H1 H2] [H3 H4]. split; eauto. Qed.

Lemma elementToMicroData_keeps e (d : ItemDocumentData) :
    micro_keeps (m_microData d) (m_microData (elementToMicroData e d).1).
Proof.
    unfold elementToMicroData, then_logged.
    destruct (match attribute_opt "id" e with
              | Some id => Some id
              | None => attribute_opt "pic" e
              end) as [id|]; [|apply micro_keeps_refl].
    destruct (foldl_logged readMicroChild _ (children e)) as [micro lg] eqn:E.
    cbn [fst snd set_microData m_microData].
    change micro with (micro, lg).1. rewrite <- E.
    apply (foldl_logged_invariant (micro_keeps (m_microData d))).
    - intros m c _ Hm. eapply micro_keeps_trans; [done|apply readMicroChild_keeps].
    - by split.
Qed.

Lemma elementToConnectorData_rest element (d : ItemDocumentData) r :
    elementToConnectorData element d = Some r ->
    m_microData r.1 = m_microData d /\ m_documentType r.1 = m_documentType d.
Proof.
    unfold elementToConnectorData. destruct (attribute_opt _ _); [|by intros [= <-]].
    destruct (routeOfPoints _); [|done]. by intros [= <-].
Qed.

Lemma readRootChild_keeps (d : ItemDocumentData) node r :
    readRootChild d node = Some r ->
    micro_keeps (m_microData d) (m_microData r.1).
Proof.
    unfold readRootChild. destruct node as [t a cs|s];
      [|intros [= <-]; apply micro_keeps_refl].
    destruct (bool_decide (t = "item")).
    { intros Hr. assert (r = elementToItemData (Element t a cs) d) as -> by congruence.
      rewrite elementToItemData_micro. apply micro_keeps_refl. }
    destruct (bool_decide (t = "node")).
    { intros [= <-]. unfold elementToNodeData.
      destruct (attribute_opt _ _); apply micro_keeps_refl. }
    destruct (bool_decide (t = "connector")).
    { intros [-> _]%elementToConnectorData_rest. apply micro_keeps_refl. }
    destruct (_ || _); [intros [= <-]; apply elementToMicroData_keeps|].
    destruct (bool_decide (t = "code")); intros [= <-]; apply micro_keeps_refl.
Qed.

Lemma reset_keeps (d : ItemDocumentData) : micro_keeps (m_microData d) (m_microData (reset d)).
Proof. by split. Qed.

Lemma fromXML_keeps xml (d : ItemDocumentData) r :
    fromXML xml d = Some r ->
    micro_keeps (m_microData d) (m_microData r.1.2).
Proof.
    intros Hr. apply fromXML_result in Hr.
    destruct (setContent xml) as [doc|err].
    - destruct Hr as [_ Hr].
      apply (foldl_partial_invariant
               (fun d' => micro_keeps (m_microData d) (m_microData d'))) in Hr; [done| |].
      + intros d' c r' _ Hd' Hc. eapply micro_keeps_trans; [done|].
        by apply (readRootChild_keeps d' c).
      + apply reset_keeps.
    - subst r. apply reset_keeps.
Qed.

  (** *** The document type *)

Lemma itemChild_type rec id (d : ItemDocumentData) c :
    (forall d, m_documentType (rec c d).1 = m_documentType d) ->
    m_documentType (itemChild rec id d c).1 = m_documentType d.
Proof.
    intros Hrec. unfold itemChild, then_logged.
    destruct c as [t a cs|s]; [|done].
    repeat case_bool_decide.
    - destruct (rec (Element t a cs) d) as [d' lg] eqn:E. cbn [fst snd].
      specialize (Hrec d). rewrite E in Hrec. simpl in Hrec.
      by destruct (a !! "id").
    - by destruct (readData id (Element t a cs) (m_itemDataMap d)).
    - by destruct (a !! "id").
    - by destruct (a !! "id").
    - done.
    - done.
Qed.

Lemma elementToItemData_type :
    forall e (d : ItemDocumentData),
      m_documentType (elementToItemData e d).1 = m_documentType d.
Proof.
    fix IH 1. intros [t a nodes|s] d; [|reflexivity].
    cbn [elementToItemData]. destruct (a !! "id") as [id|]; [|reflexivity].
    change (m_documentType d)
      with (m_documentType
              (set_itemDataMap
                 (<[id := itemDataOfAttributes (Element t a nodes)]> (m_itemDataMap d)) d)).
    generalize (set_itemDataMap
                  (<[id := itemDataOfAttributes (Element t a nodes)]> (m_itemDataMap d)) d).
    induction nodes as [|c nodes IHn]; intros d0; [reflexivity|].
    rewrite foldl_logged_cons. cbn [fst]. rewrite IHn.
    apply itemChild_type. apply (IH c).
Qed.

Lemma readRootChild_type (d : ItemDocumentData) node r :
    readRootChild d node = Some r ->
    m_documentType r.1 = m_documentType d.
Proof.
    unfold readRootChild. destruct node as [t a cs|s]; [|by intros [= <-]].
    destruct (bool_decide (t = "item")).
    { intros Hr. assert (r = elementToItemData (Element t a cs) d) as -> by congruence.
      apply elementToItemData_type. }
    destruct (bool_decide (t = "node")).
    { intros [= <-]. unfold elementToNodeData. by destruct (attribute_opt _ _). }
    destruct (bool_decide (t = "connector")).
    { by intros [_ ->]%elementToConnectorData_rest. }
    destruct (_ || _).
    { intros [= <-]. unfold elementToMicroData, then_logged.
      destruct (match attribute_opt "id" (Element t a cs) with
                | Some id => Some id
                | None => attribute_opt "pic" (Element t a cs)
                end); [|done].
      by destruct (foldl_logged readMicroChild _ _). }
    by destruct (bool_decide (t = "code")); intros [= <-].
Qed.

Lemma fromXML_type xml (d : ItemDocumentData) r :
    fromXML xml d = Some r -> m_documentType r.1.2 = dt_none.
Proof.
    intros Hr. apply fromXML_result in Hr.
    destruct (setContent xml) as [doc|err].
    - destruct Hr as [_ Hr].
      apply (foldl_partial_invariant (fun d' => m_documentType d' = dt_none)) in Hr;
        [done| |done].
      intros d' c r' _ Hd' Hc. by rewrite (readRootChild_type d' c).
    - by subst r.
Qed.

Lemma reset_eq (d1 d2 : ItemDocumentData) :
    MicroData.variableMap (m_microData d1) = MicroData.variableMap (m_microData d2) ->
    MicroData.pinMappings (m_microData d1) = MicroData.pinMappings (m_microData d2) ->
    reset d1 = reset d2.
Proof. unfold reset, MicroData.reset. by intros -> ->. Qed.

End xml_more.

(** X8. The micro record is written only for a flow-code snapshot: for any
    other document type the text [toXML] produces does not depend on the
    micro record at all. *)
Theorem toXML_ignores_micro_unless_flowcode {QV : QtValue} {QD : QDomText}
    (m : MicroData.t) (d : ItemDocumentData) :
  m_documentType d <> dt_flowcode ->
  toXML (set_microData m d) = toXML d.
Proof. intros Hty. unfold toXML. by rewrite toDomDocument_micro. Qed.

Lemma toXML_ignores_micro_unless_flowcode_witness :
  @toXML example_values example_dom
    (set_microData sample_micro (newItemDocumentData dt_circuit))
  = @toXML example_values example_dom (newItemDocumentData dt_circuit).
Proof.
  apply (@toXML_ignores_micro_unless_flowcode example_values example_dom).
  discriminate.
Defined.

(** X9. The legacy format: when the last child of an item element is a
    nested item element with an identifier, the record read for the nested
    item has the enclosing item's identifier as its parent, whatever parent
    the nested element names itself. *)
Theorem elementToItemData_nested_parent {QV : QtValue} {QD : QDomText}
    (t : string) (attrs cattrs : gmap string string) (nodes cnodes : list QDomNode)
    (id childId : string) (d : ItemDocumentData) :
  attrs !! "id" = Some id ->
  cattrs !! "id" = Some childId ->
  exists it,
    m_itemDataMap
      (elementToItemData (Element t attrs (nodes ++ [Element "item" cattrs cnodes])) d).1
    !! childId = Some it
    /\ ItemData.parentId it = id.
Proof.
  intros Hid Hcid. rewrite (elementToItemData_Element _ _ _ _ _ Hid).
  rewrite foldl_logged_app. cbn [fst].
  rewrite foldl_logged_cons, foldl_logged_nil. cbn [fst].
  unfold itemChild at 1. rewrite bool_decide_eq_true_2 by done.
  unfold then_logged. rewrite Hcid.
  destruct (elementToItemData (Element "item" cattrs cnodes) _) as [d' lg].
  cbn [fst snd set_itemDataMap m_itemDataMap]. unfold qmap_at.
  rewrite lookup_insert_eq. eauto.
Qed.

Lemma elementToItemData_nested_parent_witness :
  exists it,
    m_itemDataMap
      (@elementToItemData example_values nested_item_element (newItemDocumentData dt_circuit)).1
    !! "inner" = Some it
    /\ ItemData.parentId it = "outer".
Proof.
  apply (@elementToItemData_nested_parent example_values example_dom
           "item" (<["id" := "outer"]> ∅)
           (<["parent" := "elsewhere"]> (<["id" := "inner"]> ∅)) [] []
           "outer" "inner"); reflexivity.
Defined.

(** X10. A connector element with an identifier and an even number [n]
    of non-empty comma-separated route fields is stored under its
    identifier with [n / 2] waypoints, every coordinate within the 32-bit
    range, and the only log entry is the debug entry that lists the fields;
    no route gives no waypoint.  With an odd number of fields the route
    loop steps past the end of the list and the call has no result. *)
Theorem elementToConnectorData_route {QV : QtValue} {QD : QDomText}
    (element : QDomNode) (id : string) (d : ItemDocumentData) :
  attribute_opt "id" element = Some id ->
  let points := Qt.split "," (attribute "route" "" element) in
  if Nat.even (length points) then
    exists c,
      elementToConnectorData element d
      = Some (set_connectorDataMap (<[id := c]> (m_connectorDataMap d)) d,
              [Debug (pointsMessage points)])
      /\ length (ConnectorData.route c) = (length points / 2)%nat
      /\ Forall point_in_int (ConnectorData.route c)
  else elementToConnectorData element d = None.
Proof.
  intros Hid points. unfold elementToConnectorData. rewrite Hid.
  rewrite route_points_split. fold points.
  destruct (Nat.even (length points)) eqn:Heven.
  - destruct (routeOfPoints_even points) as [route Hroute].
    { by rewrite <- Nat.negb_even, Heven. }
    rewrite Hroute. eexists. split; [reflexivity|]. cbn [ConnectorData.route].
    destruct (routeOfPoints_pairs _ _ Hroute) as [Hlen Hin]. split; [|done].
    rewrite Hlen, Nat.mul_comm. by rewrite Nat.div_mul.
  - rewrite routeOfPoints_odd; [done|]. by rewrite <- Nat.negb_even, Heven.
Qed.

Lemma elementToConnectorData_route_witness :
  exists c,
    @elementToConnectorData example_values
      (setAttribute "route" "1,2,,3,4"
         (setAttribute "id" "w" (createElement "connector")))
      (newItemDocumentData dt_circuit)
    = Some (set_connectorDataMap (<["w" := c]> ∅) (newItemDocumentData dt_circuit),
            [Debug (pointsMessage ["1"; "2"; "3"; "4"])])
    /\ length (ConnectorData.route c) = 2%nat
    /\ Forall point_in_int (ConnectorData.route c).
Proof.
  exact (@elementToConnectorData_route example_values example_dom
           (setAttribute "route" "1,2,,3,4"
              (setAttribute "id" "w" (createElement "connector")))
           "w" (newItemDocumentData dt_circuit) eq_refl).
Defined.

(** X11. [fromXML] does not start from a clean micro record.  On a text
    without an unpaired route the call returns; what it returns depends on
    the object's previous state only through the variable map and the pin
    mappings of its micro record; and every variable name and every
    pin-mapping identifier the object held before is still there
    afterwards, whether or not the text parses. *)
Theorem fromXML_previous_state {QV : QtValue} {QD : QDomText}
    (xml : string) (d1 : ItemDocumentData) :
  routes_paired xml = true ->
  exists r,
    fromXML xml d1 = Some r
    /\ micro_keeps (m_microData d1) (m_microData r.1.2)
    /\ (forall d2 : ItemDocumentData,
          MicroData.variableMap (m_microData d1) = MicroData.variableMap (m_microData d2) ->
          MicroData.pinMappings (m_microData d1) = MicroData.pinMappings (m_microData d2) ->
          fromXML xml d2 = Some r).
Proof.
  intros Hp. destruct (proj2 (fromXML_returns xml d1) Hp) as [r Hr].
  exists r. split; [done|]. split; [by apply (fromXML_keeps xml)|].
  intros d2 Hv Hm. rewrite <- Hr. unfold fromXML. by rewrite (reset_eq d1 d2).
Qed.

Lemma fromXML_previous_state_witness :
  exists r,
    @fromXML example_values example_dom
      (@toXML example_values example_dom sample_snapshot)
      (set_microData sample_micro (newItemDocumentData dt_circuit)) = Some r
    /\ micro_keeps sample_micro (m_microData r.1.2)
    /\ (forall d2 : @ItemDocumentData example_values,
          MicroData.variableMap sample_micro = MicroData.variableMap (m_microData d2) ->
          MicroData.pinMappings sample_micro = MicroData.pinMappings (m_microData d2) ->
          @fromXML example_values example_dom
            (@toXML example_values example_dom sample_snapshot) d2 = Some r).
Proof.
  apply (@fromXML_previous_state example_values example_dom
           (@toXML example_values example_dom sample_snapshot)
           (set_microData sample_micro (newItemDocumentData dt_circuit))).
  vm_compute. reflexivity.
Defined.

(** X19. The document type is never read back: on a text without an
    unpaired route [fromXML] returns, and whatever the text and whatever the
    object held, the document type is [dt_none] afterwards, the "type"
    attribute [toXML] writes notwithstanding. *)
Theorem fromXML_type_is_none {QV : QtValue} {QD : QDomText}
    (xml : string) (d : ItemDocumentData) :
  routes_paired xml = true ->
  exists r, fromXML xml d = Some r /\ m_documentType r.1.2 = dt_none.
Proof.
  intros Hp. destruct (proj2 (fromXML_returns xml d) Hp) as [r Hr].
  exists r. split; [done|]. by apply (fromXML_type xml d).
Qed.

Lemma fromXML_type_is_none_witness :
  exists r,
    @fromXML example_values example_dom
      (@toXML example_values example_dom sample_snapshot)
      (newItemDocumentData dt_flowcode) = Some r
    /\ m_documentType r.1.2 = dt_none.
Proof.
  apply (@fromXML_type_is_none example_values example_dom
           (@toXML example_values example_dom sample_snapshot)
           (newItemDocumentData dt_flowcode)).
  vm_compute. reflexivity.
Defined.

(** X22. Which texts [fromXML] gets through, and what it skips.  The call
    returns exactly on the texts without an unpaired route; when it returns
    it reports success exactly when the text is well-formed; and a child of
    the root with an unrecognised tag, or an item / node / connector element
    without an "id", contributes one log entry and nothing else: the
    snapshot is the one obtained from the other children. *)
Theorem fromXML_skips_bad_children {QV : QtValue} {QD : QDomText}
    (xml : string) (d : ItemDocumentData) :
  (is_Some (fromXML xml d) <-> routes_paired xml = true)
  /\ (forall r, fromXML xml d = Some r ->
        (r.1.1 = true <-> exists doc, setContent xml = inl doc))
  /\ (forall doc l1 bad l2 r,
        fromXML xml d = Some r ->
        setContent xml = inl doc ->
        children (documentElement doc) = l1 ++ bad :: l2 ->
        unrecognised bad \/ lacks_id bad ->
        exists d1 log1 log2,
          foldl_partial readRootChild (reset d) l1 = Some (d1, log1)
          /\ foldl_partial readRootChild d1 l2 = Some (r.1.2, log2)
          /\ r = ((true, r.1.2), log1 ++ [skip_entry bad] ++ log2)
          /\ foldl_partial readRootChild (reset d) (l1 ++ l2)
             = Some (r.1.2, log1 ++ log2)).
Proof.
  split; [apply fromXML_returns|]. split.
  - intros r Hr. apply fromXML_result in Hr.
    destruct (setContent xml) as [doc|err].
    + destruct Hr as [-> _]. split; eauto.
    + subst r. cbn [fst]. split; [done|]. by intros [? ?].
  - intros doc l1 bad l2 r Hr E Hc Hbad. apply fromXML_result in Hr.
    rewrite E, Hc in Hr. destruct Hr as [Htrue Hr].
    assert (Hskip : forall d', readRootChild d' bad = Some (d', [skip_entry bad])).
    { intros d'. destruct Hbad; [by apply readRootChild_unrecognised|
                                 by apply readRootChild_lacks_id]. }
    rewrite foldl_partial_app in Hr.
    destruct (foldl_partial readRootChild (reset d) l1) as [[d1 log1]|] eqn:E1; [|done].
    rewrite foldl_partial_cons, Hskip in Hr.
    destruct (foldl_partial readRootChild d1 l2) as [[d2 log2]|] eqn:E2; [|done].
    injection Hr as Hd Hlog. destruct r as [[b d'] lg]. cbn [fst snd] in *. subst.
    exists d1, log1, log2. split; [done|]. split; [done|]. split; [done|].
    by rewrite foldl_partial_app, E1, E2.
Qed.

(** * What a capture records *)


Section capture_more.
Context {QV : QtValue}.

Lemma then_logged_fst {A B} (x : Logged A) (f : A -> Logged B) :
    (then_logged x f).1 = (f x.1).1.
Proof. unfold then_logged. by destruct (f x.1). Qed.

Lemma then_logged_snd {A B} (x : Logged A) (f : A -> Logged B) :
    (then_logged x f).2 = x.2 ++ (f x.1).2.
Proof. unfold then_logged. by destruct (f x.1). Qed.

  (** Collecting the entries [f] accepts. *)
Lemma collect_lookup {X V} (f : X -> option V) (l : list (string * X))
      (acc : gmap string V) k :
    NoDup l.*1 ->
    foldl (fun m it => match f it.2 with Some v => <[it.1 := v]> m | None => m end) acc l
    !! k
    = match (list_to_map l : gmap string X) !! k with
      | Some x => match f x with Some v => Some v | None => acc !! k end
      | None => acc !! k
      end.
Proof.
    revert acc. induction l as [|[k' x'] l IH]; intros acc Hnd; simpl.
    - by rewrite lookup_empty.
    - apply NoDup_cons in Hnd as [Hnin Hnd]. rewrite IH by done.
      destruct (decide (k' = k)) as [->|Hne].
      + rewrite (not_elem_of_list_to_map_1 (M := gmap string)) by done.
        rewrite lookup_insert_eq. destruct (f x'); [by rewrite lookup_insert_eq|done].
      + rewrite lookup_insert_ne by done.
        destruct (list_to_map l !! k) as [x|]; [destruct (f x); [done|]|];
          destruct (f x'); by rewrite ?lookup_insert_ne.
Qed.

Lemma collect_entries {X V} (f : X -> option V) (m : gmap string X) :
    foldl (fun m it => match f it.2 with Some v => <[it.1 := v]> m | None => m end)
          (∅ : gmap string V) (Qt.qmap_entries m)
    = omap f m.
Proof.
    apply map_eq. intros k.
    rewrite collect_lookup by apply NoDup_fst_qmap_entries.
    assert ((list_to_map (Qt.qmap_entries m) : gmap string X) = m) as ->.
    { rewrite (list_to_map_proper _ (map_to_list m)).
      - apply list_to_map_to_list.
      - apply NoDup_fst_qmap_entries.
      - apply qmap_entries_perm. }
    rewrite lookup_omap, lookup_empty. destruct (m !! k) as [x|]; [|done].
    simpl. by destruct (f x).
Qed.

  (** One capture loop: every accepted entity is stored under its own
      identifier, and nothing is overwritten. *)
Lemma capture_fold {X V}
      (get : ItemDocumentData -> gmap string V)
      (set : gmap string V -> ItemDocumentData -> ItemDocumentData)
      (f : X -> option V) (warn : string -> string)
      (other : string * X -> list LogEntry)
      (step : ItemDocumentData -> string * X -> Logged ItemDocumentData)
      (l : list (string * X)) :
    (forall m d, get (set m d) = m) ->
    (forall m m' d, set m (set m' d) = set m d) ->
    (forall d, set (get d) d = d) ->
    (forall d it,
        step d it
        = match f it.2 with
          | Some v => (set (<[it.1 := v]> (get d)) d,
                       if bool_decide (is_Some (get d !! it.1))
                       then [Warning (warn it.1)] else [])
          | None => (d, other it)
          end) ->
    (forall it, Forall (fun e => is_Debug e = true) (other it)) ->
    NoDup l.*1 ->
    forall d0, (forall k, k ∈ l.*1 -> get d0 !! k = None) ->
    (foldl_logged step d0 l).1
    = set (foldl (fun m it => match f it.2 with Some v => <[it.1 := v]> m | None => m end)
                 (get d0) l) d0
    /\ Forall (fun e => is_Debug e = true) (foldl_logged step d0 l).2.
Proof.
    intros Hgs Hss Hsg Hstep Hother. induction l as [|[k x] l IH]; intros Hnd d0 Hd0.
    - simpl. rewrite Hsg. by split.
    - apply NoDup_cons in Hnd as [Hnin Hnd].
      rewrite foldl_logged_cons, Hstep. cbn [fst snd foldl].
      destruct (f x) as [v|] eqn:Ef; cbn [fst snd].
      + destruct (IH Hnd (set (<[k := v]> (get d0)) d0)) as [E1 E2].
        { intros k' Hk'. rewrite Hgs, lookup_insert_ne by (intros ->; done).
          apply Hd0. by right. }
        rewrite E1, Hgs, Hss. split; [done|].
        rewrite bool_decide_eq_false_2; [done|].
        rewrite (Hd0 k) by (by left). by intros [? ?].
      + destruct (IH Hnd d0) as [E1 E2].
        { intros k' Hk'. apply Hd0. by right. }
        rewrite E1. split; [done|]. apply Forall_app. split; [apply Hother|done].
Qed.

Variable PicItem_typeString : string.

Lemma addItems_spec (doc : ItemDocument) (d : ItemDocumentData) :
    m_itemDataMap d = ∅ ->
    (addItems PicItem_typeString (Qt.qmap_entries (doc_items doc)) d).1
    = set_itemDataMap (omap (captured_item PicItem_typeString) (doc_items doc)) d
    /\ Forall (fun e => is_Debug e = true)
         (addItems PicItem_typeString (Qt.qmap_entries (doc_items doc)) d).2.
Proof.
    intros Hd. unfold addItems.
    destruct (capture_fold m_itemDataMap set_itemDataMap
                (captured_item PicItem_typeString)
                (fun id => "Overwriting item: " +:+ id) (fun _ => [])
                (fun d it =>
                   if Item.canvas it.2
                      && bool_decide (Item.type it.2 <> PicItem_typeString)
                   then addItemData (Item.itemData it.2) it.1 d else (d, []))
                (Qt.qmap_entries (doc_items doc))) with (d0 := d) as [E1 E2];
      try done.
    - by intros [].
    - intros d' it. unfold captured_item, addItemData. by destruct (_ && _).
    - apply NoDup_fst_qmap_entries.
    - intros k _. by rewrite Hd.
    - rewrite E1, Hd, collect_entries. by split.
Qed.

Lemma addConnectors_spec (doc : ItemDocument) (d : ItemDocumentData) :
    m_connectorDataMap d = ∅ ->
    (addConnectors (Qt.qmap_entries (doc_connectors doc)) d).1
    = set_connectorDataMap (omap captured_connector (doc_connectors doc)) d
    /\ Forall (fun e => is_Debug e = true)
         (addConnectors (Qt.qmap_entries (doc_connectors doc)) d).2.
Proof.
    intros Hd. unfold addConnectors.
    destruct (capture_fold m_connectorDataMap set_connectorDataMap
                captured_connector
                (fun id => "Overwriting connector: " +:+ id)
                (fun it => if Connector.canvas it.2
                           then [Debug ("unresolved connector: " +:+ it.1)] else [])
                (fun d it =>
                   if Connector.canvas it.2 then
                     match Connector.startNode it.2, Connector.endNode it.2 with
                     | Some _, Some _ =>
                         addConnectorData (Connector.connectorData it.2) it.1 d
                     | _, _ => (d, [Debug ("unresolved connector: " +:+ it.1)])
                     end
                   else (d, []))
                (Qt.qmap_entries (doc_connectors doc))) with (d0 := d) as [E1 E2];
      try done.
    - by intros [].
    - intros d' it. unfold captured_connector, addConnectorData.
      destruct (Connector.canvas it.2); [|done].
      by destruct (Connector.startNode it.2), (Connector.endNode it.2).
    - intros it. destruct (Connector.canvas it.2); repeat constructor.
    - apply NoDup_fst_qmap_entries.
    - intros k _. by rewrite Hd.
    - rewrite E1, Hd, collect_entries. by split.
Qed.

Lemma addNodes_spec (doc : ItemDocument) (d : ItemDocumentData) :
    m_nodeDataMap d = ∅ ->
    (addNodes (Qt.qmap_entries (doc_nodes doc)) d).1
    = set_nodeDataMap (omap captured_node (doc_nodes doc)) d
    /\ Forall (fun e => is_Debug e = true)
         (addNodes (Qt.qmap_entries (doc_nodes doc)) d).2.
Proof.
    intros Hd. unfold addNodes.
    destruct (capture_fold m_nodeDataMap set_nodeDataMap captured_node
                (fun id => "Overwriting node: " +:+ id) (fun _ => [])
                (fun d it =>
                   if Node.canvas it.2 && negb (Node.isChildNode it.2)
                   then addNodeData (Node.nodeData it.2) it.1 d else (d, []))
                (Qt.qmap_entries (doc_nodes doc))) with (d0 := d) as [E1 E2];
      try done.
    - by intros [].
    - intros d' it. unfold captured_node, addNodeData. by destruct (_ && _).
    - apply NoDup_fst_qmap_entries.
    - intros k _. by rewrite Hd.
    - rewrite E1, Hd, collect_entries. by split.
Qed.

Lemma saveDocumentState_spec (doc : ItemDocument) (d : ItemDocumentData) :
    let r := saveDocumentState PicItem_typeString (Some doc) d in
    m_itemDataMap r.1 = omap (captured_item PicItem_typeString) (doc_items doc)
    /\ m_connectorDataMap r.1
       = (if isICNDocument doc then omap captured_connector (doc_connectors doc) else ∅)
    /\ m_nodeDataMap r.1
       = (if isICNDocument doc then omap captured_node (doc_nodes doc) else ∅)
    /\ m_documentType r.1 = doc_type doc
    /\ Forall (fun e => is_Debug e = true) r.2.
Proof.
    cbv zeta. unfold saveDocumentState.
    rewrite ?then_logged_fst, ?then_logged_snd. cbn [fst snd app].
    destruct (addItems_spec doc (reset d) eq_refl) as [Ei Li].
    rewrite ?then_logged_fst, ?then_logged_snd. rewrite Ei.
    set (d1 := set_itemDataMap _ (reset d)).
    destruct (isICNDocument doc).
    - rewrite ?then_logged_fst, ?then_logged_snd.
      destruct (addConnectors_spec doc d1 eq_refl) as [Ec Lc]. rewrite Ec.
      set (d2 := set_connectorDataMap _ d1).
      rewrite ?then_logged_fst, ?then_logged_snd.
      destruct (addNodes_spec doc d2 eq_refl) as [En Ln]. rewrite En.
      set (d3 := set_nodeDataMap _ d2).
      assert (Hmicro : forall x : Logged ItemDocumentData,
                 x = (if isFlowCodeDocument doc then
                        match doc_microSettings doc with
                        | Some micro => (setMicroData micro d3, [])
                        | None => (d3, [])
                        end
                      else (d3, [])) ->
                 m_itemDataMap x.1 = m_itemDataMap d3
                 /\ m_connectorDataMap x.1 = m_connectorDataMap d3
                 /\ m_nodeDataMap x.1 = m_nodeDataMap d3 /\ x.2 = []).
      { intros x ->. destruct (isFlowCodeDocument doc); [|done].
        by destruct (doc_microSettings doc). }
      destruct (Hmicro _ eq_refl) as (H1 & H2 & H3 & H4).
      cbn [set_documentType m_itemDataMap m_connectorDataMap m_nodeDataMap
           m_documentType].
      rewrite H1, H2, H3, H4. repeat split; try done.
      rewrite !app_nil_r. apply Forall_app. split; [done|].
      apply Forall_app. by split.
    - cbn [fst snd set_documentType m_itemDataMap m_connectorDataMap m_nodeDataMap
           m_documentType]. repeat split; try done.
      by rewrite !app_nil_r.
Qed.

End capture_more.

(** X12. What a capture holds.  After [saveDocumentState] on a live
    document the item map holds exactly the live items that have a canvas
    and are not the microcontroller placement item, each with its own item
    data; in a graph-capable document the connector map holds exactly the
    connectors with a canvas and both end nodes, and the node map exactly
    the free-standing nodes with a canvas (both maps are empty otherwise);
    the document type is the live document's; and nothing is overwritten:
    the log holds debug entries only.  Nothing of the three maps of the
    snapshot's previous use survives. *)
Theorem saveDocumentState_records {QV : QtValue}
    (PicItem_typeString : string) (doc : ItemDocument) (d : ItemDocumentData) :
  let r := saveDocumentState PicItem_typeString (Some doc) d in
  m_itemDataMap r.1 = omap (captured_item PicItem_typeString) (doc_items doc)
  /\ m_connectorDataMap r.1
     = (if isICNDocument doc then omap captured_connector (doc_connectors doc) else ∅)
  /\ m_nodeDataMap r.1
     = (if isICNDocument doc then omap captured_node (doc_nodes doc) else ∅)
  /\ m_documentType r.1 = doc_type doc
  /\ Forall (fun e => is_Debug e = true) r.2.
Proof. apply saveDocumentState_spec. Qed.

(** * More on the sub-circuit extractor *)


Section pins_more.
Context {QV : QtValue}.

Lemma number_step_full delta nodeId nodeMap ec (items : gmap string ItemData.t) y id :
    number_step delta (nodeId, nodeMap, ec, items) (y, id)
    = (nodeId + delta, <[id := nodeId]> nodeMap,
       ECSubcircuit.setExtConName nodeId (marker_name items id) ec, delete id items).
Proof.
    unfold number_step, marker_name, Qt.qmap_index. cbn [snd].
    destruct (items !! id) as [it|] eqn:E; cbn [default from_option]; [done|].
    by rewrite delete_insert_eq.
Qed.

Lemma marker_name_delete (items : gmap string ItemData.t) id0 id :
    id <> id0 -> marker_name (delete id0 items) id = marker_name items id.
Proof. intros Hne. unfold marker_name. by rewrite lookup_delete_ne. Qed.

Lemma deleted_lookup {V} (pins : list (Z * string)) (items : gmap string V) id :
    foldl (fun m it => delete it.2 m) items pins !! id
    = if decide (id ∈ pins.*2) then None else items !! id.
Proof.
    revert items. induction pins as [|[y id0] pins IH]; intros items.
    - cbn [foldl]. destruct (decide (id ∈ ([] : list (Z * string)).*2)) as [Hin|]; [|done].
      by apply elem_of_nil in Hin.
    - cbn [foldl snd]. rewrite IH. rewrite fmap_cons. cbn [snd].
      destruct (decide (id ∈ pins.*2)) as [Hin|Hin];
        destruct (decide (id ∈ id0 :: pins.*2)) as [Hin'|Hin']; try done.
      + exfalso. apply Hin'. by right.
      + apply elem_of_cons in Hin' as [->|?]; [|done]. apply lookup_delete_eq.
      + apply lookup_delete_ne. intros ->. apply Hin'. by left.
Qed.

  (** One numbering pass. *)
Lemma numberPins_spec delta (pins : list (Z * string)) nodeId nodeMap ec
      (items : gmap string ItemData.t) :
    NoDup pins.*2 -> delta <> 0 ->
    exists nm ec',
      numberPins delta pins (nodeId, nodeMap, ec, items)
      = (nodeId + delta * Z.of_nat (length pins), nm, ec',
         foldl (fun m it => delete it.2 m) items pins)
      /\ (forall i y id, pins !! i = Some (y, id) ->
            nm !! id = Some (nodeId + delta * Z.of_nat i)
            /\ ECSubcircuit.extConName ec' !! (nodeId + delta * Z.of_nat i)
               = Some (marker_name items id))
      /\ (forall id, id ∉ pins.*2 -> nm !! id = nodeMap !! id)
      /\ (forall p, (forall i, (i < length pins)%nat -> p <> nodeId + delta * Z.of_nat i) ->
            ECSubcircuit.extConName ec' !! p = ECSubcircuit.extConName ec !! p)
      /\ ECSubcircuit.id ec' = ECSubcircuit.id ec
      /\ ECSubcircuit.numExtCon ec' = ECSubcircuit.numExtCon ec
      /\ ECSubcircuit.scInitDone ec' = ECSubcircuit.scInitDone ec.
Proof.
    intros Hnd Hdelta. unfold numberPins.
    change (foldl _ (nodeId, nodeMap, ec, items) pins)
      with (foldl (number_step delta) (nodeId, nodeMap, ec, items) pins).
    revert nodeId nodeMap ec items Hnd.
    induction pins as [|[y0 id0] pins IH]; intros nodeId nodeMap ec items Hnd.
    - exists nodeMap, ec. simpl. rewrite Z.mul_0_r, Z.add_0_r.
      split; [done|]. split; [by intros ? ? ? ?|]. done.
    - apply NoDup_cons in Hnd as [Hnin Hnd]. cbn [foldl].
      rewrite number_step_full.
      destruct (IH (nodeId + delta) (<[id0 := nodeId]> nodeMap)
                  (ECSubcircuit.setExtConName nodeId (marker_name items id0) ec)
                  (delete id0 items) Hnd)
        as (nm & ec' & E & Hpins & Hother & Hnames & Hid & Hnum & Hdone).
      exists nm, ec'. rewrite E. split.
      { f_equal. f_equal. f_equal. cbn [length]. lia. }
      split; [|split; [|split; [|done]]].
      + intros [|i] y id Hi; simpl in Hi.
        * injection Hi as -> ->. rewrite Z.mul_0_r, Z.add_0_r. split.
          -- rewrite Hother by done. by rewrite lookup_insert_eq.
          -- rewrite Hnames.
             ++ cbn. by rewrite lookup_insert_eq.
             ++ intros i _. nia.
        * destruct (Hpins _ _ _ Hi) as [H1 H2].
          assert (Hne : id <> id0).
          { intros ->. apply Hnin. apply list_elem_of_fmap. exists (y, id0).
            split; [done|]. by eapply list_elem_of_lookup_2. }
          replace (nodeId + delta * Z.of_nat (S i))
            with (nodeId + delta + delta * Z.of_nat i) by lia.
          rewrite marker_name_delete in H2 by done. done.
      + intros id Hnot. simpl in Hnot. apply not_elem_of_cons in Hnot as [Hne Hnot].
        rewrite Hother by done. by rewrite lookup_insert_ne.
      + intros p Hp. rewrite Hnames.
        * cbn. rewrite lookup_insert_ne; [done|].
          intros ->. apply (Hp 0%nat); [simpl; lia|lia].
        * intros i Hi. specialize (Hp (S i)). cbn [length] in Hp.
          intros ->. apply Hp; lia.
Qed.

Lemma split_size (n : nat) : (n / 2 + n mod 2 <= n)%nat.
Proof.
    pose proof (Nat.div_mod_eq n 2). pose proof (Nat.mod_upper_bound n 2). lia.
Qed.

  (** Everything [assignPins] yields. *)
Lemma assignPins_spec ec (items : gmap string ItemData.t) :
    let n := length (externalConnections items) in
    exists nodeMap ec' items',
      assignPins ec items = (nodeMap, ec', items')
      /\ (forall id, items' !! id
                     = if decide (id ∈ (externalConnections items).*2)
                       then None else items !! id)
      /\ (forall id, is_Some (nodeMap !! id) <-> id ∈ (externalConnections items).*2)
      /\ (forall id p, nodeMap !! id = Some p ->
            0 <= p < Z.of_nat n
            /\ ECSubcircuit.extConName ec' !! p = Some (marker_name items id))
      /\ (forall id1 id2 p, nodeMap !! id1 = Some p -> nodeMap !! id2 = Some p -> id1 = id2)
      /\ ECSubcircuit.numExtCon ec' = Z.of_nat n
      /\ ECSubcircuit.id ec' = ECSubcircuit.id ec
      /\ ECSubcircuit.scInitDone ec' = ECSubcircuit.scInitDone ec.
Proof.
    intros n. set (extCon := externalConnections items) in *.
    assert (Hkeys : forall e, e ∈ extCon -> is_Some (items !! e.2)).
    { intros [x id] (it & Hit & _)%elem_of_externalConnections. eauto. }
    destruct (sortPins_spec items extCon Hkeys) as (L & R & E & HL & HR & _).
    fold n in HL, HR. set (size := (n / 2 + n mod 2)%nat) in *.
    pose proof (split_size n) as Hsize. fold size in Hsize.
    pose proof (externalConnections_NoDup items) as Hnd. fold extCon in Hnd.
    assert (Hall : extCon.*2 ≡ₚ L.*2 ++ R.*2).
    { rewrite HL, HR. by rewrite take_drop. }
    assert (HlenL : length L = size).
    { rewrite <- (length_fmap snd L), HL, length_take, length_fmap. fold n. lia. }
    assert (HlenR : (length R = n - size)%nat).
    { rewrite <- (length_fmap snd R), HR, length_drop, length_fmap. done. }
    rewrite Hall in Hnd. apply NoDup_app in Hnd as (HndL & Hdisj & HndR).
    unfold assignPins. fold extCon. rewrite E. fold n.
    destruct (numberPins_spec 1 L 0 ∅ (ECSubcircuit.setNumExtCon (Z.of_nat n) ec) items
                HndL ltac:(lia))
      as (nm1 & ec1 & E1 & HL1 & HL2 & HL3 & Hid1 & Hnum1 & Hdone1).
    rewrite E1.
    destruct (numberPins_spec (-1) R (Z.of_nat n - 1) nm1 ec1
                (foldl (fun m it => delete it.2 m) items L) HndR ltac:(lia))
      as (nm2 & ec2 & E2 & HR1 & HR2 & HR3 & Hid2 & Hnum2 & Hdone2).
    rewrite E2. exists nm2, ec2, (foldl (fun m it => delete it.2 m)
                                   (foldl (fun m it => delete it.2 m) items L) R).
    split; [done|].
    assert (Hin : forall id, id ∈ extCon.*2 <-> id ∈ L.*2 \/ id ∈ R.*2).
    { intros id. rewrite Hall. apply elem_of_app. }
    assert (HnameR : forall id, id ∈ R.*2 ->
               marker_name (foldl (fun m it => delete it.2 m) items L) id
               = marker_name items id).
    { intros id HidR. unfold marker_name. rewrite deleted_lookup.
      rewrite decide_False; [done|]. intros HidL. by apply (Hdisj id). }
    split; [|split; [|split; [|split; [|split; [|split]]]]].
    - intros id. rewrite !deleted_lookup.
      destruct (decide (id ∈ R.*2)) as [HidR|HidR].
      + rewrite decide_True; [done|]. apply Hin. by right.
      + destruct (decide (id ∈ L.*2)) as [HidL|HidL].
        * rewrite decide_True; [done|]. apply Hin. by left.
        * rewrite decide_False; [done|]. rewrite Hin. tauto.
    - intros id. rewrite Hin. split.
      + intros Hsome. destruct (decide (id ∈ R.*2)) as [|HidR]; [by right|].
        destruct (decide (id ∈ L.*2)) as [|HidL]; [by left|].
        rewrite HR2, HL2 in Hsome by done. rewrite lookup_empty in Hsome.
        by destruct Hsome.
      + intros [HidL|HidR].
        * apply list_elem_of_fmap in HidL as ([y id'] & -> & Hin'). cbn [snd] in *.
          apply list_elem_of_lookup_1 in Hin' as [i Hi].
          rewrite HR2 by (intros ?; by eapply Hdisj; [apply list_elem_of_fmap;
                            exists (y, id'); split; [done|by eapply list_elem_of_lookup_2]|]).
          destruct (HL1 _ _ _ Hi) as [-> _]. eauto.
        * apply list_elem_of_fmap in HidR as ([y id'] & -> & Hin'). cbn [snd] in *.
          apply list_elem_of_lookup_1 in Hin' as [j Hj].
          destruct (HR1 _ _ _ Hj) as [-> _]. eauto.
    - intros id p Hp.
      destruct (decide (id ∈ R.*2)) as [HidR|HidR].
      + pose proof HidR as HidR'.
        apply list_elem_of_fmap in HidR as ([y id'] & -> & Hin'). cbn [snd] in *.
        apply list_elem_of_lookup_1 in Hin' as [j Hj].
        pose proof (lookup_lt_Some _ _ _ Hj) as Hlt.
        destruct (HR1 _ _ _ Hj) as [Hv Hname]. simpl in Hp. rewrite Hv in Hp.
        injection Hp as <-. split; [lia|].
        rewrite Hname. f_equal. by apply HnameR.
      + rewrite HR2 in Hp by done.
        destruct (decide (id ∈ L.*2)) as [HidL|HidL].
        * apply list_elem_of_fmap in HidL as ([y id'] & -> & Hin'). cbn [snd] in *.
          apply list_elem_of_lookup_1 in Hin' as [i Hi].
          pose proof (lookup_lt_Some _ _ _ Hi) as Hlt.
          destruct (HL1 _ _ _ Hi) as [Hv Hname]. simpl in Hp. rewrite Hv in Hp.
          injection Hp as <-. split; [lia|].
          rewrite HR3; [by rewrite Z.add_0_l in Hname|].
          intros j Hj. lia.
        * rewrite HL2 in Hp by done. by rewrite lookup_empty in Hp.
    - assert (Hcase : forall id p, nm2 !! id = Some p ->
                 (exists i y, L !! i = Some (y, id) /\ p = Z.of_nat i)
                 \/ (exists j y, R !! j = Some (y, id) /\ p = Z.of_nat n - 1 - Z.of_nat j)).
      { intros id p Hp.
        destruct (decide (id ∈ R.*2)) as [HidR|HidR].
        - right. apply list_elem_of_fmap in HidR as ([y id'] & -> & Hin'). cbn [snd] in *.
          apply list_elem_of_lookup_1 in Hin' as [j Hj].
          destruct (HR1 _ _ _ Hj) as [Hv _]. simpl in Hp. rewrite Hv in Hp.
          injection Hp as <-. exists j, y. split; [done|lia].
        - rewrite HR2 in Hp by done.
          destruct (decide (id ∈ L.*2)) as [HidL|HidL].
          + left. apply list_elem_of_fmap in HidL as ([y id'] & -> & Hin'). cbn [snd] in *.
            apply list_elem_of_lookup_1 in Hin' as [i Hi].
            destruct (HL1 _ _ _ Hi) as [Hv _]. simpl in Hp. rewrite Hv in Hp.
            injection Hp as <-. exists i, y. split; [done|lia].
          + rewrite HL2 in Hp by done. by rewrite lookup_empty in Hp. }
      intros id1 id2 p H1 H2.
      destruct (Hcase _ _ H1) as [(i1 & y1 & Hi1 & ->)|(j1 & y1 & Hj1 & ->)];
        destruct (Hcase _ _ H2) as [(i2 & y2 & Hi2 & Ep)|(j2 & y2 & Hj2 & Ep)].
      + assert (i1 = i2) by lia. subst. congruence.
      + pose proof (lookup_lt_Some _ _ _ Hi1). pose proof (lookup_lt_Some _ _ _ Hj2). lia.
      + pose proof (lookup_lt_Some _ _ _ Hj1). pose proof (lookup_lt_Some _ _ _ Hi2). lia.
      + assert (j1 = j2) by lia. subst. congruence.
    - by rewrite Hnum2, Hnum1.
    - by rewrite Hid2, Hid1.
    - by rewrite Hdone2, Hdone1.
Qed.

End pins_more.

Section pins_theorems.
Context {QV : QtValue}.

Lemma marker_ids (items : gmap string ItemData.t) id :
    id ∈ (externalConnections items).*2
    <-> exists it, items !! id = Some it /\ is_marker it.
Proof.
    rewrite list_elem_of_fmap. split.
    - intros ([x id'] & -> & Hin). apply elem_of_externalConnections in Hin
        as (it & Hit & Hm & _). eauto.
    - intros (it & Hit & Hm). exists (ItemData.x it, id). split; [done|].
      apply elem_of_externalConnections. eauto.
Qed.

Lemma nodeMap_size (nodeMap : gmap string Z) (l : list string) :
    NoDup l -> (forall id, is_Some (nodeMap !! id) <-> id ∈ l) ->
    size nodeMap = length l.
Proof.
    intros Hnd Hdom. rewrite <- size_dom.
    assert (dom nodeMap = (list_to_set l : gset string)) as ->.
    { apply set_eq. intros id. rewrite elem_of_dom, elem_of_list_to_set. apply Hdom. }
    by apply size_list_to_set.
Qed.

End pins_theorems.

(** X13. What [initECSubcircuit] does with the markers.  The item map is
    left with exactly the items that are not external-connection markers;
    the pin table has an entry for exactly the markers; the container's
    number of external connections is the number of markers, and the pin
    numbers are pairwise distinct and lie in [0, n), so the markers
    correspond one to one to the pins 0 .. n-1. *)
Theorem assignPins_markers {QV : QtValue} (ec : ECSubcircuit.t)
    (items : gmap string ItemData.t) :
  let nodeMap := (assignPins ec items).1.1 in
  let ec' := (assignPins ec items).1.2 in
  let items' := (assignPins ec items).2 in
  (forall id it, items' !! id = Some it <-> items !! id = Some it /\ ~ is_marker it)
  /\ (forall id, is_Some (nodeMap !! id) <->
        exists it, items !! id = Some it /\ is_marker it)
  /\ ECSubcircuit.numExtCon ec' = Z.of_nat (size nodeMap)
  /\ (forall id p, nodeMap !! id = Some p -> 0 <= p < ECSubcircuit.numExtCon ec')
  /\ (forall id1 id2 p, nodeMap !! id1 = Some p -> nodeMap !! id2 = Some p -> id1 = id2)
  /\ ECSubcircuit.id ec' = ECSubcircuit.id ec.
Proof.
  destruct (assignPins_spec ec items)
    as (nodeMap & ec' & items' & E & Hitems & Hdom & Hpins & Hinj & Hnum & Hid & _).
  cbv zeta. rewrite E. cbn [fst snd].
  split; [|split; [|split; [|split; [|split]]]].
  - intros id it. rewrite Hitems. destruct (decide _) as [Hin|Hin].
    + apply marker_ids in Hin as (it' & Hit' & Hm). split; [done|].
      intros [Hit Hnm]. congruence.
    + split; [|tauto]. intros Hit. split; [done|]. intros Hm.
      apply Hin, marker_ids. eauto.
  - intros id. rewrite Hdom. apply marker_ids.
  - rewrite Hnum. f_equal.
    rewrite (nodeMap_size nodeMap (externalConnections items).*2);
      [by rewrite length_fmap|apply externalConnections_NoDup|done].
  - intros id p Hp. rewrite Hnum. by apply (Hpins id p).
  - done.
  - done.
Qed.

(** X14. Every pin of the container is named after the marker that got
    its number: the name is the marker's string property "name", or the
    empty string when the marker has none. *)
Theorem assignPins_names {QV : QtValue} (ec : ECSubcircuit.t)
    (items : gmap string ItemData.t) (id : string) (p : Z) :
  (assignPins ec items).1.1 !! id = Some p ->
  ECSubcircuit.extConName (assignPins ec items).1.2 !! p = Some (marker_name items id).
Proof.
  destruct (assignPins_spec ec items)
    as (nodeMap & ec' & items' & E & _ & _ & Hpins & _).
  rewrite E. cbn [fst snd]. intros Hp. by apply (Hpins id p).
Qed.

Lemma assignPins_names_witness :
  ECSubcircuit.extConName
    (@assignPins example_values (ECSubcircuit.mk "sub" 0 ∅ false) named_markers).1.2 !! 1
  = Some "B".
Proof.
  apply (@assignPins_names example_values (ECSubcircuit.mk "sub" 0 ∅ false)
           named_markers "out" 1).
  reflexivity.
Defined.

(** * More on merge and restore *)


Section merge_more.
Context {QV : QtValue} {IL : ItemLibrary}.

Lemma live_kept_refl doc : live_kept doc doc.
Proof. by repeat split. Qed.

Lemma live_kept_trans doc1 doc2 doc3 :
    live_kept doc1 doc2 -> live_kept doc2 doc3 -> live_kept doc1 doc3.
Proof.
    intros (Ht & Hi & Hn & Hc) (Ht' & Hi' & Hn' & Hc').
    split; [congruence|]. repeat split; eauto.
Qed.

Lemma is_Some_insert_keep {V} (m : gmap string V) k v id :
    is_Some (m !! id) -> is_Some (<[k := v]> m !! id).
Proof. intros H. apply lookup_insert_is_Some'. by right. Qed.

Lemma merge_create_node_kept doc it : live_kept doc (merge_create_node doc it).
Proof.
    unfold merge_create_node. destruct (nodeWithID it.1 doc); [apply live_kept_refl|].
    destruct (doc_type doc) eqn:E; try apply live_kept_refl;
      (split; [done|]); repeat split; try done;
      intros id Hid; by apply is_Some_insert_keep.
Qed.

Lemma merge_move_node_kept doc it : live_kept doc (merge_move_node doc it).
Proof.
    unfold merge_move_node. destruct (nodeWithID it.1 doc); [|apply live_kept_refl].
    repeat split; try done. intros id Hid. by apply is_Some_insert_keep.
Qed.

Lemma merge_create_item_kept doc it : live_kept doc (merge_create_item doc it).1.
Proof.
    unfold merge_create_item.
    destruct (bool_decide (ItemData.type it.2 <> "")); [|apply live_kept_refl].
    cbn [andb]. case_bool_decide as Habs; [|apply live_kept_refl].
    destruct (createItem _ _ _) as [item|]; [|apply live_kept_refl].
    destruct (negb _); cbn [fst]; repeat split; try done; intros id Hid; cbn.
    - rewrite lookup_delete_ne; [by apply is_Some_insert_keep|].
      intros <-. unfold itemWithID in Habs. rewrite Habs in Hid. by destruct Hid.
    - by do 2 apply is_Some_insert_keep.
Qed.

Lemma merge_restore_item_kept sel doc it : live_kept doc (merge_restore_item sel doc it).
Proof.
    unfold merge_restore_item. destruct (itemWithID it.1 doc); [|apply live_kept_refl].
    destruct sel; cbn; unfold itemWithID; cbn; rewrite lookup_insert_eq;
      repeat split; try done; intros id Hid; cbn; by do 2 apply is_Some_insert_keep.
Qed.

Lemma merge_create_connector_kept doc it :
    live_kept doc (merge_create_connector doc it).1.
Proof.
    unfold merge_create_connector, then_logged.
    destruct (connectorWithID it.1 doc); [apply live_kept_refl|].
    destruct (resolve_endpoint doc _ _ _ _) as [[s|] lgs];
      destruct (resolve_endpoint doc _ _ _ _) as [[e|] lge]; cbn [fst snd];
      try apply live_kept_refl.
    repeat split; try done; intros id Hid; cbn.
    - rewrite !lookup_alter_is_Some. done.
    - by apply is_Some_insert_keep.
Qed.

Lemma merge_restore_connector_kept sel doc it :
    live_kept doc (merge_restore_connector sel doc it).
Proof.
    unfold merge_restore_connector.
    destruct (connectorWithID it.1 doc); [|apply live_kept_refl].
    destruct sel; repeat split; try done; intros id Hid; cbn;
      by apply is_Some_insert_keep.
Qed.

Lemma foldl_kept {B} (f : ItemDocument -> B -> ItemDocument) doc l :
    (forall a b, live_kept a (f a b)) -> live_kept doc (foldl f doc l).
Proof.
    intros Hf. apply (foldl_preserves (live_kept doc)); [|apply live_kept_refl].
    intros a b _ Ha. eapply live_kept_trans; [done|apply Hf].
Qed.

Lemma merge_nodes_kept d doc : live_kept doc (merge_nodes d doc).
Proof.
    unfold merge_nodes. destruct (isICNDocument doc); [|apply live_kept_refl].
    apply (live_kept_trans _
             (foldl merge_create_node doc (Qt.qmap_entries (m_nodeDataMap d))));
      apply foldl_kept; [apply merge_create_node_kept|apply merge_move_node_kept].
Qed.

Lemma merge_items_kept sel d doc : live_kept doc (merge_items sel d doc).1.
Proof.
    unfold merge_items. rewrite then_logged_fst. cbn [fst].
    eapply live_kept_trans; [|apply foldl_kept, merge_restore_item_kept].
    rewrite foldl_logged_fst. apply foldl_kept. intros a b. apply merge_create_item_kept.
Qed.

Lemma merge_connectors_kept sel d doc : live_kept doc (merge_connectors sel d doc).1.
Proof.
    unfold merge_connectors. destruct (isICNDocument doc); [|apply live_kept_refl].
    rewrite then_logged_fst. cbn [fst].
    eapply live_kept_trans; [|apply foldl_kept, merge_restore_connector_kept].
    rewrite foldl_logged_fst. apply foldl_kept. intros a b.
    apply merge_create_connector_kept.
Qed.

  (** *** What is logged *)

Lemma foldl_logged_log {A B} (P : LogEntry -> Prop) (f : A -> B -> Logged A) a l :
    (forall a b, Forall P (f a b).2) -> Forall P (foldl_logged f a l).2.
Proof.
    intros Hf. revert a. induction l as [|b l IH]; intros a; [constructor|].
    rewrite foldl_logged_cons. cbn [snd]. apply Forall_app. split; [apply Hf|apply IH].
Qed.

Lemma merge_items_log sel d doc :
    Forall (fun e => is_Critical e = false) (merge_items sel d doc).2.
Proof.
    unfold merge_items. rewrite then_logged_snd. cbn [snd]. rewrite app_nil_r.
    apply foldl_logged_log. intros a b. unfold merge_create_item.
    destruct (_ && _); [|constructor].
    destruct (createItem _ _ _); [|constructor].
    destruct (negb _); repeat constructor.
Qed.

Lemma errors_none lg : Forall (fun e => is_Critical e = false) lg -> errors lg = 0%nat.
Proof.
    unfold errors. induction 1 as [|e lg He _ IH]; [done|].
    rewrite filter_cons. by destruct (is_Critical e).
Qed.

Lemma merge_items_connectors sel d doc :
    doc_connectors (merge_items sel d doc).1 = doc_connectors doc.
Proof.
    unfold merge_items, then_logged. cbn [fst snd].
    apply (foldl_preserves (fun x => doc_connectors x = doc_connectors doc)).
    - intros a b _ Ha. unfold merge_restore_item.
      destruct (itemWithID b.1 a); [|done]. destruct sel; simpl;
        match goal with |- context [match ?x with _ => _ end] => destruct x end; done.
    - rewrite foldl_logged_fst.
      apply (foldl_preserves (fun x => doc_connectors x = doc_connectors doc)); [|done].
      intros a b _ Ha. unfold merge_create_item.
      destruct (_ && _); [|done].
      destruct (createItem _ _ _); [|done]. by destruct (negb _).
Qed.

End merge_more.

(** X15. A merge only adds.  [mergeWithDocument] on a live document yields
    a document of the same type in which every item, node and connector
    that was live before is still live.  In a document that is not
    graph-capable the node and connector loops do not run at all: the nodes
    and connectors are exactly as before and no error is logged, whatever
    connector records the snapshot holds. *)
Theorem mergeWithDocument_only_adds {QV : QtValue} {IL : ItemLibrary}
    (doc : ItemDocument) (selectNew : bool) (d : ItemDocumentData) :
  exists doc',
    (mergeWithDocument (Some doc) selectNew d).1 = Some doc'
    /\ live_kept doc doc'
    /\ (isICNDocument doc = false ->
        doc_nodes doc' = doc_nodes doc
        /\ doc_connectors doc' = doc_connectors doc
        /\ errors (mergeWithDocument (Some doc) selectNew d).2 = 0%nat).
Proof.
  rewrite mergeWithDocument_unfold. cbn [fst snd]. eexists. split; [done|]. split.
  - eapply live_kept_trans; [|apply merge_connectors_kept].
    unfold before_connectors.
    eapply live_kept_trans; [apply merge_nodes_kept|apply merge_items_kept].
  - intros Hicn.
    assert (Hicn' : isICNDocument (before_connectors selectNew d doc) = false)
      by (by rewrite before_connectors_ICN).
    unfold merge_connectors. rewrite Hicn'. cbn [fst snd]. rewrite app_nil_r.
    unfold before_connectors, merge_nodes. rewrite Hicn.
    rewrite merge_items_nodes, merge_items_connectors.
    split; [done|]. split; [done|]. apply errors_none, merge_items_log.
Qed.

Section node_positions.
Context {QV : QtValue} {IL : ItemLibrary}.

Lemma merge_create_node_present doc it :
    doc_type doc = dt_circuit \/ doc_type doc = dt_flowcode ->
    is_Some (doc_nodes (merge_create_node doc it) !! it.1).
Proof.
    intros Hty. unfold merge_create_node, nodeWithID.
    destruct (doc_nodes doc !! it.1) eqn:E; [rewrite E; eauto|].
    destruct Hty as [-> | ->]; cbn; rewrite lookup_insert_eq; eauto.
Qed.

Lemma create_fold_present (l : list (string * NodeData.t)) doc it :
    doc_type doc = dt_circuit \/ doc_type doc = dt_flowcode ->
    it ∈ l ->
    is_Some (doc_nodes (foldl merge_create_node doc l) !! it.1).
Proof.
    revert doc. induction l as [|b l IH]; intros doc Hty Hin.
    - by apply elem_of_nil in Hin.
    - cbn [foldl]. apply elem_of_cons in Hin as [->|Hin].
      + destruct (foldl_kept merge_create_node (merge_create_node doc b) l
                    merge_create_node_kept) as (_ & _ & Hn & _).
        apply Hn. by apply merge_create_node_present.
      + apply IH; [|done].
        destruct (merge_create_node_kept doc b) as (-> & _). done.
Qed.

Lemma merge_move_node_other doc it id :
    it.1 <> id -> doc_nodes (merge_move_node doc it) !! id = doc_nodes doc !! id.
Proof.
    intros Hne. unfold merge_move_node. destruct (nodeWithID it.1 doc); [|done].
    cbn. by rewrite lookup_insert_ne.
Qed.

Lemma move_fold_other (l : list (string * NodeData.t)) doc id :
    id ∉ l.*1 -> doc_nodes (foldl merge_move_node doc l) !! id = doc_nodes doc !! id.
Proof.
    revert doc. induction l as [|b l IH]; intros doc Hid; [done|].
    cbn [foldl]. rewrite fmap_cons in Hid. apply not_elem_of_cons in Hid as [Hne Hid].
    rewrite IH by done. by apply merge_move_node_other.
Qed.

Lemma move_fold_position (l : list (string * NodeData.t)) doc id v :
    NoDup l.*1 -> (id, v) ∈ l -> is_Some (doc_nodes doc !! id) ->
    exists node, doc_nodes (foldl merge_move_node doc l) !! id = Some node
                 /\ Node.nodeData node = v.
Proof.
    revert doc. induction l as [|b l IH]; intros doc Hnd Hin Hsome.
    - by apply elem_of_nil in Hin.
    - rewrite fmap_cons in Hnd. apply NoDup_cons in Hnd as [Hnin Hnd].
      cbn [foldl]. apply elem_of_cons in Hin as [<-|Hin].
      + rewrite move_fold_other by done. unfold merge_move_node, nodeWithID.
        cbn [fst snd]. destruct Hsome as [node ->]. cbn. rewrite lookup_insert_eq.
        eexists. split; [done|]. by destruct v.
      + apply IH; [done|done|].
        destruct (merge_move_node_kept doc b) as (_ & _ & Hn & _). by apply Hn.
Qed.

Lemma merge_nodes_position d doc id v :
    doc_type doc = dt_circuit \/ doc_type doc = dt_flowcode ->
    m_nodeDataMap d !! id = Some v ->
    exists node, doc_nodes (merge_nodes d doc) !! id = Some node
                 /\ Node.nodeData node = v.
Proof.
    intros Hty Hv. unfold merge_nodes.
    assert (isICNDocument doc = true) as ->.
    { unfold isICNDocument. by destruct Hty as [-> | ->]. }
    apply elem_of_qmap_entries in Hv.
    apply move_fold_position; [apply NoDup_fst_qmap_entries|done|].
    by apply (create_fold_present _ doc (id, v)).
Qed.

Lemma merge_create_connector_nodeData doc it id :
    Node.nodeData <$> doc_nodes (merge_create_connector doc it).1 !! id
    = Node.nodeData <$> doc_nodes doc !! id.
Proof.
    unfold merge_create_connector, then_logged.
    destruct (connectorWithID it.1 doc); [done|].
    destruct (resolve_endpoint doc _ _ _ _) as [[s|] lgs];
      destruct (resolve_endpoint doc _ _ _ _) as [[e|] lge]; cbn [fst snd]; try done.
    cbn. rewrite !lookup_alter.
    repeat (destruct (decide _) as [->|?]); try done;
      by destruct (doc_nodes doc !! _).
Qed.

Lemma merge_connectors_nodeData sel d doc id :
    Node.nodeData <$> doc_nodes (merge_connectors sel d doc).1 !! id
    = Node.nodeData <$> doc_nodes doc !! id.
Proof.
    unfold merge_connectors. destruct (isICNDocument doc); [|done].
    rewrite then_logged_fst. cbn [fst].
    apply (foldl_preserves
             (fun x => Node.nodeData <$> doc_nodes x !! id
                       = Node.nodeData <$> doc_nodes doc !! id)).
    - intros a b _ Ha.
      destruct (merge_restore_connector_keeps sel a b) as (_ & _ & Hn).
      cbv zeta in Hn. by rewrite Hn.
    - rewrite foldl_logged_fst.
      apply (foldl_preserves
               (fun x => Node.nodeData <$> doc_nodes x !! id
                         = Node.nodeData <$> doc_nodes doc !! id)); [|done].
      intros a b _ Ha. by rewrite merge_create_connector_nodeData.
Qed.

End node_positions.

(** X16. After a merge into a circuit or flow-code document every node
    record of the snapshot has a live node under its identifier, at the
    recorded position. *)
Theorem mergeWithDocument_places_nodes {QV : QtValue} {IL : ItemLibrary}
    (doc : ItemDocument) (selectNew : bool) (d : ItemDocumentData)
    (id : string) (v : NodeData.t) :
  doc_type doc = dt_circuit \/ doc_type doc = dt_flowcode ->
  m_nodeDataMap d !! id = Some v ->
  exists doc' node,
    (mergeWithDocument (Some doc) selectNew d).1 = Some doc'
    /\ doc_nodes doc' !! id = Some node
    /\ Node.nodeData node = v.
Proof.
  intros Hty Hv. rewrite mergeWithDocument_unfold. cbn [fst].
  destruct (merge_nodes_position d doc id v Hty Hv) as (node & Hnode & Hdata).
  set (doc3 := (merge_connectors selectNew d (before_connectors selectNew d doc)).1).
  assert (Hc : Node.nodeData <$> doc_nodes doc3 !! id = Some v).
  { subst doc3. rewrite merge_connectors_nodeData. unfold before_connectors.
    rewrite merge_items_nodes, Hnode. simpl. by rewrite Hdata. }
  destruct (doc_nodes doc3 !! id) as [node'|] eqn:E; [|done].
  exists doc3, node'. split; [done|]. split; [done|]. simpl in Hc. congruence.
Qed.

Lemma mergeWithDocument_places_nodes_witness :
  exists doc' node,
    (@mergeWithDocument example_values example_library
       (Some blank_circuit_document) false wires_snapshot).1 = Some doc'
    /\ doc_nodes doc' !! "n1" = Some node
    /\ Node.nodeData node = NodeData.init.
Proof.
  apply (@mergeWithDocument_places_nodes example_values example_library
           blank_circuit_document false wires_snapshot "n1" NodeData.init).
  - by left.
  - reflexivity.
Defined.

Section pruning.
Context {QV : QtValue} {IL : ItemLibrary}.
Variable PicItem_typeString : string.

Lemma restored_items d doc :
    let merged := merged_document d doc in
    doc_items (restored_document PicItem_typeString d doc)
    = prune_map (item_removable PicItem_typeString)
        (remove_known (fun k => bool_decide (is_Some (doc_items merged !! k)))
           (Qt.qmap_keys (doc_items merged)) (Qt.qmap_entries (m_itemDataMap d)))
        (doc_items merged).
Proof.
    cbv zeta. rewrite restored_document_eq. cbv zeta.
    unfold prune_items, prune_nodes, prune_connectors.
    rewrite prune_items_fold.
    destruct (isICNDocument doc); [|done].
    by rewrite prune_nodes_fold, prune_connectors_fold.
Qed.

Lemma restored_nodes d doc :
    let merged := merged_document d doc in
    doc_nodes (restored_document PicItem_typeString d doc)
    = if isICNDocument doc then
        prune_map node_removable
          (remove_known (fun k => bool_decide (is_Some (doc_nodes merged !! k)))
             (Qt.qmap_keys (doc_nodes merged)) (Qt.qmap_entries (m_nodeDataMap d)))
          (doc_nodes merged)
      else doc_nodes merged.
Proof.
    cbv zeta. rewrite restored_document_eq. cbv zeta.
    unfold prune_items, prune_nodes, prune_connectors.
    rewrite prune_items_fold.
    destruct (isICNDocument doc); [|done].
    by rewrite prune_nodes_fold, prune_connectors_fold.
Qed.

Lemma restored_connectors d doc :
    let merged := merged_document d doc in
    doc_connectors (restored_document PicItem_typeString d doc)
    = if isICNDocument doc then
        prune_map Connector.canvas
          (remove_known (fun k => bool_decide (is_Some (doc_connectors merged !! k)))
             (Qt.qmap_keys (doc_connectors merged))
             (Qt.qmap_entries (m_connectorDataMap d)))
          (doc_connectors merged)
      else doc_connectors merged.
Proof.
    cbv zeta. rewrite restored_document_eq. cbv zeta.
    unfold prune_items, prune_nodes, prune_connectors.
    rewrite prune_items_fold.
    destruct (isICNDocument doc); [|done].
    by rewrite prune_nodes_fold, prune_connectors_fold.
Qed.

Lemma prune_map_spared {X} (removable : X -> bool) l (m : gmap string X) id x :
    m !! id = Some x -> removable x = false -> prune_map removable l m !! id = Some x.
Proof.
    intros Hx Hr. rewrite prune_map_lookup, Hx. simpl. rewrite Hr.
    by rewrite andb_false_r.
Qed.

  (** What the pruning removes: the live entities that are removable and
      are not under a key of the snapshot. *)
Lemma pruned_exact {X V} (removable : X -> bool) (live : gmap string X)
      (snap : gmap string V) id :
    prune_map removable
      (remove_known (fun k => bool_decide (is_Some (live !! k)))
         (Qt.qmap_keys live) (Qt.qmap_entries snap)) live !! id
    = match live !! id with
      | Some x => if removable x && bool_decide (snap !! id = None) then None else Some x
      | None => None
      end.
Proof.
    rewrite prune_map_lookup.
    destruct (live !! id) as [x|] eqn:Hx; [|by rewrite andb_false_r].
    cbn [from_option]. destruct (removable x); [|by rewrite andb_false_r].
    rewrite andb_true_r, andb_true_l.
    assert (Hin : id ∈ remove_known (fun k => bool_decide (is_Some (live !! k)))
                    (Qt.qmap_keys live) (Qt.qmap_entries snap)
                  <-> snap !! id = None).
    { rewrite elem_of_remove_known, elem_of_qmap_keys.
      fold (Qt.qmap_keys snap). rewrite elem_of_qmap_keys, bool_decide_eq_true, Hx.
      rewrite eq_None_not_Some. split.
      - intros [_ Hn] Hs. apply Hn. eauto.
      - intros Hn. split; [eauto|]. by intros [Hs _]. }
    destruct (snap !! id) eqn:Hs.
    - rewrite bool_decide_eq_false_2; [done|]. rewrite Hin. done.
    - rewrite bool_decide_eq_true_2; [done|]. by apply Hin.
Qed.

End pruning.

(** X17. What the pruning of [restoreDocument] spares and what it takes.
    The restored items are the merged items minus those that have a canvas,
    are not the microcontroller placement item and are under no key of the
    snapshot's item map; in a graph-capable document the same holds for
    free-standing nodes with a canvas and for connectors with a canvas, and
    in any other document nodes and connectors are not pruned.  So the
    microcontroller placement item, an entity without canvas and a child
    node are never deleted. *)
Theorem restoreDocument_pruning {QV : QtValue} {IL : ItemLibrary}
    (PicItem_typeString : string) (d : ItemDocumentData) (doc : ItemDocument)
    (id : string) :
  let doc' := restored_document PicItem_typeString d doc in
  let merged := merged_document d doc in
  doc_items doc' !! id
  = match doc_items merged !! id with
    | Some item =>
        if Item.canvas item && bool_decide (Item.type item <> PicItem_typeString)
           && bool_decide (m_itemDataMap d !! id = None)
        then None else Some item
    | None => None
    end
  /\ doc_nodes doc' !! id
     = match doc_nodes merged !! id with
       | Some node =>
           if isICNDocument doc && (Node.canvas node && negb (Node.isChildNode node))
              && bool_decide (m_nodeDataMap d !! id = None)
           then None else Some node
       | None => None
       end
  /\ doc_connectors doc' !! id
     = match doc_connectors merged !! id with
       | Some connector =>
           if isICNDocument doc && Connector.canvas connector
              && bool_decide (m_connectorDataMap d !! id = None)
           then None else Some connector
       | None => None
       end.
Proof.
  cbv zeta. rewrite restored_items, restored_nodes, restored_connectors. cbv zeta.
  split; [apply (pruned_exact (item_removable PicItem_typeString))|].
  destruct (isICNDocument doc).
  - split; [apply (pruned_exact node_removable)|apply (pruned_exact Connector.canvas)].
  - split; by destruct (_ !! id).
Qed.


Section capture_restore.
Context {QV : QtValue} {IL : ItemLibrary}.
Variable PicItem_typeString : string.

Lemma set_doc_nodes_same (doc : ItemDocument) : set_doc_nodes (doc_nodes doc) doc = doc.
Proof. by destruct doc. Qed.

Lemma set_doc_connectors_same (doc : ItemDocument) :
    set_doc_connectors (doc_connectors doc) doc = doc.
Proof. by destruct doc. Qed.

Lemma foldl_fixed {A B} (f : A -> B -> A) a (l : list B) :
    (forall b, b ∈ l -> f a b = a) -> foldl f a l = a.
Proof.
    induction l as [|b l IH]; intros Hf; [done|].
    cbn [foldl]. rewrite Hf by (by left). apply IH. intros b' Hb'. apply Hf. by right.
Qed.

Lemma foldl_logged_fixed {A B} (f : A -> B -> Logged A) a (l : list B) :
    (forall b, b ∈ l -> f a b = (a, [])) -> foldl_logged f a l = (a, []).
Proof.
    induction l as [|b l IH]; intros Hf; [done|].
    rewrite foldl_logged_cons, Hf by (by left). cbn [fst snd].
    rewrite IH; [done|]. intros b' Hb'. apply Hf. by right.
Qed.

  (** Node records that describe the live nodes: the node loops change
      nothing. *)
Lemma merge_nodes_fixed d doc :
    (forall k v, m_nodeDataMap d !! k = Some v ->
       exists node, doc_nodes doc !! k = Some node /\ Node.nodeData node = v) ->
    merge_nodes d doc = doc.
Proof.
    intros Hlive. unfold merge_nodes. destruct (isICNDocument doc); [|done].
    rewrite (foldl_fixed merge_create_node).
    - apply foldl_fixed. intros [k v] Hin%elem_of_qmap_entries.
      destruct (Hlive k v Hin) as (node & Hnode & <-).
      unfold merge_move_node, nodeWithID. cbn [fst snd]. rewrite Hnode.
      assert (Node.move (NodeData.x (Node.nodeData node))
                (NodeData.y (Node.nodeData node)) node = node) as -> by (by destruct node).
      rewrite insert_id by done. apply set_doc_nodes_same.
    - intros [k v] Hin%elem_of_qmap_entries.
      destruct (Hlive k v Hin) as (node & Hnode & _).
      unfold merge_create_node, nodeWithID. cbn [fst]. by rewrite Hnode.
Qed.

  (** Connector records that describe the live connectors: the connector
      loops change nothing and log nothing. *)
Lemma merge_connectors_fixed d doc :
    (forall k v, m_connectorDataMap d !! k = Some v ->
       exists c, doc_connectors doc !! k = Some c /\ Connector.connectorData c = v) ->
    merge_connectors false d doc = (doc, []).
Proof.
    intros Hlive. unfold merge_connectors. destruct (isICNDocument doc); [|done].
    unfold then_logged. rewrite (foldl_logged_fixed merge_create_connector).
    - cbn [fst snd]. rewrite foldl_fixed; [done|].
      intros [k v] Hin%elem_of_qmap_entries.
      destruct (Hlive k v Hin) as (c & Hc & <-).
      unfold merge_restore_connector, connectorWithID. cbn [fst snd]. rewrite Hc.
      assert (Connector.restoreFromConnectorData (Connector.connectorData c) c = c) as ->
        by (by destruct c).
      rewrite insert_id by done. apply set_doc_connectors_same.
    - intros [k v] Hin%elem_of_qmap_entries.
      destruct (Hlive k v Hin) as (c & Hc & _).
      unfold merge_create_connector, connectorWithID. cbn [fst]. by rewrite Hc.
Qed.

  (** Item records whose items are all live: no item is created, and the
      items under other identifiers are left alone. *)
Lemma merge_create_item_live doc it :
    is_Some (doc_items doc !! it.1) -> merge_create_item doc it = (doc, []).
Proof.
    intros [item Hitem]. unfold merge_create_item, itemWithID. rewrite Hitem.
    rewrite (bool_decide_eq_false_2 (Some item = None)) by done.
    by rewrite andb_false_r.
Qed.

Lemma merge_restore_item_items sel doc it id :
    (is_Some (doc_items (merge_restore_item sel doc it) !! id)
     <-> is_Some (doc_items doc !! id))
    /\ (it.1 <> id -> doc_items (merge_restore_item sel doc it) !! id = doc_items doc !! id).
Proof.
    unfold merge_restore_item, itemWithID.
    destruct (doc_items doc !! it.1) as [item|] eqn:E; [|done].
    destruct sel; cbn; rewrite lookup_insert_eq; cbn; rewrite insert_insert_eq.
    - split; [|intros Hne; by rewrite lookup_insert_ne].
      rewrite lookup_insert_is_Some'. split; [|by right].
      intros [<-|?]; [|done]. by rewrite E.
    - split; [|intros Hne; by rewrite lookup_insert_ne].
      rewrite lookup_insert_is_Some'. split; [|by right].
      intros [<-|?]; [|done]. by rewrite E.
Qed.

Lemma merge_items_live sel d doc :
    (forall k, is_Some (m_itemDataMap d !! k) -> is_Some (doc_items doc !! k)) ->
    let doc' := (merge_items sel d doc).1 in
    (forall id, is_Some (doc_items doc' !! id) <-> is_Some (doc_items doc !! id))
    /\ (forall id, m_itemDataMap d !! id = None ->
                   doc_items doc' !! id = doc_items doc !! id).
Proof.
    intros Hlive. cbv zeta. unfold merge_items. rewrite then_logged_fst. cbn [fst].
    rewrite (foldl_logged_fixed merge_create_item).
    2:{ intros [k v] Hin%elem_of_qmap_entries. apply merge_create_item_live.
        apply Hlive. eauto. }
    cbn [fst].
    assert (H : forall (l : list (string * ItemData.t)),
               (forall b, b ∈ l -> is_Some (m_itemDataMap d !! b.1)) ->
               (forall id, is_Some (doc_items (foldl (merge_restore_item sel) doc l) !! id)
                           <-> is_Some (doc_items doc !! id))
               /\ (forall id, m_itemDataMap d !! id = None ->
                     doc_items (foldl (merge_restore_item sel) doc l) !! id
                     = doc_items doc !! id)).
    { intros l Hl.
      apply (foldl_preserves
               (fun x => (forall id, is_Some (doc_items x !! id)
                                     <-> is_Some (doc_items doc !! id))
                         /\ (forall id, m_itemDataMap d !! id = None ->
                               doc_items x !! id = doc_items doc !! id))); [|done].
      intros a b Hb [Ha1 Ha2]. split.
      - intros id. rewrite <- Ha1. apply merge_restore_item_items.
      - intros id Hid. rewrite <- Ha2 by done.
        apply merge_restore_item_items. intros E.
        specialize (Hl b Hb). rewrite E, Hid in Hl. by destruct Hl. }
    apply H. intros [k v] Hin%elem_of_qmap_entries. eauto.
Qed.

Lemma restoreMicro_fields d doc :
    doc_type (restoreMicro d doc) = doc_type doc
    /\ doc_items (restoreMicro d doc) = doc_items doc
    /\ doc_nodes (restoreMicro d doc) = doc_nodes doc
    /\ doc_connectors (restoreMicro d doc) = doc_connectors doc.
Proof. unfold restoreMicro. by destruct (_ && _). Qed.

  (** The merge of a snapshot that was just captured from the document. *)
Lemma merged_after_capture doc d0 :
    let d := (saveDocumentState PicItem_typeString (Some doc) d0).1 in
    let merged := merged_document d doc in
    doc_type merged = doc_type doc
    /\ doc_nodes merged = doc_nodes doc
    /\ doc_connectors merged = doc_connectors doc
    /\ (forall id, is_Some (doc_items merged !! id) <-> is_Some (doc_items doc !! id))
    /\ (forall id, m_itemDataMap d !! id = None ->
                   doc_items merged !! id = doc_items doc !! id).
Proof.
    intros d merged.
    destruct (saveDocumentState_spec PicItem_typeString doc d0)
      as (Hi & Hc & Hn & Ht & _). fold d in Hi, Hc, Hn, Ht.
    destruct (restoreMicro_fields d doc) as (Et & Ei & En & Ec).
    set (doc0 := restoreMicro d doc) in *.
    assert (Hnodes : merge_nodes d doc0 = doc0).
    { apply merge_nodes_fixed. intros k v. rewrite Hn, En.
      destruct (isICNDocument doc); [|by rewrite lookup_empty].
      rewrite lookup_omap. destruct (doc_nodes doc !! k) as [node|]; [|done].
      cbn. unfold captured_node. destruct (_ && _); [|done].
      intros [= <-]. eauto. }
    destruct (merge_items_live false d doc0) as [Hk Hother].
    { intros k. rewrite Hi, Ei, lookup_omap.
      destruct (doc_items doc !! k); [eauto|]. by intros [? ?]. }
    set (doc2 := (merge_items false d doc0).1) in *.
    assert (Hconn : merge_connectors false d doc2 = (doc2, [])).
    { apply merge_connectors_fixed. intros k v. subst doc2.
      rewrite merge_items_connectors, Hc, Ec.
      destruct (isICNDocument doc); [|by rewrite lookup_empty].
      rewrite lookup_omap. destruct (doc_connectors doc !! k) as [c|]; [|done].
      cbn. unfold captured_connector. destruct (Connector.canvas c); [|done].
      destruct (Connector.startNode c), (Connector.endNode c); try done.
      intros [= <-]. eauto. }
    assert (Em : merged = doc2).
    { subst merged. rewrite merged_document_eq. unfold before_connectors.
      fold doc0. rewrite Hnodes. fold doc2. by rewrite Hconn. }
    rewrite Em. subst doc2.
    rewrite merge_items_type, merge_items_nodes, merge_items_connectors.
    split; [done|]. split; [done|]. split; [done|]. split.
    - intros id. by rewrite Hk, Ei.
    - intros id Hid. by rewrite Hother, Ei.
Qed.

End capture_restore.

(** X18. Capturing a live document and restoring the capture right away
    keeps every item and leaves every node as it is; of the connectors it
    deletes, in a graph-capable document, exactly those that are on the
    canvas but lack a start or an end node (they are not captured, so the
    restore prunes them), and leaves the others as they are. *)
Theorem capture_then_restore {QV : QtValue} {IL : ItemLibrary}
    (PicItem_typeString : string) (doc : ItemDocument) (d0 : ItemDocumentData) :
  let d := (saveDocumentState PicItem_typeString (Some doc) d0).1 in
  let doc' := restored_document PicItem_typeString d doc in
  (forall id, is_Some (doc_items doc' !! id) <-> is_Some (doc_items doc !! id))
  /\ doc_nodes doc' = doc_nodes doc
  /\ (forall id,
        doc_connectors doc' !! id
        = match doc_connectors doc !! id with
          | Some connector =>
              if isICNDocument doc && dangling connector then None else Some connector
          | None => None
          end).
Proof.
  intros d doc'.
  destruct (saveDocumentState_spec PicItem_typeString doc d0)
    as (Hi & Hc & Hn & _). fold d in Hi, Hc, Hn.
  destruct (merged_after_capture PicItem_typeString doc d0)
    as (Ht & En & Ec & Hk & Hother). fold d in Ht, En, Ec, Hk, Hother.
  subst doc'. split; [|split].
  - intros id. rewrite restored_items. cbv zeta. rewrite pruned_exact.
    destruct (doc_items (merged_document d doc) !! id) as [item|] eqn:E.
    + rewrite <- Hk, E. split; [eauto|intros _].
      case_bool_decide as Hs; [|rewrite andb_false_r; eauto].
      rewrite andb_true_r. rewrite (Hother id Hs) in E.
      rewrite Hi, lookup_omap, E in Hs. cbn in Hs. unfold captured_item in Hs.
      unfold item_removable. destruct (_ && _); [done|eauto].
    + rewrite <- Hk, E. done.
  - rewrite restored_nodes. cbv zeta. rewrite En.
    destruct (isICNDocument doc) eqn:Hicn; [|done].
    apply map_eq. intros id. rewrite pruned_exact.
    destruct (doc_nodes doc !! id) as [node|] eqn:E; [|done].
    case_bool_decide as Hs; [|by rewrite andb_false_r].
    rewrite andb_true_r. rewrite Hn, lookup_omap, E in Hs. cbn in Hs.
    unfold captured_node in Hs. unfold node_removable. by destruct (_ && _).
  - intros id. rewrite restored_connectors. cbv zeta. rewrite Ec.
    destruct (isICNDocument doc) eqn:Hicn; [|by destruct (_ !! id)].
    rewrite pruned_exact.
    destruct (doc_connectors doc !! id) as [c|] eqn:E; [|done].
    rewrite Hc, lookup_omap, E. cbn. unfold captured_connector, dangling.
    destruct (Connector.canvas c); [|done].
    destruct (Connector.startNode c), (Connector.endNode c); cbn;
      try (rewrite bool_decide_eq_true_2 by done);
      rewrite ?bool_decide_eq_false_2 by (by intros [? ?] || done); try done.
Qed.

(** * The sub-circuit extractor as a whole *)


Section extractor.
Context {QV : QtValue} {US : UIDSource} {IL : ItemLibrary}.

Lemma initECSubcircuit_parts ec doc d :
    let d1 := (generateUniqueIDs (Some doc) d).1 in
    let r := assignPins ec (m_itemDataMap d1) in
    (initECSubcircuit (Some ec) doc d).1.1.1
    = set_connectorDataMap
        (rewireConnector r.1.1 (ECSubcircuit.id r.1.2) <$> m_connectorDataMap d1)
        (set_itemDataMap r.2 d1)
    /\ (initECSubcircuit (Some ec) doc d).1.1.2 = Some (ECSubcircuit.doneSCInit r.1.2).
Proof.
    cbv zeta. unfold initECSubcircuit.
    destruct (generateUniqueIDs (Some doc) d) as [d1 odoc]. cbn [fst].
    destruct (assignPins ec (m_itemDataMap d1)) as [[nodeMap ec'] items']. cbn [fst snd].
    unfold then_logged.
    destruct (mergeWithDocument _ _ _) as [odoc' log]. done.
Qed.

Lemma remapped_markers doc d :
    markers_of (m_itemDataMap (generateUniqueIDs (Some doc) d).1)
    ≡ₚ (fun e => (replaced_at doc d e.1, remap_item (replaced_at doc d) e.2))
         <$> markers_of (m_itemDataMap d).
Proof.
    unfold markers_of. apply NoDup_Permutation.
    - apply NoDup_filter, NoDup_qmap_entries.
    - apply (NoDup_fmap_2_strong _).
      + intros [k1 it1] [k2 it2] [_ H1]%list_elem_of_filter [_ H2]%list_elem_of_filter.
        apply elem_of_qmap_entries in H1, H2. cbn [fst snd]. intros [= Hs _].
        assert (k1 = k2) as ->.
        { eapply remap_injective; [| |exact Hs]; left; eauto. }
        congruence.
      + apply NoDup_filter, NoDup_qmap_entries.
    - intros [u it']. rewrite list_elem_of_filter, elem_of_qmap_entries, list_elem_of_fmap.
      cbn [snd]. split.
      + intros [Hm (k & it & Hk & -> & ->)%remapped_item_inv].
        exists (k, it). split; [done|].
        apply list_elem_of_filter. split; [done|]. by apply elem_of_qmap_entries.
      + intros ([k it] & [= -> ->] & [Hm Hk]%list_elem_of_filter).
        apply elem_of_qmap_entries in Hk. split; [done|]. by apply remap_item_lookup.
Qed.

End extractor.

(** X20. [initECSubcircuit] on a container.  Every item of the snapshot
    that is not an external-connection marker is kept, under its new
    identifier and with its parent rewritten; every marker is gone, and no
    marker is left in the item map; nodes are kept under their new
    identifiers; there are as many connectors as before.  The container
    keeps its identifier, is marked as initialised, and has as many external
    connections as the snapshot had markers. *)
Theorem initECSubcircuit_extracts_markers
    {QV : QtValue} {US : UIDSource} {IL : ItemLibrary}
    (ec : ECSubcircuit.t) (doc : ItemDocument) (d : ItemDocumentData) :
  let s := replaced_at doc d in
  let d' := (initECSubcircuit (Some ec) doc d).1.1.1 in
  (forall k it, m_itemDataMap d !! k = Some it ->
      m_itemDataMap d' !! s k
      = if decide (is_marker it) then None else Some (remap_item s it))
  /\ (forall u it', m_itemDataMap d' !! u = Some it' -> ~ is_marker it')
  /\ (forall k n, m_nodeDataMap d !! k = Some n -> m_nodeDataMap d' !! s k = Some n)
  /\ size (m_connectorDataMap d') = size (m_connectorDataMap d)
  /\ exists ec', (initECSubcircuit (Some ec) doc d).1.1.2 = Some ec'
       /\ ECSubcircuit.id ec' = ECSubcircuit.id ec
       /\ ECSubcircuit.scInitDone ec' = true
       /\ ECSubcircuit.numExtCon ec'
          = Z.of_nat (length (markers_of (m_itemDataMap d))).
Proof.
  cbv zeta. destruct (initECSubcircuit_parts ec doc d) as [-> ->].
  set (d1 := (generateUniqueIDs (Some doc) d).1).
  destruct (assignPins_spec ec (m_itemDataMap d1))
    as (nodeMap & ec' & items' & E & Hitems & Hdom & Hpins & Hinj & Hnum & Hid & _).
  rewrite E. cbn [fst snd].
  assert (Hlook : forall id it, items' !! id = Some it
                                <-> m_itemDataMap d1 !! id = Some it /\ ~ is_marker it).
  { intros id it. rewrite Hitems. destruct (decide _) as [Hin|Hin].
    - apply marker_ids in Hin as (it' & Hit' & Hm). split; [done|].
      intros [Hit Hnm]. congruence.
    - split; [|tauto]. intros Hit. split; [done|]. intros Hm.
      apply Hin, marker_ids. eauto. }
  split; [|split; [|split; [|split]]].
  - intros k it Hk. cbn.
    pose proof (remap_item_lookup doc d k it Hk) as H1. fold d1 in H1.
    destruct (decide (is_marker it)) as [Hm|Hm].
    + destruct (items' !! replaced_at doc d k) as [it'|] eqn:Hit'; [|done].
      apply Hlook in Hit' as [Hit' Hnm]. rewrite H1 in Hit'.
      injection Hit' as <-. by destruct Hnm.
    + apply Hlook. split; [done|]. exact Hm.
  - intros u it' Hu. cbn in Hu. by apply Hlook in Hu as [_ ?].
  - intros k n Hk. cbn. by apply (remap_node_lookup doc d).
  - cbn. rewrite map_size_fmap.
    destruct (remapped_sizes doc d) as (_ & Hc & _). exact Hc.
  - eexists. split; [done|]. split; [done|]. split; [done|].
    cbn. rewrite Hnum. f_equal.
    rewrite externalConnections_perm, length_fmap.
    fold (markers_of (m_itemDataMap d1)).
    unfold d1. by rewrite remapped_markers, length_fmap.
Qed.

(** * Adding to a snapshot that already holds records *)


Section added.
Context {QV : QtValue}.
Variable PicItem_typeString : string.

Lemma last_with_id_cons id k item l :
    last_with_id id ((k, item) :: l)
    = match last_with_id id l with
      | Some x => Some x
      | None => if decide (k = id) then Some item else None
      end.
Proof.
    unfold last_with_id. rewrite filter_cons. cbn [fst].
    destruct (decide (k = id)) as [->|Hne];
      [|by destruct (snd <$> last (filter _ l))].
    destruct (filter _ l) as [|y l'] eqn:E; [done|].
    change (last ((id, item) :: y :: l')) with (last (y :: l')).
    destruct (last (y :: l')) eqn:El; [done|].
    by apply last_None in El.
Qed.

Lemma addItems_fold (itemList : list (string * Item.t)) (d : ItemDocumentData) :
    let r := addItems PicItem_typeString itemList d in
    let accepted := accepted_items PicItem_typeString itemList in
    (forall id, m_itemDataMap r.1 !! id
                = match last_with_id id accepted with
                  | Some item => Some (Item.itemData item)
                  | None => m_itemDataMap d !! id
                  end)
    /\ (size (m_itemDataMap r.1) + length r.2
        = size (m_itemDataMap d) + length accepted)%nat
    /\ Forall (fun e => is_Warning e = true) r.2
    /\ m_connectorDataMap r.1 = m_connectorDataMap d
    /\ m_nodeDataMap r.1 = m_nodeDataMap d
    /\ m_microData r.1 = m_microData d
    /\ m_documentType r.1 = m_documentType d.
Proof.
    cbv zeta. unfold addItems, accepted_items. revert d.
    induction itemList as [|[k item] l IH]; intros d.
    - rewrite foldl_logged_nil. cbn. repeat split; try done.
    - rewrite foldl_logged_cons, filter_cons. cbn [fst snd].
      assert (Hc : captured_item PicItem_typeString item
                   = if Item.canvas item
                        && bool_decide (Item.type item <> PicItem_typeString)
                     then Some (Item.itemData item) else None) by reflexivity.
      destruct (Item.canvas item && bool_decide (Item.type item <> PicItem_typeString))
        eqn:Eacc.
      + rewrite decide_True by (rewrite Hc; by eexists).
        set (d1 := set_itemDataMap (<[k:=Item.itemData item]> (m_itemDataMap d)) d).
        change (addItemData (Item.itemData item) k d)
          with (d1, if bool_decide (is_Some (m_itemDataMap d !! k))
                    then [Warning ("Overwriting item: " +:+ k)] else []).
        cbn [fst snd].
        destruct (IH d1) as (H1 & H2 & H3 & H4 & H5 & H6 & H7).
        split; [|split; [|split; [|by rewrite H4, H5, H6, H7]]].
        * intros id. rewrite H1, last_with_id_cons.
          destruct (last_with_id id _); [done|]. subst d1. cbn.
          destruct (decide (k = id)) as [->|Hne];
            [by rewrite lookup_insert_eq|by rewrite lookup_insert_ne].
        * rewrite length_app. cbn [length].
          assert (size (m_itemDataMap d1)
                  + length (if bool_decide (is_Some (m_itemDataMap d !! k))
                            then [Warning ("Overwriting item: " +:+ k)] else [])
                  = S (size (m_itemDataMap d)))%nat as Hstep.
          { subst d1. cbn [m_itemDataMap set_itemDataMap].
            destruct (m_itemDataMap d !! k) as [v|] eqn:Hk.
            - rewrite bool_decide_eq_true_2 by (by eexists).
              rewrite map_size_insert_Some by done. cbn [length]. lia.
            - rewrite bool_decide_eq_false_2 by (by intros [? ?]).
              rewrite map_size_insert_None by done. cbn [length]. lia. }
          lia.
        * apply Forall_app. split; [|done].
          destruct (bool_decide (is_Some (m_itemDataMap d !! k))); by repeat constructor.
      + rewrite decide_False by (rewrite Hc; by intros [? ?]). cbn [fst snd app].
        apply IH.
Qed.

End added.

(** X21. [addItems] on any item list and any snapshot.  An identifier ends
    up with the record of the last accepted item that carries it, and
    keeps what the snapshot had when no accepted item carries it; every
    accepted item either adds a record or logs one "Overwriting item"
    warning, so the records and warnings together grow by the number of
    accepted items; nothing but warnings is logged and the other maps, the
    micro record and the document type are untouched. *)
Theorem addItems_overwrites_with_warning {QV : QtValue}
    (PicItem_typeString : string) (itemList : list (string * Item.t))
    (d : ItemDocumentData) :
  let r := addItems PicItem_typeString itemList d in
  let accepted := accepted_items PicItem_typeString itemList in
  (forall id, m_itemDataMap r.1 !! id
              = match last_with_id id accepted with
                | Some item => Some (Item.itemData item)
                | None => m_itemDataMap d !! id
                end)
  /\ (size (m_itemDataMap r.1) + length r.2
      = size (m_itemDataMap d) + length accepted)%nat
  /\ Forall (fun e => is_Warning e = true) r.2
  /\ m_connectorDataMap r.1 = m_connectorDataMap d
  /\ m_nodeDataMap r.1 = m_nodeDataMap d
  /\ m_microData r.1 = m_microData d
  /\ m_documentType r.1 = m_documentType d.
Proof. apply addItems_fold. Qed.
